(** * MathUtils: a verified model of [mathUtils.js]

    The JavaScript module exports pure numeric helpers over the language's
    only numeric type, the IEEE 754 binary64 "Number".  The embedding keeps
    that type: a Number is a [spec_float] of the Standard Library at
    precision 53 and exponent bound 1024, and every arithmetic operator of
    the source is the corresponding correctly rounded operation.  Arrays
    live in a store and are passed by reference, as in the source. *)

From Stdlib Require Import ZArith Bool List Lia Znumtheory.
From Stdlib Require Import Floats.SpecFloat.
From stdpp Require Import gmap list sorting.

Local Open Scope Z_scope.

(** ** Binary64 numbers *)

Module B64.

Definition prec : Z := 53.
Definition emax : Z := 1024.

Definition float := spec_float.

Definition NaN : float := S754_nan.
Definition pInf : float := S754_infinity false.

(** A datum is a binary64 number when its mantissa and exponent are in
    canonical form. *)
Definition wf (x : float) : Prop := valid_binary prec emax x = true.

(** The Number denoted by an integer literal (rounded to nearest). *)
Definition of_Z (z : Z) : float := binary_normalize prec emax z 0 false.

Definition add : float -> float -> float := SFadd prec emax.
Definition sub : float -> float -> float := SFsub prec emax.
Definition mul : float -> float -> float := SFmul prec emax.
Definition div : float -> float -> float := SFdiv prec emax.
Definition sqrt : float -> float := SFsqrt prec emax.

(** [===], [<] and [<=] on Numbers: false as soon as one side is NaN,
    and the two zeros are equal. *)
Definition eqb : float -> float -> bool := SFeqb.
Definition ltb : float -> float -> bool := SFltb.
Definition leb : float -> float -> bool := SFleb.

Definition is_nan (x : float) : bool :=
  match x with S754_nan => true | _ => false end.

Definition is_finite (x : float) : bool :=
  match x with S754_zero _ | S754_finite _ _ _ => true | _ => false end.

(** The integer a Number denotes, when it denotes one. *)
Definition to_Z (x : float) : option Z :=
  match x with
  | S754_zero _ => Some 0
  | S754_finite s m e =>
      if 0 <=? e then Some (cond_Zopp s (Zpos m * 2 ^ e))
      else if Zpos m mod 2 ^ (- e) =? 0
           then Some (cond_Zopp s (Zpos m / 2 ^ (- e)))
           else None
  | _ => None
  end.

(** [Number.isInteger]. *)
Definition isInteger (x : float) : bool :=
  match to_Z x with Some _ => true | None => false end.

(** The [%] operator (ECMAScript Number::remainder): the exact remainder
    of the truncating division, with the sign of the dividend. *)
Definition rem (n d : float) : float :=
  match n, d with
  | S754_nan, _ | _, S754_nan => S754_nan
  | S754_infinity _, _ => S754_nan
  | _, S754_zero _ => S754_nan
  | _, S754_infinity _ => n
  | S754_zero _, _ => n
  | S754_finite sn mn en, S754_finite _ md ed =>
      let e := Z.min en ed in
      let r := Z.rem (Zpos (fst (shl_align mn en e)))
                     (Zpos (fst (shl_align md ed e))) in
      binary_normalize prec emax (cond_Zopp sn r) e sn
  end.

End B64.

Abbreviation float := B64.float.

Arguments B64.of_Z : simpl never.
Arguments B64.add : simpl never.
Arguments B64.sub : simpl never.
Arguments B64.mul : simpl never.
Arguments B64.div : simpl never.
Arguments B64.sqrt : simpl never.
Arguments B64.rem : simpl never.
Arguments B64.eqb : simpl never.
Arguments B64.ltb : simpl never.
Arguments B64.leb : simpl never.

(** ** Values, the store and abrupt completion *)

Definition loc := positive.

(** The values of the language.  An object (arrays and functions
    included) is its identity in the store together with what the string
    conversion of the language does to it, the one operation the module
    applies to an object that it is not handed as an array.  That
    conversion runs the object's own [toString] and [valueOf], code that
    the module does not control: it yields a string, or the language
    refuses it with a [TypeError] (an object with neither method, such as
    [Object.create(null)]), or the code throws a value of its own, or it
    never returns. *)
Inductive value :=
| VUndefined
| VNull
| VBool (b : bool)
| VNumber (x : float)
| VBigInt (z : Z)
| VString (s : list Byte.byte)
| VSymbol
| VObject (l : loc) (c : conversion)
with conversion :=
| ConvString
| ConvTypeError
| ConvThrows (thrown : value)
| ConvDiverges.

(** Objects of the store: arrays, and every other kind of object.  An
    array is an ordinary Array with the built-in methods: every index
    below its length holds an element or is a hole. *)
Inductive object :=
| OArray (elems : list (option value))
| OPlain.

Abbreviation store := (gmap loc object).

(** What a call can throw.  The source throws [Error] with a message:
    each of the first seven constructors stands for one [throw] of the
    source.  The last two come from the string conversion that builds a
    message. *)
Inductive error :=
| InvalidNumber        (* `Invalid number: ${value}` *)
| NotAnInteger         (* `Expected integer, got: ${value}` *)
| DivisionByZero       (* 'Division by zero is not allowed' *)
| NegativeRadicand     (* 'Square root of negative numbers is not supported' *)
| NegativeFactorial    (* 'Factorial of negative numbers is not defined' *)
| NegativeIndex        (* 'Fibonacci sequence index cannot be negative' *)
| EmptyOrInvalidInput  (* 'Input must be a non-empty array' *)
| TypeError            (* raised by the language: no string conversion *)
| Thrown (v : value).  (* a value thrown by the code of a conversion *)

(** How a call ends: it returns, it throws, or it never ends. *)
Inductive completion (A : Type) :=
| Return (a : A)
| Throw (e : error)
| Diverge.
Arguments Return {A} a.
Arguments Throw {A} e.
Arguments Diverge {A}.

#[global] Instance completion_ret : MRet completion := @Return.
#[global] Instance completion_bind : MBind completion :=
  fun A B f m =>
    match m with Return a => f a | Throw e => Throw e | Diverge => Diverge end.

(** [Array.isArray]: the contents of the array a value refers to. *)
Definition isArray (st : store) (v : value) : option (list (option value)) :=
  match v with
  | VObject l _ =>
      match st !! l with Some (OArray elems) => Some elems | _ => None end
  | _ => None
  end.

(** The template literal [`${value}`]: the string conversion of the
    language.  Only how it ends matters here; the text goes into the
    message of the error. *)
Definition to_string (v : value) : completion unit :=
  match v with
  | VSymbol => Throw TypeError
  | VObject _ ConvString => Return tt
  | VObject _ ConvTypeError => Throw TypeError
  | VObject _ (ConvThrows w) => Throw (Thrown w)
  | VObject _ ConvDiverges => Diverge
  | _ => Return tt
  end.

(** ** The source, function by function *)

(** [validateNumber]: the guard is [typeof value !== 'number' ||
    isNaN(value)], and the [throw] builds its message with
    [`Invalid number: ${value}`] first.  On success the checked Number is
    handed back, which is how later arithmetic knows its operand is a
    Number. *)
Definition validateNumber (v : value) : completion float :=
  match v with
  | VNumber x =>
      if B64.is_nan x then _ ← to_string v; Throw InvalidNumber else Return x
  | _ => _ ← to_string v; Throw InvalidNumber
  end.

(** [validateNumbers(...values)] is [values.forEach(validateNumber)]: the
    first offending value throws. *)
Definition validateNumbers (values : list value) : completion (list float) :=
  mapM validateNumber values.

(** Every call site of [validateNumbers] passes two arguments. *)
Definition validateNumbers2 (a b : value) : completion (float * float) :=
  x ← validateNumber a; y ← validateNumber b; Return (x, y).

Definition validateInteger (v : value) : completion float :=
  x ← validateNumber v;
  if B64.isInteger x then Return x else Throw NotAnInteger.

Definition add (a b : value) : completion value :=
  '(x, y) ← validateNumbers2 a b;
  Return (VNumber (B64.add x y)).

Definition subtract (a b : value) : completion value :=
  '(x, y) ← validateNumbers2 a b;
  Return (VNumber (B64.sub x y)).

Definition multiply (a b : value) : completion value :=
  '(x, y) ← validateNumbers2 a b;
  Return (VNumber (B64.mul x y)).

Definition divide (a b : value) : completion value :=
  '(x, y) ← validateNumbers2 a b;
  if B64.eqb y (B64.of_Z 0) then Throw DivisionByZero
  else Return (VNumber (B64.div x y)).

Definition squareRoot (number : value) : completion value :=
  x ← validateNumber number;
  if B64.ltb x (B64.of_Z 0) then Throw NegativeRadicand
  else Return (VNumber (B64.sqrt x)).

(** [factorial]: the loop [for (let i = 2; i <= number; i++) result *= i].
    [fuel] bounds the number of loop tests; [None] means the call was still
    running when the fuel ran out, which is the case for every fuel when
    the validation of the argument never ends. *)
Fixpoint factorial_loop (fuel : nat) (number i result : float) : option float :=
  match fuel with
  | O => None
  | S fuel' =>
      if B64.leb i number
      then factorial_loop fuel' number (B64.add i (B64.of_Z 1)) (B64.mul result i)
      else Some result
  end.

Definition factorial (fuel : nat) (number : value) : option (completion value) :=
  match validateInteger number with
  | Throw e => Some (Throw e)
  | Diverge => None
  | Return n =>
      if B64.ltb n (B64.of_Z 0) then Some (Throw NegativeFactorial)
      else if B64.eqb n (B64.of_Z 0) || B64.eqb n (B64.of_Z 1)
      then Some (Return (VNumber (B64.of_Z 1)))
      else match factorial_loop fuel n (B64.of_Z 2) (B64.of_Z 1) with
           | Some result => Some (Return (VNumber result))
           | None => None
           end
  end.

(** [isPrime]: the loop
    [for (let i = 3; i <= Math.sqrt(number); i += 2)
       if (number % i === 0) return false]. *)
Fixpoint isPrime_loop (fuel : nat) (number i : float) : option bool :=
  match fuel with
  | O => None
  | S fuel' =>
      if B64.leb i (B64.sqrt number)
      then if B64.eqb (B64.rem number i) (B64.of_Z 0) then Some false
           else isPrime_loop fuel' number (B64.add i (B64.of_Z 2))
      else Some true
  end.

Definition isPrime (fuel : nat) (number : value) : option (completion value) :=
  match validateInteger number with
  | Throw e => Some (Throw e)
  | Diverge => None
  | Return n =>
      if B64.ltb n (B64.of_Z 2) then Some (Return (VBool false))
      else if B64.eqb n (B64.of_Z 2) then Some (Return (VBool true))
      else if B64.eqb (B64.rem n (B64.of_Z 2)) (B64.of_Z 0)
      then Some (Return (VBool false))
      else match isPrime_loop fuel n (B64.of_Z 3) with
           | Some b => Some (Return (VBool b))
           | None => None
           end
  end.

(** [fibonacci]: the loop
    [for (let i = 2; i <= n; i++) { const temp = a + b; a = b; b = temp; }]. *)
Fixpoint fibonacci_loop (fuel : nat) (n i a b : float) : option float :=
  match fuel with
  | O => None
  | S fuel' =>
      if B64.leb i n
      then fibonacci_loop fuel' n (B64.add i (B64.of_Z 1)) b (B64.add a b)
      else Some b
  end.

Definition fibonacci (fuel : nat) (n : value) : option (completion value) :=
  match validateInteger n with
  | Throw e => Some (Throw e)
  | Diverge => None
  | Return k =>
      if B64.ltb k (B64.of_Z 0) then Some (Throw NegativeIndex)
      else if B64.eqb k (B64.of_Z 0) then Some (Return (VNumber (B64.of_Z 0)))
      else if B64.eqb k (B64.of_Z 1) then Some (Return (VNumber (B64.of_Z 1)))
      else match fibonacci_loop fuel k (B64.of_Z 2) (B64.of_Z 0) (B64.of_Z 1) with
           | Some b => Some (Return (VNumber b))
           | None => None
           end
  end.

(** [numbers.length] as a Number; a length is below 2^32, hence exact. *)
Definition length_number {A} (l : list A) : float :=
  B64.of_Z (Z.of_nat (length l)).

(** The elements [forEach] and [reduce] visit: both skip the holes. *)
Definition present (elems : list (option value)) : list value :=
  omap id elems.

(** [numbers.reduce((acc, curr) => acc + curr, 0)], over the elements
    that [forEach(validateNumber)] has let through. *)
Definition reduce_sum (numbers : list float) : float :=
  fold_left B64.add numbers (B64.of_Z 0).

(** [average].  [numbers.length] counts the holes as well. *)
Definition average (st : store) (numbers : value) : completion value :=
  match isArray st numbers with
  | None => Throw EmptyOrInvalidInput
  | Some elems =>
      if (length elems =? 0)%nat then Throw EmptyOrInvalidInput
      else
        xs ← validateNumbers (present elems);
        Return (VNumber (B64.div (reduce_sum xs) (length_number elems)))
  end.

(** [Array.prototype.sort(compareFn)] is a built-in.  For a comparator that
    orders its arguments consistently the language fixes the outcome: the
    stable arrangement in which [b] precedes [a] only if
    [compareFn(a, b) > 0].  It is modelled by stable insertion. *)
Section Sort.
Variable compareFn : float -> float -> float.

Fixpoint sort_insert (x : float) (l : list float) : list float :=
  match l with
  | [] => [x]
  | y :: l' =>
      if B64.ltb (B64.of_Z 0) (compareFn x y)
      then y :: sort_insert x l'
      else x :: l
  end.

Definition array_sort (l : list float) : list float :=
  foldr sort_insert [] l.
End Sort.

(** [[...numbers]] reads every index below the length: a hole is read
    as [undefined]. *)
Definition spread (elems : list (option value)) : list value :=
  default VUndefined <$> elems.

(** The sorted copy holds Numbers and, after them, the [undefined]
    elements, which [sort] moves to the end without handing them to the
    comparator.  [None] stands for [undefined]. *)
Definition as_value (o : option float) : value :=
  match o with Some x => VNumber x | None => VUndefined end.

(** An element in arithmetic: [undefined] becomes NaN. *)
Definition as_number (o : option float) : float := default B64.NaN o.

(** [sorted[i]]: an index outside the array yields [undefined]. *)
Definition array_at (l : list (option float)) (i : Z) : option float :=
  if i <? 0 then None else mjoin (l !! Z.to_nat i).

(** [median].  [[...numbers]] allocates a fresh array holding the elements
    of [numbers]; [sort] rearranges that fresh array in place.  A call
    that returns also yields the store it leaves behind. *)
Definition median (st : store) (numbers : value) : completion (value * store) :=
  match isArray st numbers with
  | None => Throw EmptyOrInvalidInput
  | Some elems =>
      if (length elems =? 0)%nat then Throw EmptyOrInvalidInput
      else
        xs ← validateNumbers (present elems);
        let copy := fresh (dom st) in
        let st1 := <[copy := OArray (Some <$> spread elems)]> st in
        let sorted := (Some <$> array_sort (fun a b => B64.sub a b) xs)
                      ++ replicate (length elems - length xs) None in
        let st2 := <[copy := OArray (Some <$> (as_value <$> sorted))]> st1 in
        let len := Z.of_nat (length sorted) in
        let mid := len / 2 in
        if len mod 2 =? 0
        then Return (VNumber (B64.div (B64.add (as_number (array_at sorted (mid - 1)))
                                               (as_number (array_at sorted mid)))
                                      (B64.of_Z 2)), st2)
        else Return (as_value (array_at sorted mid), st2)
  end.

(** ** Specification notions *)

(** *** The meaning of a binary64 datum *)

(** The exponent a canonical mantissa of a given magnitude carries. *)
Definition fexp (e : Z) : Z := SpecFloat.fexp B64.prec B64.emax e.

Definition canonical (m : positive) (e : Z) : Prop :=
  canonical_mantissa B64.prec B64.emax m e = true.

(** Values as integers: every finite binary64 number times 2^1074 is an
    integer.  The infinities are placed beyond every finite value, so
    that [scaled] is monotone on all Numbers that are not NaN. *)
Definition scaled (x : float) : Z :=
  match x with
  | S754_finite s m e => cond_Zopp s (Zpos m * 2 ^ (e + 1074))
  | S754_infinity s => cond_Zopp s (2 ^ 2098)
  | _ => 0
  end.

(** The spacing of binary64 numbers around a positive scaled value. *)
Definition grid (V : Z) : Z := 2 ^ (fexp (Zdigits2 V - 1074) + 1074).

(** [x] is the binary64 number denoting the integer [N]. *)
Definition int_float (x : float) (N : Z) : Prop :=
  B64.wf x /\ B64.to_Z x = Some N.

(** A Number that passes [validateNumber]. *)
Definition valid_number (x : float) : Prop := B64.is_nan x = false.

(** A value the module accepts as an operand: a Number other than NaN. *)
Definition accepted (v : value) : Prop :=
  exists x, v = VNumber x /\ valid_number x.

(** How a call ends on an operand that is not accepted.  The message of
    the error is built first: when the operand converts to a string the
    call throws [InvalidNumber], and otherwise it ends as the conversion
    does. *)
Definition rejection {A} (v : value) : completion A :=
  match to_string v with
  | Return _ => Throw InvalidNumber
  | Throw e => Throw e
  | Diverge => Diverge
  end.

(** The two zeros, the only Numbers [=== 0]. *)
Definition is_zero (x : float) : Prop := exists s, x = S754_zero s.

(** Ascending numeric order on Numbers. *)
Definition num_le (x y : float) : Prop := B64.leb x y = true.

(** *** Factorial, Fibonacci, primality *)

(** The mathematical factorial, as a product over [1..n]. *)
Fixpoint fact (n : nat) : Z :=
  match n with
  | O => 1
  | S k => Z.of_nat n * fact k
  end.

(** [F(0)=0, F(1)=1, F(k)=F(k-1)+F(k-2)], computed as the pair
    [(F(n), F(n+1))]. *)
Fixpoint fib_pair (n : nat) : Z * Z :=
  match n with
  | O => (0, 1)
  | S k => let '(a, b) := fib_pair k in (b, a + b)
  end.

Definition fib (n : nat) : Z := fst (fib_pair n).

(** Trial division by every candidate [2 .. N-1]: the slow reference. *)
Definition trial_division (N : Z) : bool :=
  (1 <? N) &&
  forallb (fun d => negb (N mod d =? 0)) (map Z.of_nat (seq 2 (Z.to_nat N - 2))).

(** Some odd [d] with [3 <= d <= floor (sqrt N)] divides [N]. *)
Definition odd_divisor_upto_sqrt (N : Z) : Prop :=
  exists d, 3 <= d /\ Z.odd d = true /\ d * d <= N /\ (d | N).

(** *** Statistics *)

(** An array without holes whose elements are the Numbers [xs]. *)
Definition number_array (xs : list float) : list (option value) :=
  Some <$> (VNumber <$> xs).


(** The median of an ascending sequence: its middle element when the
    length is odd, the binary64 mean of the two middle elements otherwise. *)
Definition median_of_sorted (s : list float) : float :=
  let n := length s in
  if Nat.odd n then nth (n / 2) s B64.NaN
  else B64.div (B64.add (nth (n / 2 - 1) s B64.NaN) (nth (n / 2) s B64.NaN))
               (B64.of_Z 2).

(** A binary64 datum that passes [validateNumber].  Every JavaScript
    Number is a binary64 datum, so [number] describes exactly the Numbers
    the module accepts. *)
Definition number (x : float) : Prop := B64.wf x /\ valid_number x.

(** The running sum of a sequence, left to right: the sum of [xs ++ [x]]
    is the sum of [xs] plus [x], each addition rounded. *)
Definition float_sum (xs : list float) : float :=
  foldr (fun x acc => B64.add acc x) (B64.of_Z 0) (rev xs).

Definition Zsum (Xs : list Z) : Z := foldr Z.add 0 Xs.

(** Checked evaluation of [factorial] and [fibonacci] at the integer [n]:
    the Number denoting [n] is well formed, and the call returns the
    well-formed Number denoting [expected]. *)
Definition returns_integer (r : option (completion value)) (expected : Z) : bool :=
  match r with
  | Some (Return (VNumber y)) =>
      valid_binary B64.prec B64.emax y &&
      match B64.to_Z y with Some z => z =? expected | None => false end
  | _ => false
  end.

Definition check_factorial (n : nat) : bool :=
  returns_integer (factorial n (VNumber (B64.of_Z (Z.of_nat n)))) (fact n).

Definition check_fibonacci (n : nat) : bool :=
  returns_integer (fibonacci n (VNumber (B64.of_Z (Z.of_nat n)))) (fib n).

(** *** The remaining operation *)

(** [power]: [Math.pow] is implementation-approximated in the language
    standard, so the built-in is a parameter of the model; the function
    itself adds the validation of both arguments. *)
Definition power (pow : float -> float -> float) (base exponent : value)
  : completion value :=
  '(x, y) ← validateNumbers2 base exponent;
  Return (VNumber (pow x y)).

(** *** Notions for the further properties *)

(** Unary minus on Numbers. *)
Definition negate (x : float) : float := SFopp x.

(** The running product [1 * 2 * ... * k], every multiplication rounded
    to binary64 as the loop of [factorial] does. *)
Fixpoint fact_float (k : nat) : float :=
  match k with
  | O => B64.of_Z 1
  | S k' => B64.mul (fact_float k') (B64.of_Z (Z.of_nat k))
  end.

(** The pair [(a, b)] of [fibonacci] after [k] additions, every addition
    rounded to binary64. *)
Fixpoint fib_float_pair (k : nat) : float * float :=
  match k with
  | O => (B64.of_Z 0, B64.of_Z 1)
  | S k' => let '(a, b) := fib_float_pair k' in (b, B64.add a b)
  end.

Definition fib_float (k : nat) : float := fst (fib_float_pair k).

(** A Number that is neither NaN nor below zero. *)
Definition nonneg_float (x : float) : Prop :=
  match x with
  | S754_zero _ | S754_finite false _ _ | S754_infinity false => True
  | _ => False
  end.

(** The same Number, except that the two zeros are not told apart (they
    are [===] in the source). *)
Definition same_number (x y : float) : Prop :=
  x = y \/ (is_zero x /\ is_zero y).

(** ** Facts about binary64 arithmetic *)

Ltac fexp_lia :=
  unfold fexp, SpecFloat.fexp, emin, B64.prec, B64.emax in *; lia.

Lemma digits2_pos_size p : digits2_pos p = Pos.size p.
Proof. induction p; simpl; congruence. Qed.

Lemma digits2_pos_log2 p : Zpos (digits2_pos p) = Z.log2 (Zpos p) + 1.
Proof.
  rewrite digits2_pos_size. destruct p; simpl; lia.
Qed.

Lemma Zdigits2_log2 m : 0 < m -> Zdigits2 m = Z.log2 m + 1.
Proof.
  destruct m; try lia. intros _. apply digits2_pos_log2.
Qed.

Lemma Zdigits2_nonneg m : 0 <= Zdigits2 m.
Proof. destruct m; simpl; lia. Qed.

Lemma Zdigits2_bounds m :
  0 < m -> 2 ^ (Zdigits2 m - 1) <= m < 2 ^ Zdigits2 m.
Proof.
  intros Hm. rewrite Zdigits2_log2 by assumption.
  replace (Z.log2 m + 1 - 1) with (Z.log2 m) by lia.
  replace (Z.log2 m + 1) with (Z.succ (Z.log2 m)) by lia.
  apply Z.log2_spec. assumption.
Qed.

Lemma Zdigits2_unique m d :
  0 < m -> 2 ^ (d - 1) <= m < 2 ^ d -> Zdigits2 m = d.
Proof.
  intros Hm H. rewrite Zdigits2_log2 by assumption.
  assert (0 < d).
  { destruct (Z.lt_ge_cases 0 d); [assumption|].
    rewrite (Z.pow_neg_r 2 (d - 1)) in H by lia.
    assert (2 ^ d <= 1); [|lia].
    destruct (Z.eq_dec d 0) as [->|]; [simpl; lia|].
    rewrite Z.pow_neg_r by lia. lia. }
  assert (Z.log2 m = d - 1); [|lia].
  apply Z.log2_unique; [lia|].
  replace (Z.succ (d - 1)) with d by lia. assumption.
Qed.

Lemma Zdigits2_mul_pow2 m k :
  0 < m -> 0 <= k -> Zdigits2 (m * 2 ^ k) = Zdigits2 m + k.
Proof.
  intros Hm Hk.
  assert (0 < 2 ^ k) by (apply Z.pow_pos_nonneg; lia).
  rewrite (Zdigits2_log2 m) by assumption.
  rewrite Zdigits2_log2 by (apply Z.mul_pos_pos; assumption).
  rewrite Z.log2_mul_pow2 by lia. lia.
Qed.

Lemma Zdigits2_div_pow2 m k :
  0 < m -> 0 <= k -> k < Zdigits2 m -> Zdigits2 (m / 2 ^ k) = Zdigits2 m - k.
Proof.
  intros Hm Hk Hlt.
  pose proof (Zdigits2_bounds m Hm) as [Hlo Hhi].
  assert (Hp : 0 < 2 ^ k) by (apply Z.pow_pos_nonneg; lia).
  assert (Hq : 2 ^ (Zdigits2 m - k - 1) <= m / 2 ^ k).
  { apply Z.div_le_lower_bound; [assumption|].
    rewrite <- Z.pow_add_r by lia.
    replace (k + (Zdigits2 m - k - 1)) with (Zdigits2 m - 1) by lia. assumption. }
  assert (Hq' : m / 2 ^ k < 2 ^ (Zdigits2 m - k)).
  { apply Z.div_lt_upper_bound; [assumption|].
    rewrite <- Z.pow_add_r by lia.
    replace (k + (Zdigits2 m - k)) with (Zdigits2 m) by lia. assumption. }
  apply Zdigits2_unique.
  - assert (0 < 2 ^ (Zdigits2 m - k - 1)) by (apply Z.pow_pos_nonneg; lia). lia.
  - split; assumption.
Qed.

(** *** Rounding *)

(** Right shifts of the rounding record. *)

Lemma iter_pos_nat {A} (f : A -> A) p x :
  SpecFloat.iter_pos f p x = Nat.iter (Pos.to_nat p) f x.
Proof.
  revert x. induction p as [p IH|p IH|]; intros x; cbn [SpecFloat.iter_pos].
  - rewrite !IH, Pos2Nat.inj_xI.
    replace (S (2 * Pos.to_nat p)) with (Pos.to_nat p + (Pos.to_nat p + 1))%nat by lia.
    rewrite !Nat.iter_add. reflexivity.
  - rewrite !IH, Pos2Nat.inj_xO.
    replace (2 * Pos.to_nat p)%nat with (Pos.to_nat p + Pos.to_nat p)%nat by lia.
    rewrite Nat.iter_add. reflexivity.
  - reflexivity.
Qed.

Lemma shr_1_spec m r s :
  0 <= m ->
  shr_1 (Build_shr_record m r s) = Build_shr_record (m / 2) (Z.odd m) (r || s).
Proof.
  intros Hm. rewrite <- Z.div2_div.
  destruct m as [|p|p]; [reflexivity| |lia].
  destruct p; reflexivity.
Qed.

Lemma iter_shr_1_spec n m r s :
  0 <= m ->
  let mrs := Nat.iter n shr_1 (Build_shr_record m r s) in
  shr_m mrs = m / 2 ^ Z.of_nat n /\
  (r = false -> s = false -> (2 ^ Z.of_nat n | m) ->
   shr_r mrs = false /\ shr_s mrs = false).
Proof.
  intros Hm. induction n as [|n IH].
  - simpl. rewrite Z.div_1_r. auto.
  - cbn zeta in *. rewrite Nat2Z.inj_succ. simpl Nat.iter.
    destruct (Nat.iter n shr_1 (Build_shr_record m r s)) as [m' r' s'].
    simpl in IH. destruct IH as [Hm' Hex].
    assert (Hp : 0 < 2 ^ Z.of_nat n) by (apply Z.pow_pos_nonneg; lia).
    assert (0 <= m') by (subst m'; apply Z.div_pos; lia).
    rewrite shr_1_spec by assumption. simpl. split.
    + subst m'. rewrite Z.pow_succ_r by lia.
      rewrite Z.div_div by lia. f_equal. lia.
    + intros Hr Hs [c Hc]. rewrite Z.pow_succ_r in Hc by lia.
      destruct Hex as [-> ->]; [assumption|assumption| |].
      { exists (c * 2). lia. }
      split; [|reflexivity].
      subst m'. replace m with (c * 2 * 2 ^ Z.of_nat n) by lia.
      rewrite Z.div_mul by lia. rewrite Z.odd_mul. simpl. apply andb_false_r.
Qed.

Lemma shr_spec m l e k :
  0 <= m -> 0 <= k ->
  let '(mrs, e') := shr (shr_record_of_loc m l) e k in
  e' = e + k /\ shr_m mrs = m / 2 ^ k /\
  (l = loc_Exact -> (2 ^ k | m) -> loc_of_shr_record mrs = loc_Exact).
Proof.
  intros Hm Hk. unfold shr.
  destruct k as [|p|p]; [| |lia].
  - rewrite Z.add_0_r, Z.div_1_r.
    destruct l as [|[]]; simpl; repeat split; try discriminate; auto.
  - rewrite iter_pos_nat.
    assert (E : shr_record_of_loc m l =
                Build_shr_record m (shr_r (shr_record_of_loc m l))
                                   (shr_s (shr_record_of_loc m l)))
      by (destruct l as [|[]]; reflexivity).
    rewrite E.
    destruct (iter_shr_1_spec (Pos.to_nat p) m
                (shr_r (shr_record_of_loc m l)) (shr_s (shr_record_of_loc m l)) Hm)
      as [H1 H2].
    rewrite positive_nat_Z in H1, H2.
    split; [reflexivity|]. split; [exact H1|].
    intros -> Hd. destruct (H2 eq_refl eq_refl Hd) as [Hr Hs].
    destruct (Nat.iter _ _ _) as [m' r' s']. simpl in *. subst. reflexivity.
Qed.

Lemma round_nearest_even_cases m l :
  round_nearest_even m l = m \/ round_nearest_even m l = m + 1.
Proof.
  destruct l as [|[]]; simpl; auto. destruct (Z.even m); auto.
Qed.

Lemma fexp_canonical_shift m e :
  0 <= m -> e <= fexp (Zdigits2 m + e) ->
  let k := fexp (Zdigits2 m + e) - e in
  fexp (Zdigits2 (m / 2 ^ k) + (e + k)) = e + k.
Proof.
  intros Hm He k.
  assert (Hk : 0 <= k) by (unfold k; lia).
  assert (Hp : 0 < 2 ^ k) by (apply Z.pow_pos_nonneg; lia).
  destruct (Z.eq_dec m 0) as [->|Hm0].
  { rewrite Z.div_0_l by lia. simpl Zdigits2 in *.
    unfold k in *. fexp_lia. }
  destruct (Z.lt_ge_cases k (Zdigits2 m)) as [Hlt|Hge].
  - rewrite Zdigits2_div_pow2 by lia.
    replace (Zdigits2 m - k + (e + k)) with (Zdigits2 m + e) by lia.
    unfold k. lia.
  - assert (m / 2 ^ k = 0) as ->.
    { apply Z.div_small. split; [lia|].
      pose proof (Zdigits2_bounds m ltac:(lia)) as [_ Hhi].
      eapply Z.lt_le_trans; [exact Hhi|].
      apply Z.pow_le_mono_r; lia. }
    simpl Zdigits2. unfold k in *. fexp_lia.
Qed.

Lemma fexp_round_up m1 e1 :
  0 <= m1 -> fexp (Zdigits2 m1 + e1) = e1 ->
  fexp (Zdigits2 (m1 + 1) + e1) = e1 \/
  (fexp (Zdigits2 (m1 + 1) + e1) = e1 + 1 /\
   m1 + 1 = 2 * ((m1 + 1) / 2) /\ 0 < (m1 + 1) / 2 /\
   Zdigits2 ((m1 + 1) / 2) = Zdigits2 (m1 + 1) - 1).
Proof.
  intros Hm1 Hc.
  destruct (Z.eq_dec m1 0) as [->|Hm0].
  { left. simpl in *. fexp_lia. }
  assert (Hpos : 0 < m1) by lia.
  rewrite (Zdigits2_log2 (m1 + 1)) by lia.
  rewrite (Zdigits2_log2 m1) in Hc by lia.
  destruct (Z.log2_succ_or m1) as [Hs|Hs]; unfold Z.succ in Hs; rewrite Hs.
  2:{ left. assumption. }
  destruct (Z.eq_dec (fexp (Z.log2 m1 + 1 + 1 + e1)) e1) as [E|E]; [left; exact E|].
  right.
  assert (Hpow : m1 + 1 = 2 ^ (Z.log2 m1 + 1)).
  { destruct (Z.log2_eq_succ_is_pow2 m1 Hs) as [b Hb].
    unfold Z.succ in Hb. rewrite Hb in Hs |- *.
    assert (0 <= b).
    { destruct (Z.lt_ge_cases b 0); [|assumption].
      rewrite Z.pow_neg_r in Hb by assumption. lia. }
    rewrite Z.log2_pow2 in Hs by assumption. f_equal. lia. }
  pose proof (Z.log2_nonneg m1) as Hl.
  assert (Hhalf : (m1 + 1) / 2 = 2 ^ Z.log2 m1).
  { rewrite Hpow. replace (Z.log2 m1 + 1) with (Z.succ (Z.log2 m1)) by lia.
    rewrite Z.pow_succ_r by assumption.
    rewrite Z.mul_comm, Z.div_mul by lia. reflexivity. }
  assert (0 < 2 ^ Z.log2 m1) by (apply Z.pow_pos_nonneg; lia).
  split; [fexp_lia|].
  split.
  { rewrite Hhalf, Hpow.
    replace (Z.log2 m1 + 1) with (Z.succ (Z.log2 m1)) by lia.
    rewrite Z.pow_succ_r by assumption. reflexivity. }
  split; [lia|].
  rewrite Hhalf, Zdigits2_log2 by assumption.
  rewrite Z.log2_pow2 by assumption. lia.
Qed.

Lemma shr_fexp_spec m e l :
  0 <= m -> e <= fexp (Zdigits2 m + e) ->
  let k := fexp (Zdigits2 m + e) - e in
  let '(mrs, e') := shr_fexp B64.prec B64.emax m e l in
  e' = e + k /\ shr_m mrs = m / 2 ^ k /\
  (l = loc_Exact -> (2 ^ k | m) -> loc_of_shr_record mrs = loc_Exact).
Proof.
  intros Hm He k. unfold shr_fexp. apply shr_spec; [assumption|unfold k; lia].
Qed.

Lemma canonical_iff m e : canonical m e <-> fexp (Zdigits2 (Zpos m) + e) = e.
Proof. unfold canonical, canonical_mantissa. rewrite Z.eqb_eq. reflexivity. Qed.

Lemma binary_round_aux_spec s m e l :
  0 <= m -> e <= fexp (Zdigits2 m + e) ->
  let k := fexp (Zdigits2 m + e) - e in
  exists m2,
    (m2 = m / 2 ^ k \/ m2 = m / 2 ^ k + 1) /\
    (l = loc_Exact -> (2 ^ k | m) -> m2 = m / 2 ^ k) /\
    ((m2 = 0 /\ binary_round_aux B64.prec B64.emax s m e l = S754_zero s) \/
     (exists m' e',
         Zpos m' * 2 ^ (e' - (e + k)) = m2 /\ e + k <= e' /\ canonical m' e' /\
         binary_round_aux B64.prec B64.emax s m e l =
           if e' <=? B64.emax - B64.prec
           then S754_finite s m' e' else S754_infinity s)).
Proof.
  intros Hm He k. unfold binary_round_aux.
  pose proof (shr_fexp_spec m e l Hm He) as H1. cbv zeta in H1. fold k in H1.
  destruct (shr_fexp _ _ m e l) as [mrs' e1]. destruct H1 as (-> & Hm1 & Hex).
  assert (Hk : 0 <= k) by (unfold k; lia).
  assert (Hp : 0 < 2 ^ k) by (apply Z.pow_pos_nonneg; lia).
  pose proof (fexp_canonical_shift m e Hm He) as Hcan1.
  cbv zeta in Hcan1. fold k in Hcan1. rewrite <- Hm1 in Hcan1.
  assert (Hm1' : 0 <= shr_m mrs') by (rewrite Hm1; apply Z.div_pos; lia).
  remember (round_nearest_even (shr_m mrs') (loc_of_shr_record mrs')) as m2 eqn:Em2.
  assert (Hm2 : m2 = shr_m mrs' \/ m2 = shr_m mrs' + 1)
    by (rewrite Em2; apply round_nearest_even_cases).
  assert (Hc2 : fexp (Zdigits2 m2 + (e + k)) = e + k \/
                (fexp (Zdigits2 m2 + (e + k)) = e + k + 1 /\
                 m2 = 2 * (m2 / 2) /\ 0 < m2 / 2 /\
                 Zdigits2 (m2 / 2) = Zdigits2 m2 - 1)).
  { destruct Hm2 as [E|E]; rewrite E; [left; exact Hcan1|].
    apply fexp_round_up; assumption. }
  assert (Hm2' : 0 <= m2) by lia.
  exists m2. split; [rewrite <- Hm1; exact Hm2|]. split.
  { intros Hl Hd. rewrite Em2, (Hex Hl Hd). simpl. exact Hm1. }
  pose proof (shr_fexp_spec m2 (e + k) loc_Exact Hm2') as H2. cbv zeta in H2.
  destruct (shr_fexp _ _ m2 (e + k) loc_Exact) as [mrs'' e2].
  destruct H2 as (-> & Hm'' & _); [destruct Hc2 as [->|[-> _]]; lia|].
  destruct (Z.eq_dec m2 0) as [E0|E0].
  { left. split; [assumption|]. rewrite Hm'', E0, Z.div_0_l; [reflexivity|].
    apply Z.pow_nonzero; [lia|]. simpl Zdigits2.
    destruct Hc2 as [Hc|[Hc _]]; rewrite E0 in Hc; simpl Zdigits2 in Hc; lia. }
  right. destruct Hc2 as [Hc|(Hc & Heven & Hhalf & Hd)]; rewrite Hc in *.
  - replace (e + k - (e + k)) with 0 in * by lia.
    rewrite Z.div_1_r in Hm''. rewrite Hm''.
    destruct m2 as [|p|p]; try lia.
    exists p, (e + k). rewrite Z.add_0_r, Z.sub_diag, Z.mul_1_r.
    split; [reflexivity|]. split; [lia|]. split; [|reflexivity].
    apply canonical_iff. exact Hc.
  - replace (e + k + 1 - (e + k)) with 1 in * by lia.
    change (2 ^ 1) with 2 in Hm''. rewrite Hm''.
    destruct (m2 / 2) as [|p|p] eqn:Ep; try lia.
    exists p, (e + k + 1).
    replace (e + k + 1 - (e + k)) with 1 by lia.
    split; [change (2 ^ 1) with 2; lia|]. split; [lia|]. split; [|reflexivity].
    apply canonical_iff. rewrite Hd.
    replace (Zdigits2 m2 - 1 + (e + k + 1)) with (Zdigits2 m2 + (e + k)) by lia.
    exact Hc.
Qed.

Lemma wf_finite_inv s m e :
  B64.wf (S754_finite s m e) ->
  canonical m e /\ -1074 <= e <= 971 /\ Zdigits2 (Zpos m) <= 53 /\
  (-1074 < e -> Zdigits2 (Zpos m) = 53).
Proof.
  unfold B64.wf. cbn [valid_binary]. unfold bounded. rewrite andb_true_iff, Z.leb_le.
  intros [Hc He]. split; [exact Hc|].
  apply canonical_iff in Hc.
  pose proof (Zdigits2_nonneg (Zpos m)). fexp_lia.
Qed.

Lemma pow2_pos k : 0 <= k -> 0 < 2 ^ k.
Proof. intros. apply Z.pow_pos_nonneg; lia. Qed.

Lemma canonical_scaled_bounds m e :
  canonical m e -> -1074 <= e ->
  2 ^ (Zdigits2 (Zpos m) + e + 1073) <= Zpos m * 2 ^ (e + 1074)
    < 2 ^ (Zdigits2 (Zpos m) + e + 1074).
Proof.
  intros _ He.
  pose proof (Zdigits2_bounds (Zpos m) ltac:(lia)) as [Hlo Hhi].
  assert (1 <= Zdigits2 (Zpos m)) by (simpl; lia).
  assert (Hp := pow2_pos (e + 1074) ltac:(lia)).
  replace (Zdigits2 (Zpos m) + e + 1073) with (Zdigits2 (Zpos m) - 1 + (e + 1074)) by lia.
  replace (Zdigits2 (Zpos m) + e + 1074) with (Zdigits2 (Zpos m) + (e + 1074)) by lia.
  rewrite (Z.pow_add_r 2 (Zdigits2 (Zpos m) - 1)) by lia.
  rewrite (Z.pow_add_r 2 (Zdigits2 (Zpos m))) by lia. split.
  - apply Z.mul_le_mono_nonneg_r; lia.
  - apply Zmult_lt_compat_r; lia.
Qed.

Lemma canonical_eq_digits m1 e1 m2 e2 :
  canonical m1 e1 -> canonical m2 e2 -> -1074 <= e1 -> -1074 <= e2 ->
  Zpos m1 * 2 ^ (e1 + 1074) = Zpos m2 * 2 ^ (e2 + 1074) ->
  e1 = e2 /\ m1 = m2.
Proof.
  intros C1 C2 H1 H2 E.
  assert (Hd : Zdigits2 (Zpos m1) + e1 = Zdigits2 (Zpos m2) + e2).
  { assert (Zdigits2 (Zpos m1 * 2 ^ (e1 + 1074)) = Zdigits2 (Zpos m2 * 2 ^ (e2 + 1074)))
      as Hd by (rewrite E; reflexivity).
    rewrite !Zdigits2_mul_pow2 in Hd by lia. lia. }
  apply canonical_iff in C1, C2. rewrite Hd in C1.
  assert (e1 = e2) by congruence. subst e2. split; [reflexivity|].
  apply Z.mul_cancel_r in E; [congruence|].
  pose proof (pow2_pos (e1 + 1074)). lia.
Qed.

Lemma scaled_inj x y :
  B64.wf x -> B64.wf y -> B64.is_finite x = true -> B64.is_finite y = true ->
  scaled x = scaled y -> scaled x <> 0 -> x = y.
Proof.
  intros Wx Wy Fx Fy E Hnz.
  destruct x as [| | |s1 m1 e1]; try discriminate; try (simpl in Hnz; lia).
  destruct y as [| | |s2 m2 e2]; try discriminate; try (simpl in *; lia).
  apply wf_finite_inv in Wx as (C1 & H1 & _), Wy as (C2 & H2 & _).
  simpl in E.
  assert (P1 := pow2_pos (e1 + 1074) ltac:(lia)).
  assert (P2 := pow2_pos (e2 + 1074) ltac:(lia)).
  assert (0 < Zpos m1 * 2 ^ (e1 + 1074)) by (apply Z.mul_pos_pos; lia).
  assert (0 < Zpos m2 * 2 ^ (e2 + 1074)) by (apply Z.mul_pos_pos; lia).
  assert (s1 = s2) by (destruct s1, s2; simpl in E; try reflexivity; lia).
  subst s2.
  assert (Zpos m1 * 2 ^ (e1 + 1074) = Zpos m2 * 2 ^ (e2 + 1074))
    by (destruct s1; simpl in E; lia).
  destruct (canonical_eq_digits m1 e1 m2 e2) as [-> ->]; auto; lia.
Qed.

Lemma canonical_lt_exp m1 e1 m2 e2 :
  B64.wf (S754_finite false m1 e1) -> B64.wf (S754_finite false m2 e2) ->
  e1 < e2 -> Zpos m1 * 2 ^ (e1 + 1074) < Zpos m2 * 2 ^ (e2 + 1074).
Proof.
  intros W1 W2 Hlt.
  apply wf_finite_inv in W1 as (C1 & H1 & D1 & _), W2 as (C2 & H2 & _ & D2).
  rewrite <- (D2 ltac:(lia)) in D1.
  pose proof (canonical_scaled_bounds m1 e1 C1 ltac:(lia)) as [_ B1].
  pose proof (canonical_scaled_bounds m2 e2 C2 ltac:(lia)) as [B2 _].
  eapply Z.lt_le_trans; [exact B1|]. eapply Z.le_trans; [|exact B2].
  apply Z.pow_le_mono_r; lia.
Qed.

Lemma compare_scaled x y :
  B64.wf x -> B64.wf y -> B64.is_nan x = false -> B64.is_nan y = false ->
  SFcompare x y = Some (scaled x ?= scaled y).
Proof.
  intros Wx Wy Nx Ny.
  assert (Hfin : forall s m e, B64.wf (S754_finite s m e) ->
             0 < Zpos m * 2 ^ (e + 1074) < 2 ^ 2098).
  { intros s m e W. apply wf_finite_inv in W as (C & H & D & _).
    pose proof (canonical_scaled_bounds m e C ltac:(lia)) as [_ B].
    assert (P := pow2_pos (e + 1074) ltac:(lia)).
    split; [apply Z.mul_pos_pos; lia|].
    eapply Z.lt_le_trans; [exact B|]. apply Z.pow_le_mono_r; lia. }
  assert (P : 0 < 2 ^ 2098) by (apply pow2_pos; lia).
  destruct x as [sx|sx| |sx mx ex]; try discriminate;
    destruct y as [sy|sy| |sy my ey]; try discriminate;
    try pose proof (Hfin _ _ _ Wx) as Bx; try pose proof (Hfin _ _ _ Wy) as By;
    cbn [SFcompare scaled]; f_equal; symmetry;
    try (destruct sx, sy; cbn [cond_Zopp];
         first [ reflexivity
               | apply Z.compare_lt_iff; lia
               | apply Z.compare_gt_iff; lia
               | apply Z.compare_eq_iff; lia ]).
  assert (Wx' : B64.wf (S754_finite false mx ex)) by exact Wx.
  assert (Wy' : B64.wf (S754_finite false my ey)) by exact Wy.
  assert (Hcore :
    match ex ?= ey with
    | Lt => Lt | Gt => Gt | Eq => Pos.compare_cont Eq mx my
    end = (Zpos mx * 2 ^ (ex + 1074) ?= Zpos my * 2 ^ (ey + 1074))).
  { symmetry. destruct (ex ?= ey) eqn:Ec.
    - apply Z.compare_eq in Ec. subst ey.
      apply wf_finite_inv in Wx as (_ & ? & _).
      rewrite <- Zmult_compare_compat_r by (apply Z.lt_gt, pow2_pos; lia).
      reflexivity.
    - apply Z.compare_lt_iff. apply Z.compare_lt_iff in Ec.
      apply canonical_lt_exp; assumption.
    - apply Z.compare_gt_iff. apply Z.compare_gt_iff in Ec.
      apply canonical_lt_exp; assumption. }
  destruct sx, sy; cbn [cond_Zopp].
  - rewrite Z.compare_opp, Z.compare_antisym, <- Hcore.
    destruct (ex ?= ey); reflexivity.
  - apply Z.compare_lt_iff. lia.
  - apply Z.compare_gt_iff. lia.
  - symmetry. exact Hcore.
Qed.

Lemma to_Z_scaled x N :
  B64.wf x -> B64.is_finite x = true ->
  (B64.to_Z x = Some N <-> scaled x = N * 2 ^ 1074).
Proof.
  intros W F. assert (S : 0 < 2 ^ 1074) by (apply pow2_pos; lia).
  destruct x as [s| | |s m e]; try discriminate.
  { simpl. split; [intros [= <-]; reflexivity|]. intros H. f_equal. lia. }
  apply wf_finite_inv in W as (_ & He & _).
  cbn [B64.to_Z scaled].
  destruct (Z.leb_spec 0 e) as [H0|H0].
  - rewrite Z.pow_add_r by lia. split.
    + intros [= <-]. destruct s; simpl; lia.
    + intros H. f_equal.
      apply (Z.mul_cancel_r _ _ (2 ^ 1074)); [lia|].
      rewrite <- H. destruct s; simpl; lia.
  - assert (P : 0 < 2 ^ (- e)) by (apply pow2_pos; lia).
    assert (E : 2 ^ 1074 = 2 ^ (e + 1074) * 2 ^ (- e)).
    { rewrite <- Z.pow_add_r by lia. f_equal. lia. }
    assert (P' : 0 < 2 ^ (e + 1074)) by (apply pow2_pos; lia).
    destruct (Z.eqb_spec (Zpos m mod 2 ^ (- e)) 0) as [Hd|Hd].
    + pose proof (Z.div_mod (Zpos m) (2 ^ (- e)) ltac:(lia)) as Hdm.
      rewrite Hd, Z.add_0_r in Hdm.
      assert (Hv : Zpos m * 2 ^ (e + 1074) = Zpos m / 2 ^ (- e) * 2 ^ 1074).
      { rewrite E. rewrite Hdm at 1. ring. }
      split.
      * intros [= <-]. destruct s; simpl; lia.
      * intros H. f_equal. apply (Z.mul_cancel_r _ _ (2 ^ 1074)); [lia|].
        rewrite <- H. destruct s; simpl; lia.
    + split; [discriminate|]. intros H. exfalso. apply Hd.
      assert (Zpos m = Z.abs N * 2 ^ (- e)) as ->.
      { apply (Z.mul_cancel_r _ _ (2 ^ (e + 1074))); [lia|].
        rewrite <- Z.mul_assoc, (Z.mul_comm (2 ^ (- e))), <- E.
        destruct s; simpl in H; lia. }
      apply Z.mod_mul. lia.
Qed.

Lemma shl_align_spec mx ex ex' :
  let '(m', e') := shl_align mx ex ex' in
  e' = Z.min ex ex' /\ Zpos m' = Zpos mx * 2 ^ (ex - e').
Proof.
  unfold shl_align. destruct (ex' - ex) as [|d|d] eqn:E.
  - split; [lia|]. rewrite Z.sub_diag. simpl. lia.
  - split; [lia|]. rewrite Z.sub_diag. simpl. lia.
  - split; [lia|]. change (Pos.iter xO mx d) with (shift_pos d mx).
    rewrite shift_pos_correct, Zpower_pos_nat, Zpower_nat_Z, positive_nat_Z.
    replace (ex - ex') with (Zpos d) by lia. ring.
Qed.

Lemma binary_round_prepare s mx ex :
  -1074 <= ex ->
  exists mz ez,
    binary_round B64.prec B64.emax s mx ex
    = binary_round_aux B64.prec B64.emax s (Zpos mz) ez loc_Exact /\
    -1074 <= ez /\
    Zpos mz * 2 ^ (ez + 1074) = Zpos mx * 2 ^ (ex + 1074) /\
    Zdigits2 (Zpos mz) + ez = Zdigits2 (Zpos mx) + ex /\
    ez <= fexp (Zdigits2 (Zpos mz) + ez) /\
    fexp (Zdigits2 (Zpos mz) + ez) - ez < Zdigits2 (Zpos mz).
Proof.
  intros He. unfold binary_round.
  change (SpecFloat.fexp B64.prec B64.emax (Zpos (digits2_pos mx) + ex))
    with (fexp (Zdigits2 (Zpos mx) + ex)).
  pose proof (shl_align_spec mx ex (fexp (Zdigits2 (Zpos mx) + ex))) as H.
  destruct (shl_align mx ex _) as [mz ez]. destruct H as [Hez Hmz].
  exists mz, ez. split; [reflexivity|].
  assert (Hd : Zdigits2 (Zpos mz) + ez = Zdigits2 (Zpos mx) + ex).
  { rewrite Hmz, Zdigits2_mul_pow2 by lia. lia. }
  assert (1 <= Zdigits2 (Zpos mx)) by (simpl; lia).
  assert (-1074 <= ez) by fexp_lia.
  split; [assumption|]. split.
  { rewrite Hmz, <- Z.mul_assoc, <- Z.pow_add_r by lia. do 2 f_equal. lia. }
  split; [exact Hd|]. rewrite Hd. split; [lia|]. fexp_lia.
Qed.

Lemma binary_round_shape s mx ex :
  -1074 <= ex ->
  binary_round B64.prec B64.emax s mx ex = S754_infinity s \/
  exists m' e', binary_round B64.prec B64.emax s mx ex = S754_finite s m' e'.
Proof.
  intros He.
  destruct (binary_round_prepare s mx ex He) as (mz & ez & -> & Hez & _ & _ & Hle & Hlt).
  destruct (binary_round_aux_spec s (Zpos mz) ez loc_Exact ltac:(lia) Hle)
    as (m2 & Hm2 & _ & [[H0 _]|(m' & e' & _ & _ & _ & ->)]).
  - exfalso.
    set (k := fexp (Zdigits2 (Zpos mz) + ez) - ez) in *.
    assert (0 <= k) by (unfold k; lia).
    assert (1 <= Zpos mz / 2 ^ k); [|lia].
    apply Z.div_le_lower_bound; [apply pow2_pos; lia|].
    pose proof (Zdigits2_bounds (Zpos mz) ltac:(lia)) as [Hlo _].
    rewrite Z.mul_1_r. eapply Z.le_trans; [|exact Hlo].
    apply Z.pow_le_mono_r; lia.
  - destruct (e' <=? _); eauto.
Qed.

Lemma canonical_overflow m e V :
  canonical m e -> -1074 <= e ->
  Zpos m * 2 ^ (e + 1074) = V -> V < 2 ^ 2098 -> e <= 971.
Proof.
  intros C He E HV.
  pose proof (canonical_scaled_bounds m e C He) as [Hlo _].
  rewrite E in Hlo.
  destruct (Z.le_gt_cases e 971) as [|Hgt]; [assumption|exfalso].
  apply canonical_iff in C.
  assert (Zdigits2 (Zpos m) = 53) by fexp_lia.
  assert (2 ^ 2098 <= 2 ^ (Zdigits2 (Zpos m) + e + 1073))
    by (apply Z.pow_le_mono_r; lia).
  lia.
Qed.

Lemma binary_round_exact s mx ex :
  -1074 <= ex ->
  let V := Zpos mx * 2 ^ (ex + 1074) in
  (grid V | V) -> V < 2 ^ 2098 ->
  exists m' e',
    binary_round B64.prec B64.emax s mx ex = S754_finite s m' e' /\
    B64.wf (S754_finite s m' e') /\
    Zpos m' * 2 ^ (e' + 1074) = V.
Proof.
  intros He V Hg HV.
  destruct (binary_round_prepare s mx ex He)
    as (mz & ez & -> & Hez & Hval & Hd & Hle & Hlt).
  destruct (binary_round_aux_spec s (Zpos mz) ez loc_Exact ltac:(lia) Hle)
    as (m2 & _ & Hex & Hres).
  set (k := fexp (Zdigits2 (Zpos mz) + ez) - ez) in *.
  assert (Hk : 0 <= k) by (unfold k; lia).
  assert (Pk := pow2_pos k Hk).
  assert (Pz := pow2_pos (ez + 1074) ltac:(lia)).
  assert (HdV : Zdigits2 V - 1074 = Zdigits2 (Zpos mz) + ez).
  { unfold V. rewrite <- Hval, Zdigits2_mul_pow2 by lia. lia. }
  assert (Hgrid : grid V = 2 ^ k * 2 ^ (ez + 1074)).
  { unfold grid. rewrite HdV, <- Z.pow_add_r by lia. f_equal. unfold k. lia. }
  assert (Hdiv : (2 ^ k | Zpos mz)).
  { rewrite Hgrid in Hg. unfold V in Hg. rewrite <- Hval in Hg.
    apply Z.mul_divide_cancel_r in Hg; [assumption|lia]. }
  specialize (Hex eq_refl Hdiv). subst m2.
  destruct Hdiv as [c Hc].
  assert (Hq : Zpos mz / 2 ^ k = c) by (rewrite Hc; apply Z.div_mul; lia).
  rewrite Hq in Hres.
  destruct Hres as [[H0 _]|(m' & e' & Hm' & He' & Hcan & ->)]; [lia|].
  assert (Hv' : Zpos m' * 2 ^ (e' + 1074) = V).
  { unfold V. rewrite <- Hval, Hc, <- Hm'.
    rewrite <- !Z.mul_assoc, <- !Z.pow_add_r by lia. do 2 f_equal. lia. }
  assert (e' <= 971) by (eapply canonical_overflow; eauto; lia).
  exists m', e'.
  destruct (Z.leb_spec e' (B64.emax - B64.prec)) as [_|Hgt];
    [|unfold B64.emax, B64.prec in Hgt; lia].
  split; [reflexivity|]. split; [|exact Hv'].
  unfold B64.wf. cbn [valid_binary]. unfold bounded.
  apply andb_true_iff. split; [exact Hcan|apply Z.leb_le].
  unfold B64.emax, B64.prec. lia.
Qed.

Lemma binary_normalize_shape M e sz :
  -1074 <= e -> M <> 0 ->
  binary_normalize B64.prec B64.emax M e sz = S754_infinity (M <? 0) \/
  exists m' e',
    binary_normalize B64.prec B64.emax M e sz = S754_finite (M <? 0) m' e'.
Proof.
  intros He HM. destruct M as [|p|p]; [lia| |];
    apply binary_round_shape; assumption.
Qed.

Lemma binary_normalize_exact M e sz :
  -1074 <= e ->
  let V := Z.abs M * 2 ^ (e + 1074) in
  (grid V | V) -> V < 2 ^ 2098 ->
  let y := binary_normalize B64.prec B64.emax M e sz in
  B64.wf y /\ B64.is_finite y = true /\ scaled y = M * 2 ^ (e + 1074).
Proof.
  intros He V Hg HV y. unfold y, V in *. clear y V.
  destruct M as [|p|p]; cbn [binary_normalize Z.abs] in *.
  - repeat split.
  - destruct (binary_round_exact false p e He Hg HV) as (m' & e' & -> & W & Hv).
    repeat split; [exact W|]. simpl. exact Hv.
  - destruct (binary_round_exact true p e He Hg HV) as (m' & e' & -> & W & Hv).
    repeat split; [exact W|]. cbn [scaled cond_Zopp]. rewrite Hv. lia.
Qed.

Lemma int_representable N :
  Z.abs N <= 2 ^ 53 -> (grid (Z.abs N * 2 ^ 1074) | Z.abs N * 2 ^ 1074).
Proof.
  intros HN. destruct (Z.eq_dec N 0) as [->|Hnz].
  { simpl. exists 0. reflexivity. }
  set (A := Z.abs N) in *. assert (HA : 0 < A) by (unfold A; lia).
  unfold grid. rewrite Zdigits2_mul_pow2 by lia.
  replace (Zdigits2 A + 1074 - 1074) with (Zdigits2 A) by lia.
  pose proof (Zdigits2_bounds A HA) as [Hlo Hhi].
  assert (1 <= Zdigits2 A).
  { pose proof (Zdigits2_nonneg A). destruct (Z.eq_dec (Zdigits2 A) 0) as [E|]; [|lia].
    rewrite E in Hhi. simpl in Hhi. lia. }
  assert (Hd : Zdigits2 A <= 54).
  { destruct (Z.le_gt_cases (Zdigits2 A) 54); [assumption|exfalso].
    assert (2 ^ 54 <= 2 ^ (Zdigits2 A - 1)) by (apply Z.pow_le_mono_r; lia).
    assert (2 ^ 53 < 2 ^ 54) by (apply Z.pow_lt_mono_r; lia). lia. }
  assert (Hf : fexp (Zdigits2 A) = Zdigits2 A - 53) by fexp_lia.
  rewrite Hf.
  destruct (Z.eq_dec (Zdigits2 A) 54) as [E54|].
  - rewrite E54 in *. assert (A = 2 ^ 53) as -> by (simpl in Hlo; lia).
    exists (2 ^ 52). rewrite <- !Z.pow_add_r by lia. reflexivity.
  - exists (A * 2 ^ (53 - Zdigits2 A)).
    rewrite <- Z.mul_assoc, <- Z.pow_add_r by lia. do 2 f_equal. lia.
Qed.

Lemma int_float_finite x N : int_float x N -> B64.is_finite x = true.
Proof. intros [_ H]. destruct x; try discriminate; reflexivity. Qed.

Lemma int_float_scaled x N : int_float x N -> scaled x = N * 2 ^ 1074.
Proof.
  intros H. pose proof (int_float_finite x N H). destruct H as [W H].
  apply to_Z_scaled; assumption.
Qed.

Lemma int_float_intro x N :
  B64.wf x -> B64.is_finite x = true -> scaled x = N * 2 ^ 1074 -> int_float x N.
Proof. intros W F H. split; [exact W|]. apply to_Z_scaled; assumption. Qed.

Lemma int_float_unique x y N :
  int_float x N -> int_float y N -> N <> 0 -> x = y.
Proof.
  intros Hx Hy HN.
  pose proof (int_float_scaled _ _ Hx) as Sx.
  pose proof (int_float_scaled _ _ Hy) as Sy.
  assert (0 < 2 ^ 1074) by (apply pow2_pos; lia).
  apply scaled_inj; try (eapply int_float_finite; eassumption);
    [apply Hx|apply Hy|congruence|rewrite Sx; nia].
Qed.

Lemma int_float_zero x : int_float x 0 -> is_zero x.
Proof.
  intros H. pose proof (int_float_scaled _ _ H) as S.
  pose proof (int_float_finite _ _ H) as F. destruct H as [W _].
  destruct x as [s| | |s m e]; try discriminate; [exists s; reflexivity|].
  exfalso. apply wf_finite_inv in W as (_ & He & _).
  assert (0 < Zpos m * 2 ^ (e + 1074))
    by (apply Z.mul_pos_pos; [lia|apply pow2_pos; lia]).
  destruct s; simpl in S; lia.
Qed.

Lemma int_float_compare x y X Y :
  int_float x X -> int_float y Y -> SFcompare x y = Some (X ?= Y).
Proof.
  intros Hx Hy.
  rewrite compare_scaled; try apply Hx; try apply Hy.
  - rewrite (int_float_scaled _ _ Hx), (int_float_scaled _ _ Hy).
    rewrite <- Zmult_compare_compat_r by (apply Z.lt_gt, pow2_pos; lia).
    reflexivity.
  - apply int_float_finite in Hx. destruct x; try discriminate; reflexivity.
  - apply int_float_finite in Hy. destruct y; try discriminate; reflexivity.
Qed.

Lemma shl_align_fst mx ex ez :
  ez <= ex -> Zpos (fst (shl_align mx ex ez)) = Zpos mx * 2 ^ (ex - ez).
Proof.
  intros H. pose proof (shl_align_spec mx ex ez) as S.
  destruct (shl_align mx ex ez) as [m' e']. destruct S as [E1 E2].
  cbn [fst]. rewrite E2, E1. do 2 f_equal. lia.
Qed.

Lemma aligned_scaled s mx ex ez :
  -1074 <= ez -> ez <= ex ->
  cond_Zopp s (Zpos (fst (shl_align mx ex ez))) * 2 ^ (ez + 1074)
  = scaled (S754_finite s mx ex).
Proof.
  intros H1 H2. rewrite shl_align_fst by assumption. cbn [scaled].
  assert (E : 2 ^ (ex + 1074) = 2 ^ (ex - ez) * 2 ^ (ez + 1074)).
  { rewrite <- Z.pow_add_r by lia. f_equal. lia. }
  rewrite E. destruct s; simpl; ring.
Qed.

(** Addition is exact whenever the exact sum is a binary64 number. *)
Lemma add_exact x y :
  B64.wf x -> B64.wf y -> B64.is_finite x = true -> B64.is_finite y = true ->
  let V := Z.abs (scaled x + scaled y) in
  (grid V | V) -> V < 2 ^ 2098 ->
  B64.wf (B64.add x y) /\ B64.is_finite (B64.add x y) = true /\
  scaled (B64.add x y) = scaled x + scaled y.
Proof.
  intros Wx Wy Fx Fy V Hg HV.
  destruct x as [sx| | |sx mx ex]; try discriminate;
    destruct y as [sy| | |sy my ey]; try discriminate.
  - destruct sx, sy; repeat split.
  - unfold B64.add. cbn [SFadd]. repeat split. exact Wy.
  - unfold B64.add. cbn [SFadd]. repeat split; [exact Wx|].
    cbn [scaled]. lia.
  - unfold B64.add, SFadd.
    pose proof Wx as Wx'. pose proof Wy as Wy'.
    apply wf_finite_inv in Wx' as (_ & Hex & _), Wy' as (_ & Hey & _).
    set (ez := Z.min ex ey).
    set (M := cond_Zopp sx (Zpos (fst (shl_align mx ex ez))) +
              cond_Zopp sy (Zpos (fst (shl_align my ey ez)))).
    assert (HM : M * 2 ^ (ez + 1074)
                 = scaled (S754_finite sx mx ex) + scaled (S754_finite sy my ey)).
    { unfold M. rewrite Z.mul_add_distr_r, !aligned_scaled by (unfold ez; lia).
      reflexivity. }
    assert (HV' : Z.abs M * 2 ^ (ez + 1074) = V).
    { unfold V. rewrite <- HM, Z.abs_mul. f_equal.
      symmetry. apply Z.abs_eq, Z.lt_le_incl, pow2_pos. unfold ez. lia. }
    pose proof (binary_normalize_exact M ez false ltac:(unfold ez; lia)) as H.
    cbv zeta in H. rewrite HV' in H. specialize (H Hg HV).
    rewrite HM in H. exact H.
Qed.

Lemma int_float_add x y X Y :
  int_float x X -> int_float y Y -> Z.abs (X + Y) <= 2 ^ 53 ->
  int_float (B64.add x y) (X + Y).
Proof.
  intros Hx Hy Hb.
  pose proof (int_float_scaled _ _ Hx) as Sx.
  pose proof (int_float_scaled _ _ Hy) as Sy.
  pose proof (int_float_finite _ _ Hx) as Fx.
  pose proof (int_float_finite _ _ Hy) as Fy.
  assert (S : 0 < 2 ^ 1074) by (apply pow2_pos; lia).
  assert (E : Z.abs (scaled x + scaled y) = Z.abs (X + Y) * 2 ^ 1074).
  { rewrite Sx, Sy, <- Z.mul_add_distr_r, Z.abs_mul.
    rewrite (Z.abs_eq (2 ^ 1074)) by lia. reflexivity. }
  destruct (add_exact x y) as (W & F & Sc); try assumption;
    try apply Hx; try apply Hy.
  - rewrite E. apply int_representable. exact Hb.
  - rewrite E.
    assert (2 ^ 53 * 2 ^ 1074 < 2 ^ 2098)
      by (rewrite <- Z.pow_add_r by lia; apply Z.pow_lt_mono_r; lia).
    nia.
  - apply int_float_intro; try assumption. rewrite Sc, Sx, Sy. ring.
Qed.

(** The sign of a difference decides the order of its operands. *)
Lemma sub_sign x y :
  B64.wf x -> B64.wf y -> B64.is_nan x = false -> B64.is_nan y = false ->
  B64.ltb (B64.of_Z 0) (B64.sub x y) = B64.ltb y x.
Proof.
  intros Wx Wy Nx Ny.
  destruct x as [sx|sx| |sx mx ex]; try discriminate;
    destruct y as [sy|sy| |sy my ey]; try discriminate;
    try (destruct sx, sy; reflexivity).
  unfold B64.ltb at 2. unfold SFltb. rewrite compare_scaled by assumption.
  unfold B64.sub, SFsub.
  pose proof Wx as Wx'. pose proof Wy as Wy'.
  apply wf_finite_inv in Wx' as (_ & Hex & _), Wy' as (_ & Hey & _).
  set (ez := Z.min ex ey).
  set (M := cond_Zopp sx (Zpos (fst (shl_align mx ex ez))) -
            cond_Zopp sy (Zpos (fst (shl_align my ey ez)))).
  assert (P : 0 < 2 ^ (ez + 1074)) by (apply pow2_pos; unfold ez; lia).
  assert (HM : M * 2 ^ (ez + 1074)
               = scaled (S754_finite sx mx ex) - scaled (S754_finite sy my ey)).
  { unfold M. rewrite Z.mul_sub_distr_r, !aligned_scaled by (unfold ez; lia).
    reflexivity. }
  destruct (Z.compare_spec (scaled (S754_finite sy my ey))
                           (scaled (S754_finite sx mx ex))) as [E|E|E].
  - assert (M = 0) as -> by nia. reflexivity.
  - assert (0 < M) by nia.
    destruct (binary_normalize_shape M ez false) as [->|(m' & e' & ->)];
      try (unfold ez; lia);
      replace (M <? 0) with false by (symmetry; apply Z.ltb_ge; lia);
      reflexivity.
  - assert (M < 0) by nia.
    destruct (binary_normalize_shape M ez false) as [->|(m' & e' & ->)];
      try (unfold ez; lia);
      replace (M <? 0) with true by (symmetry; apply Z.ltb_lt; lia);
      reflexivity.
Qed.

Lemma abs_aligned_scaled s mx ex ez :
  -1074 <= ez -> ez <= ex ->
  Zpos (fst (shl_align mx ex ez)) * 2 ^ (ez + 1074)
  = Z.abs (scaled (S754_finite s mx ex)).
Proof.
  intros H1 H2. rewrite <- (aligned_scaled s mx ex ez H1 H2).
  assert (0 < 2 ^ (ez + 1074)) by (apply pow2_pos; lia).
  destruct s; cbn [cond_Zopp]; lia.
Qed.

(** [n % d === 0] holds exactly when [d] divides [n]. *)
Lemma rem_eqb_zero sn mn en sd md ed :
  B64.wf (S754_finite sn mn en) -> B64.wf (S754_finite sd md ed) ->
  B64.eqb (B64.rem (S754_finite sn mn en) (S754_finite sd md ed)) (B64.of_Z 0) = true
  <-> (scaled (S754_finite sd md ed) | scaled (S754_finite sn mn en)).
Proof.
  intros Wn Wd.
  pose proof Wn as Wn'. pose proof Wd as Wd'.
  apply wf_finite_inv in Wn' as (_ & Hen & _), Wd' as (_ & Hed & _).
  unfold B64.rem.
  set (e := Z.min en ed).
  set (Mn := Zpos (fst (shl_align mn en e))).
  set (Md := Zpos (fst (shl_align md ed e))).
  assert (P : 0 < 2 ^ (e + 1074)) by (apply pow2_pos; unfold e; lia).
  assert (Hn : Mn * 2 ^ (e + 1074) = Z.abs (scaled (S754_finite sn mn en)))
    by (apply abs_aligned_scaled; unfold e; lia).
  assert (Hd : Md * 2 ^ (e + 1074) = Z.abs (scaled (S754_finite sd md ed)))
    by (apply abs_aligned_scaled; unfold e; lia).
  rewrite <- Z.divide_abs_l, <- Z.divide_abs_r, <- Hn, <- Hd.
  rewrite Z.mul_divide_cancel_r by lia.
  rewrite <- (Z.rem_divide Mn Md) by (unfold Md; lia).
  destruct (Z.eq_dec (Z.rem Mn Md) 0) as [E|E].
  - rewrite E. destruct sn; split; auto.
  - split; [|intros; contradiction].
    assert (Hnz : cond_Zopp sn (Z.rem Mn Md) <> 0) by (destruct sn; simpl; lia).
    destruct (binary_normalize_shape (cond_Zopp sn (Z.rem Mn Md)) e sn)
      as [->|(m' & e' & ->)]; try assumption; try (unfold e; lia);
      destruct (_ <? 0); discriminate.
Qed.

Lemma int_float_pos_inv x N :
  int_float x N -> 0 < N ->
  exists m e, x = S754_finite false m e /\ Zpos m * 2 ^ (e + 1074) = N * 2 ^ 1074.
Proof.
  intros H HN. pose proof (int_float_scaled _ _ H) as S.
  pose proof (int_float_finite _ _ H) as F. destruct H as [W _].
  assert (P : 0 < 2 ^ 1074) by (apply pow2_pos; lia).
  destruct x as [s| | |s m e]; try discriminate.
  { simpl in S. nia. }
  apply wf_finite_inv in W as (_ & He & _).
  assert (0 < Zpos m * 2 ^ (e + 1074))
    by (apply Z.mul_pos_pos; [lia|apply pow2_pos; lia]).
  exists m, e. destruct s; cbn [scaled cond_Zopp] in S; [nia|].
  split; [reflexivity|exact S].
Qed.

Lemma int_float_rem_zero n d N I :
  int_float n N -> int_float d I -> I <> 0 ->
  (B64.eqb (B64.rem n d) (B64.of_Z 0) = true <-> (I | N)).
Proof.
  intros Hn Hd HI.
  pose proof (int_float_scaled _ _ Hn) as Sn.
  pose proof (int_float_scaled _ _ Hd) as Sd.
  pose proof (int_float_finite _ _ Hn) as Fn.
  pose proof (int_float_finite _ _ Hd) as Fd.
  assert (P : 0 < 2 ^ 1074) by (apply pow2_pos; lia).
  destruct d as [sd| | |sd md ed]; try discriminate.
  { simpl in Sd. nia. }
  destruct n as [sn| | |sn mn en]; try discriminate.
  { simpl in Sn. assert (N = 0) as -> by nia.
    split; [intros _; apply Z.divide_0_r|intros _; destruct sn; reflexivity]. }
  rewrite rem_eqb_zero by (apply Hn || apply Hd).
  rewrite Sn, Sd. apply Z.mul_divide_cancel_r. lia.
Qed.

(** *** Square roots *)

Lemma sq_le a b : 0 <= a <= b -> a * a <= b * b.
Proof. intros [H1 H2]. apply Z.mul_le_mono_nonneg; lia. Qed.

Lemma sqrt_below q N T :
  0 <= q -> 3 <= N -> 2 <= T -> q * q <= N * (T * T) -> q + 1 < N * T.
Proof.
  intros Hq HN HT Hsq.
  destruct (Z.lt_ge_cases (q + 1) (N * T)) as [|Hge]; [assumption|exfalso].
  assert (H1 : 0 <= N * T - 1 <= q) by nia.
  apply sq_le in H1. nia.
Qed.

Lemma scale_sq_le I N T :
  0 <= I -> I * I <= N -> 0 <= T -> (I * T) * (I * T) <= N * (T * T).
Proof.
  intros HI H HT. replace (I * T * (I * T)) with (I * I * (T * T)) by ring.
  apply Z.mul_le_mono_nonneg_r; [|assumption]. apply Z.mul_nonneg_nonneg; lia.
Qed.

Lemma floor_sq_bounds q P m :
  0 <= q -> 0 < P -> q * q <= m < (q + 1) * (q + 1) ->
  (q / P * P) * (q / P * P) <= m /\ m < ((q / P + 1) * P) * ((q / P + 1) * P).
Proof.
  intros Hq HP [Hlo Hhi].
  pose proof (Z.div_mod q P ltac:(lia)) as Hdm.
  pose proof (Z.mod_pos_bound q P HP) as Hmod.
  assert (Hq0 : 0 <= q / P) by (apply Z.div_pos; lia).
  assert (H1 : 0 <= q / P * P <= q) by (split; [apply Z.mul_nonneg_nonneg; lia|lia]).
  assert (H2 : 0 <= q + 1 <= (q / P + 1) * P) by lia.
  apply sq_le in H1, H2. lia.
Qed.

Lemma sqrt_pow2_bounds a j :
  0 <= j -> 2 ^ (2 * j) <= a < 2 ^ (2 * j + 2) -> 2 ^ j <= Z.sqrt a < 2 ^ (j + 1).
Proof.
  intros Hj [Hlo Hhi].
  assert (P := pow2_pos j Hj). assert (P' := pow2_pos (j + 1) ltac:(lia)).
  split.
  - apply Z.sqrt_le_square; try lia.
    rewrite <- Z.pow_add_r by lia. replace (j + j) with (2 * j) by lia. exact Hlo.
  - apply Z.sqrt_lt_square; try lia.
    rewrite <- Z.pow_add_r by lia. replace (j + 1 + (j + 1)) with (2 * j + 2) by lia.
    exact Hhi.
Qed.

Lemma sqrt_finite_unfold mx ex :
  B64.sqrt (S754_finite false mx ex) =
  let e' := Z.min (fexp (Z.div2 (Zdigits2 (Zpos mx) + ex + 1))) (Z.div2 ex) in
  let m' := match ex - 2 * e' with
            | Zpos _ => Z.shiftl (Zpos mx) (ex - 2 * e')
            | Z0 => Zpos mx
            | Zneg _ => 0
            end in
  let '(q, r) := Z.sqrtrem m' in
  binary_round_aux B64.prec B64.emax false q e'
    (if r =? 0 then loc_Exact else loc_Inexact (if r <=? q then Lt else Gt)).
Proof.
  unfold B64.sqrt, SFsqrt, SFsqrt_core_binary. cbv zeta.
  change IntDef.Z.sqrtrem with Z.sqrtrem.
  destruct (Z.sqrtrem _) as [q r]. reflexivity.
Qed.

Lemma sqrt_bracket n N :
  int_float n N -> 3 <= N < 2 ^ 53 ->
  B64.wf (B64.sqrt n) /\ B64.is_finite (B64.sqrt n) = true /\
  (forall I, 0 <= I -> I * I <= N -> I * 2 ^ 1074 <= scaled (B64.sqrt n)) /\
  scaled (B64.sqrt n) < N * 2 ^ 1074.
Proof.
  intros Hn HN.
  destruct (int_float_pos_inv n N Hn ltac:(lia)) as (mx & ex & -> & Hval).
  destruct Hn as [W _].
  apply wf_finite_inv in W as (C & Hex & Hd53 & Hnorm).
  pose proof (Zdigits2_bounds N ltac:(lia)) as [Nlo Nhi].
  assert (HD : Zdigits2 (Zpos mx) + ex = Zdigits2 N).
  { assert (E : Zdigits2 (Zpos mx * 2 ^ (ex + 1074)) = Zdigits2 (N * 2 ^ 1074))
      by (rewrite Hval; reflexivity).
    rewrite !Zdigits2_mul_pow2 in E by lia. lia. }
  assert (HDlo : 2 <= Zdigits2 N).
  { destruct (Z.le_gt_cases 2 (Zdigits2 N)); [assumption|exfalso].
    assert (2 ^ Zdigits2 N <= 2 ^ 1) by (apply Z.pow_le_mono_r; lia).
    change (2 ^ 1) with 2 in *. lia. }
  assert (HDhi : Zdigits2 N <= 53).
  { destruct (Z.le_gt_cases (Zdigits2 N) 53); [assumption|exfalso].
    assert (2 ^ 53 <= 2 ^ (Zdigits2 N - 1)) by (apply Z.pow_le_mono_r; lia).
    lia. }
  apply canonical_iff in C. rewrite HD in C.
  assert (Eex : ex = Zdigits2 N - 53) by fexp_lia.
  assert (Ed : Zdigits2 (Zpos mx) = 53) by lia.
  set (h := Z.div2 (Zdigits2 N + 1)).
  assert (Hh : 2 * h <= Zdigits2 N + 1 <= 2 * h + 1).
  { unfold h. rewrite Z.div2_div.
    pose proof (Z.div_mod (Zdigits2 N + 1) 2 ltac:(lia)).
    pose proof (Z.mod_pos_bound (Zdigits2 N + 1) 2 ltac:(lia)). lia. }
  set (e' := h - 53).
  assert (T : 0 < 2 ^ (- e')) by (apply pow2_pos; unfold e'; lia).
  assert (T2 : 2 <= 2 ^ (- e')).
  { change 2 with (2 ^ 1) at 1. apply Z.pow_le_mono_r; unfold e'; lia. }
  assert (ET : 2 ^ (- e') * 2 ^ (e' + 1074) = 2 ^ 1074).
  { rewrite <- Z.pow_add_r by (unfold e'; lia). f_equal. lia. }
  assert (S : 0 < 2 ^ 1074) by (apply pow2_pos; lia).
  rewrite sqrt_finite_unfold. cbv zeta.
  replace (Z.min (fexp (Z.div2 (Zdigits2 (Zpos mx) + ex + 1))) (Z.div2 ex)) with e'.
  2:{ rewrite HD. fold h. assert (e' <= Z.div2 ex); [|unfold e' in *; fexp_lia].
      rewrite Z.div2_div.
      apply Z.div_le_lower_bound; unfold e'; lia. }
  assert (Hs : 0 < ex - 2 * e') by (unfold e'; lia).
  destruct (ex - 2 * e') as [|ps|ps] eqn:Es; try lia. rewrite <- Es.
  rewrite Z.shiftl_mul_pow2 by lia.
  set (m' := Zpos mx * 2 ^ (ex - 2 * e')).
  assert (Hm' : m' = N * (2 ^ (- e') * 2 ^ (- e'))).
  { unfold m'. apply (Z.mul_cancel_r _ _ (2 ^ (ex + 1074))); [pose proof (pow2_pos (ex + 1074)); lia|].
    transitivity (Zpos mx * 2 ^ (ex + 1074) * 2 ^ (ex - 2 * e')); [ring|].
    rewrite Hval.
    rewrite <- !Z.mul_assoc, <- !Z.pow_add_r by (unfold e'; lia).
    do 2 f_equal. lia. }
  assert (Hdm : Zdigits2 m' = 53 + (ex - 2 * e'))
    by (unfold m'; rewrite Zdigits2_mul_pow2 by lia; lia).
  assert (Hm'pos : 0 < m') by (unfold m'; apply Z.mul_pos_pos; [lia|apply pow2_pos; lia]).
  pose proof (Zdigits2_bounds m' Hm'pos) as [Mlo Mhi]. rewrite Hdm in Mlo, Mhi.
  assert (Hq : 2 ^ 52 <= Z.sqrt m' < 2 ^ 53).
  { apply (sqrt_pow2_bounds m' 52); [lia|]. split.
    - eapply Z.le_trans; [|exact Mlo]. apply Z.pow_le_mono_r; unfold e'; lia.
    - eapply Z.lt_le_trans; [exact Mhi|]. apply Z.pow_le_mono_r; unfold e'; lia. }
  pose proof (Z.sqrtrem_sqrt m') as Hsq.
  pose proof (Z.sqrt_spec m' ltac:(lia)) as [Qlo Qhi].
  destruct (Z.sqrtrem m') as [q r]. cbn [fst] in Hsq. subst q.
  set (q := Z.sqrt m') in *.
  set (l := if r =? 0 then loc_Exact else loc_Inexact (if r <=? q then Lt else Gt)).
  assert (Hdq : Zdigits2 q = 53) by (apply Zdigits2_unique; [lia|exact Hq]).
  assert (Hk : fexp (Zdigits2 q + e') - e' = 0) by (rewrite Hdq; unfold e'; fexp_lia).
  destruct (binary_round_aux_spec false q e' l ltac:(lia) ltac:(lia))
    as (m2 & Hm2 & _ & Hres).
  rewrite Hk, Z.div_1_r in Hm2. rewrite Hk, Z.add_0_r in Hres.
  destruct Hres as [[H0 _]|(m'' & e'' & Hv & He'' & Hcan & ->)]; [lia|].
  assert (Hsc : Zpos m'' * 2 ^ (e'' + 1074) = m2 * 2 ^ (e' + 1074)).
  { rewrite <- Hv, <- Z.mul_assoc, <- Z.pow_add_r by (unfold e' in *; lia).
    do 2 f_equal. lia. }
  assert (P' : 0 < 2 ^ (e' + 1074)) by (apply pow2_pos; unfold e'; lia).
  assert (Hlt : m2 * 2 ^ (e' + 1074) < N * 2 ^ 1074).
  { rewrite <- ET, Z.mul_assoc. apply Zmult_lt_compat_r; [exact P'|].
    assert (q + 1 < N * 2 ^ (- e')); [|lia].
    apply sqrt_below; [lia|lia|exact T2|]. rewrite <- Hm'. exact Qlo. }
  assert (He971 : e'' <= 971).
  { eapply (canonical_overflow m'' e''); [exact Hcan|unfold e' in *; lia|exact Hsc|].
    assert (N * 2 ^ 1074 < 2 ^ 53 * 2 ^ 1074) by (apply Zmult_lt_compat_r; lia).
    assert (2 ^ 53 * 2 ^ 1074 <= 2 ^ 2098)
      by (rewrite <- Z.pow_add_r by lia; apply Z.pow_le_mono_r; lia).
    lia. }
  destruct (Z.leb_spec e'' (B64.emax - B64.prec)) as [_|Hgt];
    [|unfold B64.emax, B64.prec in Hgt; lia].
  split.
  { unfold B64.wf. cbn [valid_binary]. unfold bounded.
    apply andb_true_iff. split; [exact Hcan|apply Z.leb_le].
    unfold B64.emax, B64.prec. lia. }
  split; [reflexivity|]. cbn [scaled cond_Zopp]. rewrite Hsc. split; [|exact Hlt].
  intros I HI HIN.
  rewrite <- ET, Z.mul_assoc. apply Z.mul_le_mono_nonneg_r; [lia|].
  assert (I * 2 ^ (- e') <= q); [|lia].
  apply Z.sqrt_le_square; [lia|apply Z.mul_nonneg_nonneg; lia|].
  rewrite Hm'. apply scale_sq_le; lia.
Qed.

Lemma Zdigits2_sqrt a :
  0 < a -> Zdigits2 (Z.sqrt a) = Z.div2 (Zdigits2 a + 1).
Proof.
  intros Ha. pose proof (Zdigits2_bounds a Ha) as [Hlo Hhi].
  set (j := Z.div2 (Zdigits2 a + 1)).
  assert (Hj : 2 * j <= Zdigits2 a + 1 <= 2 * j + 1).
  { unfold j. rewrite Z.div2_div.
    pose proof (Z.div_mod (Zdigits2 a + 1) 2 ltac:(lia)).
    pose proof (Z.mod_pos_bound (Zdigits2 a + 1) 2 ltac:(lia)). lia. }
  assert (1 <= Zdigits2 a).
  { pose proof (Zdigits2_nonneg a). destruct (Z.eq_dec (Zdigits2 a) 0) as [E|]; [|lia].
    rewrite E in Hhi. simpl in Hhi. lia. }
  destruct (sqrt_pow2_bounds a (j - 1) ltac:(lia)) as [Qlo Qhi].
  { split.
    - eapply Z.le_trans; [|exact Hlo]. apply Z.pow_le_mono_r; lia.
    - eapply Z.lt_le_trans; [exact Hhi|]. apply Z.pow_le_mono_r; lia. }
  apply Zdigits2_unique.
  - pose proof (pow2_pos (j - 1) ltac:(lia)). lia.
  - replace (j - 1 + 1) with j in Qhi by lia. split; assumption.
Qed.

Lemma div2_sub_even a b : Z.div2 (a - 2 * b) = Z.div2 a - b.
Proof.
  rewrite !Z.div2_div. replace (a - 2 * b) with (a + (- b) * 2) by lia.
  rewrite Z.div_add by lia. lia.
Qed.

(** The computed root is one of the two binary64 neighbours of the exact
    root, hence within relative error 2^-52 of it. *)
Lemma sqrt_faithful mx ex :
  B64.wf (S754_finite false mx ex) ->
  let x := S754_finite false mx ex in
  B64.wf (B64.sqrt x) /\ B64.is_finite (B64.sqrt x) = true /\
  exists g, 0 < g /\ 2 ^ 52 * g <= scaled (B64.sqrt x) /\
    (scaled (B64.sqrt x) - g) * (scaled (B64.sqrt x) - g) <= scaled x * 2 ^ 1074 /\
    scaled x * 2 ^ 1074 < (scaled (B64.sqrt x) + g) * (scaled (B64.sqrt x) + g).
Proof.
  intros W x. unfold x. clear x.
  apply wf_finite_inv in W as (C & Hex & Hd53 & Hnorm).
  assert (Hd1 : 1 <= Zdigits2 (Zpos mx)) by (simpl; lia).
  set (h := Z.div2 (Zdigits2 (Zpos mx) + ex + 1)).
  assert (Hh : 2 * h <= Zdigits2 (Zpos mx) + ex + 1 <= 2 * h + 1).
  { unfold h. rewrite Z.div2_div.
    pose proof (Z.div_mod (Zdigits2 (Zpos mx) + ex + 1) 2 ltac:(lia)).
    pose proof (Z.mod_pos_bound (Zdigits2 (Zpos mx) + ex + 1) 2 ltac:(lia)). lia. }
  assert (Hx2 : 2 * Z.div2 ex <= ex <= 2 * Z.div2 ex + 1).
  { rewrite Z.div2_div.
    pose proof (Z.div_mod ex 2 ltac:(lia)).
    pose proof (Z.mod_pos_bound ex 2 ltac:(lia)). lia. }
  rewrite sqrt_finite_unfold. cbv zeta. fold h.
  set (e' := Z.min (fexp h) (Z.div2 ex)).
  assert (He'lo : -1074 <= e') by (unfold e'; fexp_lia).
  assert (Hs : 0 <= ex - 2 * e') by (unfold e'; lia).
  set (m' := Zpos mx * 2 ^ (ex - 2 * e')).
  assert (Em' : match ex - 2 * e' with
                | 0 => Zpos mx
                | Zpos _ => Z.shiftl (Zpos mx) (ex - 2 * e')
                | Zneg _ => 0
                end = m').
  { unfold m'. destruct (ex - 2 * e') as [|p|p] eqn:E; [simpl; lia| |lia].
    rewrite Z.shiftl_mul_pow2 by lia. reflexivity. }
  rewrite Em'.
  assert (Hm'pos : 0 < m') by (unfold m'; apply Z.mul_pos_pos; [lia|apply pow2_pos; lia]).
  assert (Hdm : Zdigits2 m' = Zdigits2 (Zpos mx) + (ex - 2 * e'))
    by (unfold m'; rewrite Zdigits2_mul_pow2 by lia; lia).
  pose proof (Z.sqrtrem_sqrt m') as Hsq.
  pose proof (Z.sqrt_spec m' ltac:(lia)) as [Qlo Qhi]. unfold Z.succ in Qhi.
  destruct (Z.sqrtrem m') as [q r]. cbn [fst] in Hsq. subst q.
  set (q := Z.sqrt m') in *.
  set (l := if r =? 0 then loc_Exact else loc_Inexact (if r <=? q then Lt else Gt)).
  assert (Hdq : Zdigits2 q + e' = h).
  { unfold q. rewrite Zdigits2_sqrt, Hdm by assumption.
    replace (Zdigits2 (Zpos mx) + (ex - 2 * e') + 1)
      with (Zdigits2 (Zpos mx) + ex + 1 - 2 * e') by lia.
    rewrite div2_sub_even. fold h. lia. }
  assert (Hq0 : 0 <= q) by apply Z.sqrt_nonneg.
  assert (Hpre : e' <= fexp (Zdigits2 q + e')) by (rewrite Hdq; unfold e'; lia).
  destruct (binary_round_aux_spec false q e' l Hq0 Hpre) as (m2 & Hm2 & _ & Hres).
  rewrite Hdq in Hm2, Hres.
  set (k := fexp h - e') in *.
  assert (Hk : 0 <= k) by (unfold k, e'; lia).
  replace (e' + k) with (fexp h) in Hres by (unfold k; lia).
  assert (Pk := pow2_pos k Hk).
  assert (Hhlo : -536 <= h) by lia.
  assert (Hhhi : h <= 513) by lia.
  assert (Hf1 : -1074 < fexp h) by fexp_lia.
  assert (Hf2 : fexp h < h) by fexp_lia.
  set (m1 := q / 2 ^ k) in *.
  assert (Hm1 : 2 ^ (h - fexp h - 1) <= m1 < 2 ^ (h - fexp h)).
  { pose proof (Zdigits2_bounds q) as Hb.
    assert (0 < q).
    { destruct (Z.eq_dec q 0) as [E0|]; [|lia]. rewrite E0 in Hdq. simpl in Hdq.
      unfold e' in Hdq. fexp_lia. }
    specialize (Hb ltac:(lia)).
    assert (Zdigits2 (q / 2 ^ k) = Zdigits2 q - k)
      by (apply Zdigits2_div_pow2; unfold k; lia).
    assert (0 < q / 2 ^ k).
    { apply Z.div_str_pos. split; [lia|].
      eapply Z.le_trans; [|apply Hb]. apply Z.pow_le_mono_r; unfold k; lia. }
    pose proof (Zdigits2_bounds (q / 2 ^ k) ltac:(lia)) as Hb'.
    unfold m1. replace (h - fexp h) with (Zdigits2 (q / 2 ^ k)) by (unfold k in *; lia).
    exact Hb'. }
  assert (P1 : 0 < 2 ^ (h - fexp h - 1)) by (apply pow2_pos; lia).
  assert (Hm1pos : 0 < m1) by lia.
  destruct (floor_sq_bounds q (2 ^ k) m' Hq0 Pk ltac:(split; [exact Qlo|exact Qhi]))
    as [Flo Fhi]. fold m1 in Flo, Fhi.
  destruct Hres as [[H0 _]|(m'' & e'' & Hv & He'' & Hcan & ->)]; [lia|].
  set (g := 2 ^ (fexp h + 1074)).
  assert (Pg : 0 < g) by (apply pow2_pos; lia).
  assert (Hsc : Zpos m'' * 2 ^ (e'' + 1074) = m2 * g).
  { unfold g. rewrite <- Hv, <- Z.mul_assoc, <- Z.pow_add_r by lia.
    do 2 f_equal. lia. }
  assert (Hm2hi : m2 <= 2 ^ (h - fexp h)) by lia.
  assert (Hm2pos : 0 < m2) by lia.
  assert (He971 : e'' <= 971).
  { eapply (canonical_overflow m'' e''); [exact Hcan|lia|exact Hsc|].
    assert (m2 * g <= 2 ^ (h - fexp h) * g) by (apply Z.mul_le_mono_nonneg_r; lia).
    assert (2 ^ (h - fexp h) * g = 2 ^ (h + 1074))
      by (unfold g; rewrite <- Z.pow_add_r by lia; f_equal; lia).
    assert (2 ^ (h + 1074) < 2 ^ 2098) by (apply Z.pow_lt_mono_r; lia).
    lia. }
  destruct (Z.leb_spec e'' (B64.emax - B64.prec)) as [_|Hgt];
    [|unfold B64.emax, B64.prec in Hgt; lia].
  split.
  { unfold B64.wf. cbn [valid_binary]. unfold bounded.
    apply andb_true_iff. split; [exact Hcan|apply Z.leb_le].
    unfold B64.emax, B64.prec. lia. }
  split; [reflexivity|]. exists g. split; [exact Pg|].
  cbn [scaled cond_Zopp]. rewrite Hsc.
  set (c := 2 ^ (e' + 1074)).
  assert (Pc : 0 < c) by (apply pow2_pos; lia).
  assert (Eg : g = 2 ^ k * c).
  { unfold g, c. rewrite <- Z.pow_add_r by lia. f_equal. unfold k. lia. }
  assert (EV : Zpos mx * 2 ^ (ex + 1074) * 2 ^ 1074 = m' * (c * c)).
  { unfold m', c. rewrite <- !Z.mul_assoc, <- !Z.pow_add_r by lia.
    do 2 f_equal. lia. }
  rewrite EV.
  assert (Pcc : 0 < c * c) by (apply Z.mul_pos_pos; assumption).
  assert (Hlow : (m1 * g) * (m1 * g) <= m' * (c * c)).
  { rewrite Eg.
    replace (m1 * (2 ^ k * c) * (m1 * (2 ^ k * c)))
      with (m1 * 2 ^ k * (m1 * 2 ^ k) * (c * c)) by ring.
    apply Z.mul_le_mono_nonneg_r; [lia|exact Flo]. }
  assert (Hupp : m' * (c * c) < ((m1 + 1) * g) * ((m1 + 1) * g)).
  { rewrite Eg.
    replace ((m1 + 1) * (2 ^ k * c) * ((m1 + 1) * (2 ^ k * c)))
      with ((m1 + 1) * 2 ^ k * ((m1 + 1) * 2 ^ k) * (c * c)) by ring.
    apply Zmult_lt_compat_r; [exact Pcc|exact Fhi]. }
  assert (H52 : 2 ^ 52 <= m1).
  { assert (2 ^ 52 <= 2 ^ (h - fexp h - 1)); [|lia].
    apply Z.pow_le_mono_r; fexp_lia. }
  assert (Hg1 : 0 <= m1 * g) by (apply Z.mul_nonneg_nonneg; lia).
  assert (H52g : 2 ^ 52 * g <= m1 * g) by (apply Z.mul_le_mono_nonneg_r; lia).
  destruct Hm2 as [-> | ->].
  - split; [exact H52g|]. split.
    + assert (Hs1 : 0 <= m1 * g - g <= m1 * g) by lia.
      apply sq_le in Hs1. lia.
    + replace (m1 * g + g) with ((m1 + 1) * g) by ring. exact Hupp.
  - split; [lia|]. split.
    + replace ((m1 + 1) * g - g) with (m1 * g) by ring. exact Hlow.
    + assert (Hs2 : 0 <= (m1 + 1) * g <= (m1 + 1) * g + g) by lia.
      apply sq_le in Hs2. lia.
Qed.

(** ** Divisibility and primality *)

Lemma trial_division_prime N : trial_division N = true <-> Z.prime N.
Proof.
  unfold trial_division, Z.prime.
  rewrite andb_true_iff, Z.ltb_lt, forallb_forall. split.
  - intros [H1 H]. split; [assumption|]. intros d Hd Hdiv.
    specialize (H d). rewrite in_map_iff in H.
    assert (negb (N mod d =? 0) = true) as Hn.
    { apply H. exists (Z.to_nat d). split; [lia|]. apply in_seq. lia. }
    apply Z.mod_divide in Hdiv; [|lia]. rewrite Hdiv in Hn. discriminate.
  - intros [H1 H]. split; [assumption|]. intros d Hin.
    apply in_map_iff in Hin as (k & <- & Hk). apply in_seq in Hk.
    apply negb_true_iff, Z.eqb_neq. intros Hm.
    apply (H (Z.of_nat k)); [lia|]. apply Z.mod_divide; [lia|assumption].
Qed.

Lemma small_divisor N d :
  0 < N -> 1 < d < N -> (d | N) -> exists c, 1 < c /\ c * c <= N /\ (c | N).
Proof.
  intros HN Hd [q Hq].
  assert (1 < q) by nia.
  destruct (Z.le_gt_cases d q).
  - exists d. repeat split; try lia; [nia|exists q; lia].
  - exists q. repeat split; try lia; [nia|exists d; lia].
Qed.

Lemma odd_divisor N d : Z.odd N = true -> (d | N) -> Z.odd d = true.
Proof.
  intros HN [q ->]. rewrite Z.odd_mul in HN.
  apply andb_true_iff in HN. tauto.
Qed.

Lemma no_small_divisor_prime N I :
  1 < N -> (forall d, 1 < d < I -> ~ (d | N)) -> N < I * I -> 0 <= I -> Z.prime N.
Proof.
  intros HN Hno Hsq HI. split; [assumption|]. intros d Hd Hdiv.
  destruct (small_divisor N d ltac:(lia) Hd Hdiv) as (c & Hc1 & Hc2 & Hc3).
  apply (Hno c); [|assumption]. nia.
Qed.

Lemma odd_no_even_divisor N d : Z.odd N = true -> Z.odd d = false -> ~ (d | N).
Proof.
  intros HN Hd Hdiv. rewrite (odd_divisor N d HN Hdiv) in Hd. discriminate.
Qed.

Lemma divisor_search N k :
  (forall d, 1 < d < Z.of_nat k -> ~ (d | N)) \/
  (exists d, 1 < d < Z.of_nat k /\ (d | N)).
Proof.
  induction k as [|k [IH|IH]].
  - left. intros d Hd. lia.
  - destruct (Z.BoolSpec_divide (Z.of_nat k) N) as [Hdiv|Hndiv].
    + destruct (Z.le_gt_cases (Z.of_nat k) 1).
      * left. intros d Hd. lia.
      * right. exists (Z.of_nat k). split; [lia|assumption].
    + left. intros d Hd.
      destruct (Z.eq_dec d (Z.of_nat k)) as [->|]; [assumption|].
      apply IH. lia.
  - right. destruct IH as (d & Hd & Hdiv). exists d. split; [lia|assumption].
Qed.

Lemma odd_composite_iff N :
  3 <= N -> Z.odd N = true -> (~ Z.prime N <-> odd_divisor_upto_sqrt N).
Proof.
  intros HN Hodd. split.
  - intros Hnp.
    destruct (divisor_search N (Z.to_nat N)) as [Hno|(d & Hd & Hdiv)].
    + exfalso. apply Hnp. split; [lia|]. intros d Hd. apply Hno. lia.
    + destruct (small_divisor N d ltac:(lia) ltac:(lia) Hdiv) as (c & Hc1 & Hc2 & Hc3).
      pose proof (odd_divisor N c Hodd Hc3) as Hco.
      exists c. repeat split; try assumption.
      destruct (Z.eq_dec c 2) as [->|]; [discriminate|lia].
  - intros (d & Hd3 & _ & Hsq & Hdiv) [_ Hp].
    apply (Hp d); [nia|assumption].
Qed.

Lemma int_float_odd_bound n N :
  int_float n N -> 0 < N -> Z.odd N = true -> N < 2 ^ 53.
Proof.
  intros Hn HN Hodd.
  destruct (int_float_pos_inv n N Hn HN) as (m & e & -> & Hv).
  destruct Hn as [W _]. apply wf_finite_inv in W as (_ & He & Hd & _).
  pose proof (Zdigits2_bounds (Zpos m) ltac:(lia)) as [_ Hhi].
  assert (2 ^ Zdigits2 (Zpos m) <= 2 ^ 53) by (apply Z.pow_le_mono_r; lia).
  assert (S : 0 < 2 ^ 1074) by (apply pow2_pos; lia).
  destruct (Z.le_gt_cases e 0) as [Hle|Hgt].
  - assert (2 ^ (e + 1074) <= 2 ^ 1074) by (apply Z.pow_le_mono_r; lia).
    assert (0 < 2 ^ (e + 1074)) by (apply pow2_pos; lia). nia.
  - exfalso. rewrite Z.pow_add_r in Hv by lia.
    assert (N = Zpos m * 2 ^ e) as -> by nia.
    replace e with (Z.succ (e - 1)) in Hodd by lia.
    rewrite Z.pow_succ_r in Hodd by lia.
    rewrite Z.mul_assoc, (Z.mul_comm (Zpos m)), <- Z.mul_assoc, Z.odd_mul in Hodd.
    discriminate.
Qed.

(** ** Integers as Numbers *)

Lemma int_float_of_Z_0 : int_float (B64.of_Z 0) 0.
Proof. split; reflexivity. Qed.
Lemma int_float_of_Z_1 : int_float (B64.of_Z 1) 1.
Proof. split; reflexivity. Qed.
Lemma int_float_of_Z_2 : int_float (B64.of_Z 2) 2.
Proof. split; reflexivity. Qed.
Lemma int_float_of_Z_3 : int_float (B64.of_Z 3) 3.
Proof. split; reflexivity. Qed.

Lemma finite_not_nan x : B64.is_finite x = true -> B64.is_nan x = false.
Proof. destruct x; try discriminate; reflexivity. Qed.

Lemma int_float_ltb x y X Y :
  int_float x X -> int_float y Y -> B64.ltb x y = (X <? Y).
Proof.
  intros Hx Hy. unfold B64.ltb, SFltb. rewrite (int_float_compare x y X Y Hx Hy).
  unfold Z.ltb. destruct (X ?= Y); reflexivity.
Qed.

Lemma int_float_eqb x y X Y :
  int_float x X -> int_float y Y -> B64.eqb x y = (X =? Y).
Proof.
  intros Hx Hy. unfold B64.eqb, SFeqb. rewrite (int_float_compare x y X Y Hx Hy).
  unfold Z.eqb. destruct (X ?= Y) eqn:E; try reflexivity.
  - apply Z.compare_eq in E. subst. destruct Y; try reflexivity; simpl;
      rewrite Pos.eqb_refl; reflexivity.
  - destruct X, Y; try reflexivity; try discriminate; simpl in *;
      symmetry; apply Pos.eqb_neq; intros ->; rewrite Pos.compare_refl in E;
      discriminate.
  - destruct X, Y; try reflexivity; try discriminate; simpl in *;
      symmetry; apply Pos.eqb_neq; intros ->; rewrite Pos.compare_refl in E;
      discriminate.
Qed.

(** ** Validation *)

Lemma validateNumber_Return v x :
  validateNumber v = Return x <-> v = VNumber x /\ valid_number x.
Proof.
  unfold validateNumber, valid_number. split.
  - destruct v as [| | |x0| | | |l []]; try discriminate.
    destruct (B64.is_nan x0) eqn:E; [discriminate|].
    intros [= ->]. auto.
  - intros [-> ->]. reflexivity.
Qed.

Lemma validateNumber_rejection v :
  ~ accepted v -> validateNumber v = rejection v.
Proof.
  intros H. unfold validateNumber, rejection.
  destruct v as [| | |x| | | |l []]; try reflexivity.
  destruct (B64.is_nan x) eqn:E; [reflexivity|].
  exfalso. apply H. exists x. auto.
Qed.

Lemma rejection_not_Return {A} v (a : A) : rejection v <> Return a.
Proof. unfold rejection. destruct (to_string v); discriminate. Qed.

Lemma rejection_errors {A} v e :
  @rejection A v = Throw e ->
  e = InvalidNumber \/ e = TypeError \/ exists w, e = Thrown w.
Proof.
  unfold rejection. destruct v as [| | |x| | | |l []]; cbn;
    intros [= <-]; eauto.
Qed.

Lemma rejection_bind {A B} v (f : A -> completion B) :
  (rejection v ≫= f) = rejection v.
Proof. unfold rejection. destruct (to_string v); reflexivity. Qed.

Lemma accepted_number x : accepted (VNumber x) <-> valid_number x.
Proof.
  split; [intros (y & [= <-] & H); exact H|intros H; exists x; auto].
Qed.

Lemma validateNumber_cases v :
  (exists x, v = VNumber x /\ valid_number x /\ validateNumber v = Return x) \/
  (~ accepted v /\ validateNumber v = rejection v).
Proof.
  destruct v as [| | |x| | | |l c];
    try (right; split; [intros (y & [=] & _)|reflexivity]).
  - destruct (B64.is_nan x) eqn:E.
    + right. split; [intros (y & [= <-] & H); congruence|].
      apply validateNumber_rejection. intros (y & [= <-] & H). congruence.
    + left. exists x. repeat split; [exact E|]. cbn. rewrite E. reflexivity.
Qed.



(** The two-argument form is the variadic one at two arguments. *)
Lemma validateNumbers2_variadic a b :
  validateNumbers [a; b] = '(x, y) ← validateNumbers2 a b; Return [x; y].
Proof.
  unfold validateNumbers, validateNumbers2. cbn.
  destruct (validateNumber a); [|reflexivity|reflexivity]. cbn.
  destruct (validateNumber b); reflexivity.
Qed.

Lemma validateNumbers2_Return a b x y :
  validateNumbers2 a b = Return (x, y) <->
  a = VNumber x /\ b = VNumber y /\ valid_number x /\ valid_number y.
Proof.
  unfold validateNumbers2. split.
  - destruct (validateNumber a) as [x'| |] eqn:Ea; [|discriminate|discriminate].
    destruct (validateNumber b) as [y'| |] eqn:Eb; [|discriminate|discriminate].
    intros [= -> ->].
    apply validateNumber_Return in Ea as [-> ?].
    apply validateNumber_Return in Eb as [-> ?]. auto.
  - intros (-> & -> & Hx & Hy). unfold valid_number in *.
    simpl. rewrite Hx. simpl. rewrite Hy. reflexivity.
Qed.

(** The operands are validated from left to right, and the first one that
    is not accepted decides how the call ends. *)
Lemma validateNumbers2_first a b :
  ~ accepted a -> validateNumbers2 a b = rejection a.
Proof.
  intros H. unfold validateNumbers2.
  rewrite (validateNumber_rejection a H). apply rejection_bind.
Qed.

Lemma validateNumbers2_second x b :
  valid_number x -> ~ accepted b ->
  validateNumbers2 (VNumber x) b = rejection b.
Proof.
  intros Hx H. unfold validateNumbers2. cbn [validateNumber].
  unfold valid_number in Hx. rewrite Hx. cbn.
  rewrite (validateNumber_rejection b H). apply rejection_bind.
Qed.

Lemma validateNumbers2_cases a b :
  (exists x y, a = VNumber x /\ b = VNumber y /\ valid_number x /\
               valid_number y /\ validateNumbers2 a b = Return (x, y)) \/
  (~ accepted a /\ validateNumbers2 a b = rejection a) \/
  (exists x, a = VNumber x /\ valid_number x /\ ~ accepted b /\
             validateNumbers2 a b = rejection b).
Proof.
  destruct (validateNumber_cases a) as [(x & -> & Hx & _)|[Ha _]].
  - destruct (validateNumber_cases b) as [(y & -> & Hy & _)|[Hb _]].
    + left. exists x, y. repeat split; try assumption.
      apply validateNumbers2_Return. auto.
    + right. right. exists x. repeat split; try assumption.
      apply validateNumbers2_second; assumption.
  - right. left. split; [exact Ha|]. apply validateNumbers2_first. exact Ha.
Qed.

(** ** Arithmetic *)

Lemma B64_add_comm x y : B64.add x y = B64.add y x.
Proof.
  unfold B64.add, SFadd.
  destruct x as [sx|sx| |sx mx ex], y as [sy|sy| |sy my ey];
    try reflexivity; try (destruct sx, sy; reflexivity).
  rewrite (Z.min_comm ey ex). f_equal. apply Z.add_comm.
Qed.

Lemma B64_mul_comm x y : B64.mul x y = B64.mul y x.
Proof.
  unfold B64.mul, SFmul.
  destruct x as [sx|sx| |sx mx ex], y as [sy|sy| |sy my ey];
    try reflexivity; try (destruct sx, sy; reflexivity).
  rewrite (xorb_comm sy sx), (Pos.mul_comm my mx), (Z.add_comm ey ex).
  reflexivity.
Qed.

Lemma eqb_zero_iff y : B64.eqb y (B64.of_Z 0) = true <-> is_zero y.
Proof.
  unfold is_zero. destruct y as [s|s| |s m e]; cbn; split;
    try discriminate; eauto; try (intros [? [=]]).
  - destruct s; discriminate.
  - destruct s; discriminate.
Qed.

Lemma shr_nonneg mrs e n :
  0 <= shr_m mrs -> 0 <= shr_m (fst (shr mrs e n)).
Proof.
  intros H. unfold shr. destruct n as [|p|p]; try exact H.
  cbn [fst]. rewrite iter_pos_nat. destruct mrs as [m r s]. cbn [shr_m] in H.
  destruct (iter_shr_1_spec (Pos.to_nat p) m r s H) as [-> _].
  apply Z.div_pos; [exact H|apply pow2_pos; lia].
Qed.

Lemma shr_fexp_nonneg m e l :
  0 <= m -> 0 <= shr_m (fst (shr_fexp B64.prec B64.emax m e l)).
Proof.
  intros H. unfold shr_fexp. apply shr_nonneg.
  destruct l as [|[]]; exact H.
Qed.

(** Rounding a non-negative mantissa never produces NaN. *)
Lemma binary_round_aux_not_nan s m e l :
  0 <= m -> B64.is_nan (binary_round_aux B64.prec B64.emax s m e l) = false.
Proof.
  intros Hm. unfold binary_round_aux.
  pose proof (shr_fexp_nonneg m e l Hm) as H1.
  destruct (shr_fexp _ _ m e l) as [mrs' e1]. cbn [fst] in H1.
  assert (H2 : 0 <= round_nearest_even (shr_m mrs') (loc_of_shr_record mrs'))
    by (destruct (round_nearest_even_cases (shr_m mrs') (loc_of_shr_record mrs'))
          as [-> | ->]; lia).
  pose proof (shr_fexp_nonneg _ e1 loc_Exact H2) as H3.
  destruct (shr_fexp _ _ _ e1 loc_Exact) as [mrs'' e2]. cbn [fst] in H3.
  destruct (shr_m mrs'') as [|p|p]; [reflexivity| |lia].
  destruct (e2 <=? _); reflexivity.
Qed.

Lemma add_finite_not_nan x y :
  B64.is_finite x = true -> B64.is_finite y = true ->
  B64.is_nan (B64.add x y) = false.
Proof.
  intros Fx Fy.
  destruct x as [sx| | |sx mx ex]; try discriminate;
    destruct y as [sy| | |sy my ey]; try discriminate;
    try reflexivity; try (destruct sx, sy; reflexivity).
  unfold B64.add, SFadd, binary_normalize, binary_round.
  destruct (_ + _) as [|p|p]; [reflexivity| |];
    destruct (shl_align p _ _) as [mz ez]; apply binary_round_aux_not_nan; lia.
Qed.

Lemma mul_finite_not_nan x y :
  B64.is_finite x = true -> B64.is_finite y = true ->
  B64.is_nan (B64.mul x y) = false.
Proof.
  intros Fx Fy.
  destruct x as [sx| | |sx mx ex]; try discriminate;
    destruct y as [sy| | |sy my ey]; try discriminate; try reflexivity.
  unfold B64.mul, SFmul. apply binary_round_aux_not_nan. lia.
Qed.

Lemma eqb_refl x : B64.is_nan x = false -> B64.eqb x x = true.
Proof.
  intros Hx. unfold B64.eqb, SFeqb.
  destruct x as [s|s| |s m e]; try discriminate; try (destruct s; reflexivity).
  cbn [SFcompare]. rewrite Z.compare_refl, Pos.compare_cont_refl.
  destruct s; reflexivity.
Qed.

(** C9: [add] and [multiply] are commutative.  On two Numbers, swapping
    the arguments yields the same completion, whether a Number or the
    [InvalidNumber] failure for NaN.  On finite Numbers both orders return
    one and the same Number, which is never NaN, so that the two results
    compare equal under [===].  On arbitrary values the two orders return
    the same result whenever one of them returns. *)
Theorem add_multiply_commutative (a b : value) :
  (forall x y, a = VNumber x -> b = VNumber y ->
      add a b = add b a /\ multiply a b = multiply b a) /\
  (forall r, add a b = Return r <-> add b a = Return r) /\
  (forall r, multiply a b = Return r <-> multiply b a = Return r) /\
  (forall x y,
      a = VNumber x -> b = VNumber y ->
      B64.is_finite x = true -> B64.is_finite y = true ->
      exists s p,
        add a b = Return (VNumber s) /\ add b a = Return (VNumber s) /\
        B64.eqb s s = true /\
        multiply a b = Return (VNumber p) /\ multiply b a = Return (VNumber p) /\
        B64.eqb p p = true).
Proof.
  assert (Hnum : forall x y,
             add (VNumber x) (VNumber y) = add (VNumber y) (VNumber x) /\
             multiply (VNumber x) (VNumber y) = multiply (VNumber y) (VNumber x)).
  { intros x y. unfold add, multiply, validateNumbers2. cbn [validateNumber].
    destruct (B64.is_nan x), (B64.is_nan y); cbn; try (split; reflexivity).
    rewrite B64_add_comm, B64_mul_comm. split; reflexivity. }
  assert (Hret : forall a b r,
             (add a b = Return r -> add b a = Return r) /\
             (multiply a b = Return r -> multiply b a = Return r)).
  { intros a' b' r.
    destruct (validateNumbers2_cases a' b')
      as [(x & y & -> & -> & _)|[[_ E]|(x & _ & _ & _ & E)]].
    - destruct (Hnum x y) as [-> ->]. auto.
    - unfold add, multiply. rewrite E, !rejection_bind.
      split; intros H; destruct (rejection_not_Return _ _ H).
    - unfold add, multiply. rewrite E, !rejection_bind.
      split; intros H; destruct (rejection_not_Return _ _ H). }
  split; [intros x y -> ->; apply Hnum|].
  split; [intros r; split; apply Hret|].
  split; [intros r; split; apply Hret|].
  intros x y -> -> Fx Fy. destruct (Hnum x y) as [<- <-]. unfold add, multiply.
  rewrite (proj2 (validateNumbers2_Return _ _ x y))
    by (repeat split; apply finite_not_nan; assumption).
  exists (B64.add x y), (B64.mul x y). cbn [mbind completion_bind].
  repeat split; apply eqb_refl;
    [apply add_finite_not_nan|apply mul_finite_not_nan]; assumption.
Qed.

(** Outside the Numbers the order of the operands shows: they are
    validated from left to right. *)
Remark add_validates_left_to_right :
  add VSymbol VUndefined = Throw TypeError /\
  add VUndefined VSymbol = Throw InvalidNumber.
Proof. split; reflexivity. Qed.

(** C6: on Numbers, [divide] raises [DivisionByZero] exactly when the
    divisor is one of the two zeros (the test is [b === 0], no tolerance:
    every other divisor, however small, divides), and otherwise returns
    the binary64 quotient. *)
Theorem divide_by_zero_iff (x y : float) :
  valid_number x -> valid_number y ->
  (divide (VNumber x) (VNumber y) = Throw DivisionByZero <-> is_zero y) /\
  (~ is_zero y ->
   divide (VNumber x) (VNumber y) = Return (VNumber (B64.div x y))).
Proof.
  intros Hx Hy. unfold divide.
  rewrite (proj2 (validateNumbers2_Return _ _ x y)) by auto. simpl.
  destruct (B64.eqb y (B64.of_Z 0)) eqn:E.
  - apply eqb_zero_iff in E. split; [split; auto|]. intros H. destruct (H E).
  - split; [|reflexivity]. split; [discriminate|].
    intros Hz. apply eqb_zero_iff in Hz. congruence.
Qed.

Lemma divide_by_zero_iff_witness :
  (divide (VNumber (B64.of_Z 5)) (VNumber (B64.of_Z 0)) = Throw DivisionByZero
   <-> is_zero (B64.of_Z 0)) /\
  (~ is_zero (B64.of_Z 2) ->
   divide (VNumber (B64.of_Z 5)) (VNumber (B64.of_Z 2))
   = Return (VNumber (B64.div (B64.of_Z 5) (B64.of_Z 2)))).
Proof.
  split.
  - apply (divide_by_zero_iff (B64.of_Z 5) (B64.of_Z 0)); reflexivity.
  - apply (divide_by_zero_iff (B64.of_Z 5) (B64.of_Z 2)); reflexivity.
Defined.




(** ** Primality, factorial and Fibonacci *)

Lemma int_float_of_Z z : Z.abs z <= 2 ^ 53 -> int_float (B64.of_Z z) z.
Proof.
  intros Hz. unfold B64.of_Z.
  destruct (binary_normalize_exact z 0 false ltac:(lia)) as (W & F & Sc).
  - simpl (0 + 1074). apply int_representable. exact Hz.
  - simpl (0 + 1074).
    assert (2 ^ 53 * 2 ^ 1074 < 2 ^ 2098)
      by (rewrite <- Z.pow_add_r by lia; apply Z.pow_lt_mono_r; lia).
    assert (0 < 2 ^ 1074) by (apply pow2_pos; lia). nia.
  - apply int_float_intro; assumption.
Qed.

Lemma int_float_is_of_Z x N :
  int_float x N -> N <> 0 -> Z.abs N <= 2 ^ 53 -> x = B64.of_Z N.
Proof.
  intros Hx HN Hb. apply (int_float_unique x (B64.of_Z N) N); auto.
  apply int_float_of_Z. exact Hb.
Qed.

(** *** The primality test *)

Lemma validateInteger_int_float x N :
  int_float x N -> validateInteger (VNumber x) = Return x.
Proof.
  intros H. pose proof (int_float_finite _ _ H) as F. destruct H as [_ H].
  unfold validateInteger. cbn [validateNumber].
  rewrite (finite_not_nan x F). cbn.
  unfold B64.isInteger. rewrite H. reflexivity.
Qed.

Lemma isPrime_loop_correct n N :
  int_float n N -> 3 <= N -> Z.odd N = true ->
  forall fuel i I,
    int_float i I -> 3 <= I <= N + 1 -> Z.odd I = true ->
    (forall d, 1 < d < I -> ~ (d | N)) ->
    (Z.to_nat (N + 2 - I) <= fuel)%nat ->
    exists b, isPrime_loop fuel n i = Some b /\ (b = true <-> Z.prime N).
Proof.
  intros Hn HN Hodd.
  pose proof (int_float_odd_bound n N Hn ltac:(lia) Hodd) as HN53.
  destruct (sqrt_bracket n N Hn ltac:(lia)) as (Wr & Fr & Hlow & Hup).
  assert (S : 0 < 2 ^ 1074) by (apply pow2_pos; lia).
  induction fuel as [|fuel IH]; intros i I Hi HI HIodd Hno Hfuel; [lia|].
  cbn [isPrime_loop].
  unfold B64.leb at 1. unfold SFleb.
  rewrite compare_scaled;
    [|apply Hi|exact Wr|apply finite_not_nan; eapply int_float_finite; eassumption
     |apply finite_not_nan; exact Fr].
  rewrite (int_float_scaled i I Hi).
  destruct (Z.compare_spec (I * 2 ^ 1074) (scaled (B64.sqrt n))) as [E|E|E].
  1,2: assert (HIN : I < N) by nia.
  1,2: destruct (B64.eqb (B64.rem n i) (B64.of_Z 0)) eqn:Er;
    [ apply (int_float_rem_zero n i N I Hn Hi ltac:(lia)) in Er;
      exists false; split; [reflexivity|];
      split; [discriminate|]; intros [_ Hp]; exfalso; apply (Hp I); [lia|exact Er]
    | apply (IH (B64.add i (B64.of_Z 2)) (I + 2));
      [ apply int_float_add; [exact Hi|exact int_float_of_Z_2|lia]
      | lia
      | rewrite Z.odd_add, HIodd; reflexivity
      | intros d Hd;
        destruct (Z.eq_dec d I) as [->|];
        [ intros Hdiv; apply (int_float_rem_zero n i N I Hn Hi ltac:(lia)) in Hdiv;
          congruence
        | destruct (Z.eq_dec d (I + 1)) as [->|];
          [ apply odd_no_even_divisor; [exact Hodd|];
            rewrite Z.odd_add, HIodd; reflexivity
          | apply Hno; lia ] ]
      | lia ] ].
  exists true. split; [reflexivity|]. split; [intros _|reflexivity].
  apply (no_small_divisor_prime N I); try lia; [exact Hno|].
  destruct (Z.lt_ge_cases N (I * I)) as [|Hge]; [assumption|exfalso].
  specialize (Hlow I ltac:(lia) ltac:(lia)). lia.
Qed.

Lemma isPrime_decides n N :
  int_float n N -> 0 <= N ->
  forall fuel, (Z.to_nat N <= fuel)%nat ->
  exists b, isPrime fuel (VNumber n) = Some (Return (VBool b)) /\
            (b = true <-> Z.prime N).
Proof.
  intros Hn HN fuel Hfuel. unfold isPrime.
  rewrite (validateInteger_int_float n N Hn).
  rewrite (int_float_ltb n _ N 2 Hn int_float_of_Z_2).
  destruct (Z.ltb_spec N 2) as [Hlt|Hge].
  { exists false. split; [reflexivity|]. split; [discriminate|].
    intros [H1 _]. lia. }
  rewrite (int_float_eqb n _ N 2 Hn int_float_of_Z_2).
  destruct (Z.eqb_spec N 2) as [->|Hne].
  { exists true. split; [reflexivity|]. split; [intros _|reflexivity].
    apply Z.prime_2. }
  destruct (B64.eqb (B64.rem n (B64.of_Z 2)) (B64.of_Z 0)) eqn:Er.
  { apply (int_float_rem_zero n _ N 2 Hn int_float_of_Z_2 ltac:(lia)) in Er.
    exists false. split; [reflexivity|]. split; [discriminate|].
    intros [_ Hp]. exfalso. apply (Hp 2); [lia|exact Er]. }
  assert (Hodd : Z.odd N = true).
  { destruct (Z.odd N) eqn:E; [reflexivity|exfalso].
    assert (B64.eqb (B64.rem n (B64.of_Z 2)) (B64.of_Z 0) = true); [|congruence].
    apply (int_float_rem_zero n _ N 2 Hn int_float_of_Z_2 ltac:(lia)).
    rewrite <- Z.negb_even in E. apply negb_false_iff, Z.even_spec in E.
    destruct E as [k ->]. exists k. lia. }
  destruct (isPrime_loop_correct n N Hn ltac:(lia) Hodd fuel (B64.of_Z 3) 3
              int_float_of_Z_3 ltac:(lia) eq_refl) as (b & -> & Hb).
  - intros d Hd. assert (d = 2) as -> by lia.
    apply odd_no_even_divisor; [exact Hodd|reflexivity].
  - lia.
  - exists b. split; [reflexivity|exact Hb].
Qed.

(** C1: for every integer [N >= 0], given as the Number [n] that denotes
    it, [isPrime] returns a boolean (the loop finishes within [N] tests),
    and that boolean is [true] exactly when [N] is prime.  It is [false]
    below 2, [true] at 2, [false] for even [N > 2], and for odd [N >= 3]
    it is [false] exactly when some odd [d] with [3 <= d] and [d*d <= N]
    divides [N]; and it equals the outcome of trial division by every
    candidate below [N]. *)
Theorem isPrime_correct n N :
  int_float n N -> 0 <= N ->
  forall fuel, (Z.to_nat N <= fuel)%nat ->
  exists b,
    isPrime fuel (VNumber n) = Some (Return (VBool b)) /\
    (b = true <-> Z.prime N) /\
    b = trial_division N /\
    (N < 2 -> b = false) /\
    (N = 2 -> b = true) /\
    (2 < N -> Z.even N = true -> b = false) /\
    (3 <= N -> Z.odd N = true -> (b = false <-> odd_divisor_upto_sqrt N)).
Proof.
  intros Hn HN fuel Hfuel.
  destruct (isPrime_decides n N Hn HN fuel Hfuel) as (b & Hrun & Hb).
  exists b. split; [exact Hrun|]. split; [exact Hb|].
  assert (Hnot : b = false <-> ~ Z.prime N).
  { destruct b; split.
    - discriminate.
    - intros Hp. exfalso. apply Hp, Hb. reflexivity.
    - intros _ Hp. apply Hb in Hp. discriminate.
    - reflexivity. }
  split.
  { destruct (trial_division N) eqn:E.
    - apply Hb, trial_division_prime, E.
    - apply Hnot. rewrite <- trial_division_prime, E. discriminate. }
  split. { intros H. apply Hnot. intros [H1 _]. lia. }
  split. { intros ->. apply Hb, Z.prime_2. }
  split.
  { intros H2 He. apply Hnot. intros [_ Hp]. apply (Hp 2); [lia|].
    apply Z.even_spec in He as [k ->]. exists k. lia. }
  intros H3 Hodd. rewrite Hnot. apply odd_composite_iff; assumption.
Qed.

(** *** Factorial and Fibonacci *)

(** Fuel only matters until the loop finishes. *)

Lemma factorial_loop_mono fuel fuel' number i result y :
  factorial_loop fuel number i result = Some y -> (fuel <= fuel')%nat ->
  factorial_loop fuel' number i result = Some y.
Proof.
  revert fuel' i result. induction fuel as [|fuel IH]; intros fuel' i result H Hle;
    [discriminate|].
  destruct fuel' as [|fuel']; [lia|]. cbn [factorial_loop] in *.
  destruct (B64.leb i number); [|exact H]. apply IH; [exact H|lia].
Qed.

Lemma fibonacci_loop_mono fuel fuel' n i a b y :
  fibonacci_loop fuel n i a b = Some y -> (fuel <= fuel')%nat ->
  fibonacci_loop fuel' n i a b = Some y.
Proof.
  revert fuel' i a b. induction fuel as [|fuel IH]; intros fuel' i a b H Hle;
    [discriminate|].
  destruct fuel' as [|fuel']; [lia|]. cbn [fibonacci_loop] in *.
  destruct (B64.leb i n); [|exact H]. apply IH; [exact H|lia].
Qed.

Lemma factorial_mono fuel fuel' v c :
  factorial fuel v = Some c -> (fuel <= fuel')%nat -> factorial fuel' v = Some c.
Proof.
  unfold factorial. intros H Hle.
  destruct (validateInteger v) as [n|e|]; [|exact H|exact H].
  destruct (B64.ltb n (B64.of_Z 0)); [exact H|].
  destruct (B64.eqb n (B64.of_Z 0) || B64.eqb n (B64.of_Z 1)); [exact H|].
  destruct (factorial_loop fuel n _ _) as [y|] eqn:E; [|discriminate].
  rewrite (factorial_loop_mono _ _ _ _ _ _ E Hle). exact H.
Qed.

Lemma fibonacci_mono fuel fuel' v c :
  fibonacci fuel v = Some c -> (fuel <= fuel')%nat -> fibonacci fuel' v = Some c.
Proof.
  unfold fibonacci. intros H Hle.
  destruct (validateInteger v) as [n|e|]; [|exact H|exact H].
  destruct (B64.ltb n (B64.of_Z 0)); [exact H|].
  destruct (B64.eqb n (B64.of_Z 0)); [exact H|].
  destruct (B64.eqb n (B64.of_Z 1)); [exact H|].
  destruct (fibonacci_loop fuel n _ _ _) as [y|] eqn:E; [|discriminate].
  rewrite (fibonacci_loop_mono _ _ _ _ _ _ _ E Hle). exact H.
Qed.

Lemma returns_integer_inv r expected :
  returns_integer r expected = true ->
  exists y, r = Some (Return (VNumber y)) /\ int_float y expected.
Proof.
  unfold returns_integer. destruct r as [[[| | |y| | | |]| |]|]; try discriminate.
  rewrite andb_true_iff. intros [W H]. exists y. split; [reflexivity|].
  split; [exact W|]. destruct (B64.to_Z y) as [z|]; [|discriminate].
  apply Z.eqb_eq in H. congruence.
Qed.

Lemma check_factorial_22 : forallb check_factorial (seq 1 22) = true.
Proof. vm_compute. reflexivity. Qed.

Lemma check_fibonacci_78 : forallb check_fibonacci (seq 1 78) = true.
Proof. vm_compute. reflexivity. Qed.

Lemma negative_int_float x n :
  int_float x n -> n < 0 -> B64.ltb x (B64.of_Z 0) = true.
Proof.
  intros H Hn. rewrite (int_float_ltb x _ n 0 H int_float_of_Z_0).
  apply Z.ltb_lt. exact Hn.
Qed.

(** C3, as the code has it: for every integer [n], given as the Number
    [x] that denotes it, [factorial] fails with [NegativeFactorial] when
    [n < 0], returns 1 when [n] is 0 or 1, and for [0 <= n <= 22] returns
    the Number that denotes exactly [n!] (the loop finishes within [n]
    tests). *)
Theorem factorial_exact_up_to_22 x n :
  int_float x n ->
  (n < 0 ->
   forall fuel, factorial fuel (VNumber x) = Some (Throw NegativeFactorial)) /\
  (n = 0 \/ n = 1 ->
   forall fuel, factorial fuel (VNumber x) = Some (Return (VNumber (B64.of_Z 1)))) /\
  (0 <= n <= 22 ->
   forall fuel, (Z.to_nat n <= fuel)%nat ->
   exists r, factorial fuel (VNumber x) = Some (Return (VNumber r)) /\
             int_float r (fact (Z.to_nat n))).
Proof.
  intros Hx. split; [|split].
  - intros Hn fuel. unfold factorial.
    rewrite (validateInteger_int_float x n Hx), (negative_int_float x n Hx Hn).
    reflexivity.
  - intros [-> | ->] fuel.
    + destruct (int_float_zero x Hx) as [s ->]. destruct s; reflexivity.
    + rewrite (int_float_is_of_Z x 1 Hx); [reflexivity|lia|].
      change (2 ^ 53) with 9007199254740992. simpl. lia.
  - intros Hn fuel Hfuel.
    destruct (Z.eq_dec n 0) as [->|Hnz].
    + destruct (int_float_zero x Hx) as [s ->].
      exists (B64.of_Z 1). split; [destruct s; reflexivity|exact int_float_of_Z_1].
    + assert (Hb : Z.abs n <= 2 ^ 53) by (change (2 ^ 53) with 9007199254740992; lia).
      rewrite (int_float_is_of_Z x n Hx Hnz Hb).
      pose proof check_factorial_22 as Hc. rewrite forallb_forall in Hc.
      specialize (Hc (Z.to_nat n)). unfold check_factorial in Hc.
      rewrite Z2Nat.id in Hc by lia.
      destruct (returns_integer_inv _ _ (Hc ltac:(apply in_seq; lia)))
        as (r & Hr & Hint).
      exists r. split; [|exact Hint].
      apply (factorial_mono _ _ _ _ Hr Hfuel).
Qed.

(** C4, as the code has it: for every integer [n], given as the Number
    [x] that denotes it, [fibonacci] fails with [NegativeIndex] when
    [n < 0], and for [0 <= n <= 78] returns the Number that denotes
    exactly the [n]-th term of [F(0)=0, F(1)=1, F(k)=F(k-1)+F(k-2)] (the
    loop finishes within [n] tests). *)
Theorem fibonacci_exact_up_to_78 x n :
  int_float x n ->
  (n < 0 ->
   forall fuel, fibonacci fuel (VNumber x) = Some (Throw NegativeIndex)) /\
  (0 <= n <= 78 ->
   forall fuel, (Z.to_nat n <= fuel)%nat ->
   exists r, fibonacci fuel (VNumber x) = Some (Return (VNumber r)) /\
             int_float r (fib (Z.to_nat n))).
Proof.
  intros Hx. split.
  - intros Hn fuel. unfold fibonacci.
    rewrite (validateInteger_int_float x n Hx), (negative_int_float x n Hx Hn).
    reflexivity.
  - intros Hn fuel Hfuel.
    destruct (Z.eq_dec n 0) as [->|Hnz].
    + destruct (int_float_zero x Hx) as [s ->].
      exists (B64.of_Z 0). split; [destruct s; reflexivity|exact int_float_of_Z_0].
    + assert (Hb : Z.abs n <= 2 ^ 53) by (change (2 ^ 53) with 9007199254740992; lia).
      rewrite (int_float_is_of_Z x n Hx Hnz Hb).
      pose proof check_fibonacci_78 as Hc. rewrite forallb_forall in Hc.
      specialize (Hc (Z.to_nat n)). unfold check_fibonacci in Hc.
      rewrite Z2Nat.id in Hc by lia.
      destruct (returns_integer_inv _ _ (Hc ltac:(apply in_seq; lia)))
        as (r & Hr & Hint).
      exists r. split; [|exact Hint].
      apply (fibonacci_mono _ _ _ _ Hr Hfuel).
Qed.

(** C3, counterexample to the claim as stated: [factorial(23)] returns the
    Number 25852016738884978212864, which is not 23!. *)
Lemma factorial_23_is_rounded :
  int_float (B64.of_Z 23) 23 /\
  exists r, factorial 23 (VNumber (B64.of_Z 23)) = Some (Return (VNumber r)) /\
            int_float r 25852016738884978212864 /\
            fact 23 = 25852016738884976640000 /\
            ~ int_float r (fact 23).
Proof.
  split; [split; reflexivity|].
  eexists. split; [vm_compute; reflexivity|].
  split; [split; vm_compute; reflexivity|]. split; [reflexivity|].
  intros [_ H]. vm_compute in H. discriminate.
Qed.

(** C4, counterexample to the claim as stated: [fibonacci(79)] returns the
    Number 14472334024676220, while F(79) = 14472334024676221. *)
Lemma fibonacci_79_is_rounded :
  int_float (B64.of_Z 79) 79 /\
  exists r, fibonacci 79 (VNumber (B64.of_Z 79)) = Some (Return (VNumber r)) /\
            int_float r 14472334024676220 /\
            fib 79 = 14472334024676221 /\
            ~ int_float r (fib 79).
Proof.
  split; [split; reflexivity|].
  eexists. split; [vm_compute; reflexivity|].
  split; [split; vm_compute; reflexivity|]. split; [reflexivity|].
  intros [_ H]. vm_compute in H. discriminate.
Qed.

Lemma isPrime_correct_witness :
  exists b,
    isPrime 17 (VNumber (B64.of_Z 17)) = Some (Return (VBool b)) /\
    (b = true <-> Z.prime 17) /\
    b = trial_division 17 /\
    (17 < 2 -> b = false) /\
    (17 = 2 -> b = true) /\
    (2 < 17 -> Z.even 17 = true -> b = false) /\
    (3 <= 17 -> Z.odd 17 = true -> (b = false <-> odd_divisor_upto_sqrt 17)).
Proof.
  apply (isPrime_correct (B64.of_Z 17) 17); [split; reflexivity|lia|simpl; lia].
Defined.

Lemma factorial_exact_up_to_22_witness :
  (5 < 0 ->
   forall fuel, factorial fuel (VNumber (B64.of_Z 5)) = Some (Throw NegativeFactorial)) /\
  (5 = 0 \/ 5 = 1 ->
   forall fuel, factorial fuel (VNumber (B64.of_Z 5))
                = Some (Return (VNumber (B64.of_Z 1)))) /\
  (0 <= 5 <= 22 ->
   forall fuel, (Z.to_nat 5 <= fuel)%nat ->
   exists r, factorial fuel (VNumber (B64.of_Z 5)) = Some (Return (VNumber r)) /\
             int_float r (fact (Z.to_nat 5))).
Proof. apply (factorial_exact_up_to_22 (B64.of_Z 5) 5). split; reflexivity. Defined.

Lemma fibonacci_exact_up_to_78_witness :
  (6 < 0 ->
   forall fuel, fibonacci fuel (VNumber (B64.of_Z 6)) = Some (Throw NegativeIndex)) /\
  (0 <= 6 <= 78 ->
   forall fuel, (Z.to_nat 6 <= fuel)%nat ->
   exists r, fibonacci fuel (VNumber (B64.of_Z 6)) = Some (Return (VNumber r)) /\
             int_float r (fib (Z.to_nat 6))).
Proof. apply (fibonacci_exact_up_to_78 (B64.of_Z 6) 6). split; reflexivity. Defined.

(** ** Statistics *)

(** *** Validation of sequences *)

Lemma validateNumbers_cons v elems :
  validateNumbers (v :: elems) =
  x ← validateNumber v; xs ← validateNumbers elems; Return (x :: xs).
Proof. reflexivity. Qed.

Lemma validateNumbers_numbers xs :
  Forall valid_number xs -> validateNumbers (VNumber <$> xs) = Return xs.
Proof.
  induction 1 as [|x xs Hx _ IH]; [reflexivity|].
  rewrite fmap_cons, validateNumbers_cons. cbn [validateNumber].
  unfold valid_number in Hx. rewrite Hx. cbn. rewrite IH. reflexivity.
Qed.

(** The elements are validated from left to right, and the first one
    that is not accepted decides how the call ends. *)
Lemma validateNumbers_first_invalid xs v rest :
  Forall valid_number xs -> ~ accepted v ->
  validateNumbers ((VNumber <$> xs) ++ v :: rest) = rejection v.
Proof.
  intros Hxs Hv. induction Hxs as [|x xs Hx _ IH].
  - cbn [fmap list_fmap app]. rewrite validateNumbers_cons.
    rewrite (validateNumber_rejection v Hv). apply rejection_bind.
  - rewrite fmap_cons. cbn [app]. rewrite validateNumbers_cons.
    cbn [validateNumber]. unfold valid_number in Hx. rewrite Hx. cbn.
    rewrite IH. apply rejection_bind.
Qed.

(** Every sequence of values is a run of accepted Numbers, followed or
    not by a first value that is not accepted. *)
Lemma accepted_prefix (vs : list value) :
  (exists xs, vs = VNumber <$> xs /\ Forall valid_number xs) \/
  (exists xs v rest, vs = (VNumber <$> xs) ++ v :: rest /\
                     Forall valid_number xs /\ ~ accepted v).
Proof.
  induction vs as [|v vs IH]; [left; exists []; split; [reflexivity|constructor]|].
  destruct (validateNumber_cases v) as [(x & -> & Hx & _)|[Hv _]].
  - destruct IH as [(xs & -> & Hxs)|(xs & w & rest & -> & Hxs & Hw)].
    + left. exists (x :: xs). split; [reflexivity|constructor; assumption].
    + right. exists (x :: xs), w, rest.
      split; [reflexivity|]. split; [constructor; assumption|exact Hw].
  - right. exists [], v, vs. split; [reflexivity|]. split; [constructor|exact Hv].
Qed.

Lemma present_number_array xs : present (number_array xs) = VNumber <$> xs.
Proof.
  unfold present, number_array. induction xs as [|x xs IH]; [reflexivity|].
  cbn. f_equal. exact IH.
Qed.

Lemma spread_number_array xs : spread (number_array xs) = VNumber <$> xs.
Proof.
  unfold spread, number_array. induction xs as [|x xs IH]; [reflexivity|].
  cbn. f_equal. exact IH.
Qed.

Lemma length_number_array xs : length (number_array xs) = length xs.
Proof. unfold number_array. rewrite !length_fmap. reflexivity. Qed.

(** *** Order on Numbers and sorting *)

Lemma number_leb x y :
  number x -> number y -> B64.leb x y = (scaled x <=? scaled y).
Proof.
  intros [Wx Vx] [Wy Vy]. unfold B64.leb, SFleb.
  rewrite compare_scaled by assumption.
  unfold Z.leb. destruct (_ ?= _); reflexivity.
Qed.

Lemma number_ltb x y :
  number x -> number y -> B64.ltb x y = (scaled x <? scaled y).
Proof.
  intros [Wx Vx] [Wy Vy]. unfold B64.ltb, SFltb.
  rewrite compare_scaled by assumption.
  unfold Z.ltb. destruct (_ ?= _); reflexivity.
Qed.

Lemma num_le_scaled x y :
  number x -> number y -> (num_le x y <-> scaled x <= scaled y).
Proof.
  intros Hx Hy. unfold num_le. rewrite number_leb by assumption.
  apply Z.leb_le.
Qed.

(** The comparator [(a, b) => a - b] is positive exactly when [b < a]. *)
Lemma compareFn_positive x y :
  number x -> number y ->
  B64.ltb (B64.of_Z 0) (B64.sub x y) = (scaled y <? scaled x).
Proof.
  intros Hx Hy. rewrite sub_sign; try apply Hx; try apply Hy.
  apply number_ltb; assumption.
Qed.

Section SortFacts.
Let cmp := fun a b : float => B64.sub a b.

Lemma sort_insert_Permutation x l : sort_insert cmp x l ≡ₚ x :: l.
Proof.
  induction l as [|y l IH]; [reflexivity|]. cbn [sort_insert].
  destruct (B64.ltb _ _); [|reflexivity].
  rewrite IH. apply Permutation_swap.
Qed.

Lemma array_sort_Permutation l : array_sort cmp l ≡ₚ l.
Proof.
  induction l as [|x l IH]; [reflexivity|].
  change (array_sort cmp (x :: l)) with (sort_insert cmp x (array_sort cmp l)).
  rewrite sort_insert_Permutation, IH. reflexivity.
Qed.

Lemma sort_insert_sorted x l :
  number x -> Forall number l -> StronglySorted num_le l ->
  StronglySorted num_le (sort_insert cmp x l).
Proof.
  intros Hx Hl Hs. induction Hs as [|y l Hs IH Hy]; cbn [sort_insert].
  - repeat constructor.
  - apply Forall_cons in Hl as [Hny Hl]. unfold cmp at 1.
    rewrite compareFn_positive by assumption.
    destruct (Z.ltb_spec (scaled y) (scaled x)) as [Hlt|Hge].
    + constructor; [apply IH; assumption|].
      rewrite sort_insert_Permutation. constructor; [|assumption].
      apply num_le_scaled; [assumption..|lia].
    + constructor; [constructor; assumption|].
      constructor; [apply num_le_scaled; assumption|].
      rewrite Forall_forall in Hy, Hl |- *. intros z Hz.
      apply num_le_scaled; [assumption|apply Hl, Hz|].
      specialize (Hy z Hz). apply num_le_scaled in Hy; [lia|assumption|apply Hl, Hz].
Qed.

Lemma array_sort_sorted l :
  Forall number l -> StronglySorted num_le (array_sort cmp l).
Proof.
  induction 1 as [|x l Hx Hl IH]; [constructor|].
  change (array_sort cmp (x :: l)) with (sort_insert cmp x (array_sort cmp l)).
  apply sort_insert_sorted; try assumption.
  rewrite array_sort_Permutation. assumption.
Qed.
End SortFacts.

Lemma array_at_dense l (i : nat) :
  (i < length l)%nat ->
  array_at (Some <$> l) (Z.of_nat i) = Some (nth i l B64.NaN).
Proof.
  intros Hi. unfold array_at. destruct (Z.ltb_spec (Z.of_nat i) 0); [lia|].
  rewrite Nat2Z.id, list_lookup_fmap, nth_lookup.
  destruct (lookup_lt_is_Some_2 l i Hi) as [x ->]. reflexivity.
Qed.

(** The expression [median] returns, on a sorted copy without
    [undefined] elements. *)
Lemma median_pick sorted :
  sorted <> [] ->
  (if Z.of_nat (length (Some <$> sorted)) mod 2 =? 0
   then VNumber
          (B64.div
             (B64.add
                (as_number (array_at (Some <$> sorted)
                              (Z.of_nat (length (Some <$> sorted)) / 2 - 1)))
                (as_number (array_at (Some <$> sorted)
                              (Z.of_nat (length (Some <$> sorted)) / 2))))
             (B64.of_Z 2))
   else as_value (array_at (Some <$> sorted)
                    (Z.of_nat (length (Some <$> sorted)) / 2)))
  = VNumber (median_of_sorted sorted).
Proof.
  intros Hne. unfold median_of_sorted. rewrite length_fmap.
  set (n := length sorted).
  assert (Hn : (0 < n)%nat) by (unfold n; destruct sorted; [congruence|simpl; lia]).
  assert (Hmid : Z.of_nat n / 2 = Z.of_nat (n / 2)) by (rewrite Nat2Z.inj_div; reflexivity).
  assert (Hhalf : (n / 2 < n)%nat) by (apply Nat.div_lt; lia).
  rewrite Hmid, <- Nat.negb_even.
  destruct (Z.eqb_spec (Z.of_nat n mod 2) 0) as [E|E].
  - assert (Nat.even n = true) as ->.
    { apply Nat.even_spec. exists (n / 2)%nat.
      pose proof (Nat.div_mod_eq n 2).
      assert (n mod 2 = 0)%nat; [|lia].
      apply Nat2Z.inj. rewrite Nat2Z.inj_mod. exact E. }
    cbn [negb].
    assert (1 <= n / 2)%nat.
    { apply Nat.div_le_lower_bound; [lia|].
      assert (n <> 1)%nat; [|lia]. intros E1. rewrite E1 in E. discriminate. }
    replace (Z.of_nat (n / 2) - 1) with (Z.of_nat (n / 2 - 1)) by lia.
    rewrite !array_at_dense by (fold n; lia). reflexivity.
  - assert (Nat.even n = false) as ->.
    { destruct (Nat.even n) eqn:Ev; [exfalso|reflexivity].
      apply Nat.even_spec in Ev as [k Hk]. apply E.
      rewrite Hk, Nat2Z.inj_mul, Z.mul_comm. apply Z.mod_mul. lia. }
    cbn [negb]. rewrite array_at_dense by (fold n; lia). reflexivity.
Qed.

(** *** Sums *)

Lemma reduce_sum_float_sum xs : reduce_sum xs = float_sum xs.
Proof.
  unfold reduce_sum, float_sum. symmetry.
  apply (fold_left_rev_right (fun x acc => B64.add acc x) xs (B64.of_Z 0)).
Qed.

Lemma fold_left_add_exact xs Xs :
  Forall2 int_float xs Xs ->
  forall acc A, int_float acc A -> Z.abs A + Zsum (Z.abs <$> Xs) <= 2 ^ 53 ->
  int_float (fold_left B64.add xs acc) (A + Zsum Xs).
Proof.
  induction 1 as [|x X xs Xs Hx _ IH]; intros acc A Hacc Hb.
  - cbn. rewrite Z.add_0_r. exact Hacc.
  - cbn [fold_left]. rewrite fmap_cons in Hb. cbn [Zsum foldr] in *.
    fold (Zsum Xs). fold (Zsum (Z.abs <$> Xs)) in Hb.
    rewrite Z.add_assoc. apply IH.
    + apply int_float_add; [assumption..|].
      assert (0 <= Zsum (Z.abs <$> Xs)).
      { clear. induction Xs as [|Y Xs IH]; cbn; [lia|].
        fold (Zsum (Z.abs <$> Xs)). lia. }
      lia.
    + lia.
Qed.

Lemma float_sum_exact xs Xs :
  Forall2 int_float xs Xs -> Zsum (Z.abs <$> Xs) <= 2 ^ 53 ->
  int_float (float_sum xs) (Zsum Xs).
Proof.
  intros H Hb. rewrite <- reduce_sum_float_sum. unfold reduce_sum.
  apply (fold_left_add_exact xs Xs H (B64.of_Z 0) 0 int_float_of_Z_0). exact Hb.
Qed.


(** What [median] does on a non-empty array of accepted Numbers without
    holes: the copy is allocated, sorted in place, and the median of the
    sorted copy is returned. *)
Lemma median_dense st numbers xs :
  isArray st numbers = Some (number_array xs) -> xs <> [] ->
  Forall valid_number xs ->
  median st numbers =
  Return (VNumber (median_of_sorted (array_sort (fun a b => B64.sub a b) xs)),
          <[fresh (dom st) :=
              OArray (number_array (array_sort (fun a b => B64.sub a b) xs))]>
            (<[fresh (dom st) := OArray (number_array xs)]> st)).
Proof.
  intros Harr Hne Hv. unfold median. rewrite Harr.
  assert (Hlen : (length (number_array xs) =? 0)%nat = false)
    by (destruct xs; [congruence|reflexivity]).
  rewrite Hlen, present_number_array, (validateNumbers_numbers xs Hv).
  cbn [mbind completion_bind]. cbv zeta.
  rewrite spread_number_array, length_number_array, Nat.sub_diag.
  cbn [replicate]. rewrite app_nil_r.
  set (sorted := array_sort (fun a b => B64.sub a b) xs).
  assert (Hs : sorted <> []).
  { intros E. pose proof (array_sort_Permutation xs) as Hp. fold sorted in Hp.
    rewrite E in Hp. apply Permutation_nil_l in Hp. congruence. }
  assert (Ev : as_value <$> (Some <$> sorted) = VNumber <$> sorted).
  { clear. induction sorted as [|x l IH]; [reflexivity|]. cbn. f_equal. exact IH. }
  rewrite Ev. fold (number_array sorted). fold (number_array xs).
  pose proof (median_pick sorted Hs) as Hpick.
  destruct (Z.of_nat (length (Some <$> sorted)) mod 2 =? 0);
    rewrite Hpick; reflexivity.
Qed.

(** ** Square roots *)

Lemma number_zero : number (B64.of_Z 0).
Proof. split; reflexivity. Qed.

(** C7: on a valid Number, [squareRoot] fails with [NegativeRadicand]
    exactly when the Number is negative.  Otherwise it returns
    [Math.sqrt] of it, a valid Number that is not negative: a zero or
    [+Infinity] is returned unchanged, and for a positive finite Number
    the result is a binary64 neighbour of the exact root, within relative
    error 2^-52 of it. *)
Theorem squareRoot_negative_radicand_iff (x : float) :
  number x ->
  (squareRoot (VNumber x) = Throw NegativeRadicand <-> scaled x < 0) /\
  (0 <= scaled x ->
   squareRoot (VNumber x) = Return (VNumber (B64.sqrt x)) /\
   number (B64.sqrt x) /\ 0 <= scaled (B64.sqrt x) /\
   (is_zero x -> B64.sqrt x = x) /\
   (x = B64.pInf -> B64.sqrt x = B64.pInf) /\
   (B64.is_finite x = true -> 0 < scaled x ->
    exists g, 0 < g /\ 2 ^ 52 * g <= scaled (B64.sqrt x) /\
      (scaled (B64.sqrt x) - g) * (scaled (B64.sqrt x) - g) <= scaled x * 2 ^ 1074 /\
      scaled x * 2 ^ 1074 < (scaled (B64.sqrt x) + g) * (scaled (B64.sqrt x) + g))).
Proof.
  intros Hx. pose proof Hx as [W V].
  assert (Hlt : B64.ltb x (B64.of_Z 0) = (scaled x <? 0))
    by (apply (number_ltb x (B64.of_Z 0) Hx number_zero)).
  unfold squareRoot. cbn [validateNumber]. unfold valid_number in V. rewrite V.
  cbn [mbind completion_bind]. rewrite Hlt.
  assert (P : 0 < 2 ^ 2098) by (apply pow2_pos; lia).
  split.
  - destruct (Z.ltb_spec (scaled x) 0); split; try discriminate; auto; lia.
  - intros H0. destruct (Z.ltb_spec (scaled x) 0) as [|_]; [lia|].
    split; [reflexivity|].
    destruct x as [s|[]| |[] m e]; try discriminate.
    + repeat split; try discriminate; cbn [scaled]; lia.
    + unfold B64.sqrt. cbn [SFsqrt scaled cond_Zopp].
      repeat split; try discriminate; try lia.
    + destruct (sqrt_faithful m e W) as (Wr & Fr & g & Hg & H52 & Hlo & Hhi).
      assert (0 < 2 ^ 52) by (apply pow2_pos; lia).
      assert (0 <= 2 ^ 52 * g) by (apply Z.mul_nonneg_nonneg; lia).
      split; [split; [exact Wr|apply finite_not_nan; exact Fr]|].
      split; [lia|]. split; [intros [s [=]]|]. split; [discriminate|].
      intros _ _. exists g. auto.
Qed.

Lemma squareRoot_negative_radicand_iff_witness :
  (squareRoot (VNumber (B64.of_Z (-1))) = Throw NegativeRadicand
   <-> scaled (B64.of_Z (-1)) < 0) /\
  squareRoot (VNumber (B64.of_Z 16)) = Return (VNumber (B64.of_Z 4)).
Proof.
  split.
  - apply (squareRoot_negative_radicand_iff (B64.of_Z (-1))). split; reflexivity.
  - pose proof (squareRoot_negative_radicand_iff (B64.of_Z 16)
                  ltac:(split; reflexivity)) as [_ H].
    destruct H as [-> _]; [vm_compute; discriminate|reflexivity].
Defined.

(** ** The assertions of [runTests]

    The source ships a test suite; each assertion evaluates to the
    expected value in the model.  [B64.of_Z z] is the literal [z], and 2.5
    is 5629499534213120 * 2^-51. *)

Example test_basic_operations :
  add (VNumber (B64.of_Z 2)) (VNumber (B64.of_Z 3)) = Return (VNumber (B64.of_Z 5)) /\
  add (VNumber (B64.of_Z (-1))) (VNumber (B64.of_Z 1)) = Return (VNumber (B64.of_Z 0)) /\
  subtract (VNumber (B64.of_Z 5)) (VNumber (B64.of_Z 3)) = Return (VNumber (B64.of_Z 2)) /\
  subtract (VNumber (B64.of_Z 10)) (VNumber (B64.of_Z 10)) = Return (VNumber (B64.of_Z 0)) /\
  multiply (VNumber (B64.of_Z 2)) (VNumber (B64.of_Z 3)) = Return (VNumber (B64.of_Z 6)) /\
  multiply (VNumber (B64.of_Z (-2))) (VNumber (B64.of_Z 3)) = Return (VNumber (B64.of_Z (-6))) /\
  divide (VNumber (B64.of_Z 6)) (VNumber (B64.of_Z 3)) = Return (VNumber (B64.of_Z 2)) /\
  divide (VNumber (B64.of_Z 10)) (VNumber (B64.of_Z 2)) = Return (VNumber (B64.of_Z 5)) /\
  divide (VNumber (B64.of_Z 5)) (VNumber (B64.of_Z 0)) = Throw DivisionByZero.
Proof. repeat split; vm_compute; reflexivity. Qed.

Example test_integer_functions :
  factorial 5 (VNumber (B64.of_Z 5)) = Some (Return (VNumber (B64.of_Z 120))) /\
  factorial 0 (VNumber (B64.of_Z 0)) = Some (Return (VNumber (B64.of_Z 1))) /\
  isPrime 7 (VNumber (B64.of_Z 7)) = Some (Return (VBool true)) /\
  isPrime 4 (VNumber (B64.of_Z 4)) = Some (Return (VBool false)) /\
  isPrime 2 (VNumber (B64.of_Z 2)) = Some (Return (VBool true)) /\
  fibonacci 6 (VNumber (B64.of_Z 6)) = Some (Return (VNumber (B64.of_Z 8))) /\
  fibonacci 0 (VNumber (B64.of_Z 0)) = Some (Return (VNumber (B64.of_Z 0))) /\
  fibonacci 1 (VNumber (B64.of_Z 1)) = Some (Return (VNumber (B64.of_Z 1))).
Proof. repeat split; vm_compute; reflexivity. Qed.

Example test_statistical_functions :
  let array zs : store := {[ 1%positive := OArray (number_array (B64.of_Z <$> zs)) ]} in
  let numbers := VObject 1%positive ConvString in
  average (array [1; 2; 3; 4; 5]) numbers = Return (VNumber (B64.of_Z 3)) /\
  (exists st', median (array [1; 3; 2]) numbers
               = Return (VNumber (B64.of_Z 2), st')) /\
  (exists st', median (array [1; 2; 3; 4]) numbers
               = Return (VNumber (S754_finite false 5629499534213120 (-51)), st')).
Proof.
  split; [vm_compute; reflexivity|].
  split; eexists; vm_compute; reflexivity.
Qed.

(** Arrays with holes: [[1, , 3]] has length 3 and two elements.  The
    sum skips the hole and the length counts it; in the sorted copy the
    hole is an [undefined] at the end. *)
Example test_holes :
  let array elems : store := {[ 1%positive := OArray elems ]} in
  let numbers := VObject 1%positive ConvString in
  let one := Some (VNumber (B64.of_Z 1)) in
  let three := Some (VNumber (B64.of_Z 3)) in
  average (array [one; None; three]) numbers
  = Return (VNumber (B64.div (B64.of_Z 4) (B64.of_Z 3))) /\
  (exists st', median (array [one; None; three]) numbers
               = Return (VNumber (B64.of_Z 3), st')) /\
  (exists st', median (array [one; None; None]) numbers
               = Return (VUndefined, st')) /\
  (exists st', median (array [one; None]) numbers
               = Return (VNumber B64.NaN, st')).
Proof.
  split; [vm_compute; reflexivity|].
  repeat split; eexists; vm_compute; reflexivity.
Qed.

(** [%] on a few Numbers: the sign follows the dividend, and fractions are
    kept ([5.5 % 2] is [1.5]). *)
Example test_remainder :
  B64.rem (B64.of_Z 17) (B64.of_Z 5) = B64.of_Z 2 /\
  B64.rem (B64.of_Z (-17)) (B64.of_Z 5) = B64.of_Z (-2) /\
  B64.rem (B64.of_Z (-15)) (B64.of_Z 5) = S754_zero true /\
  B64.rem (B64.div (B64.of_Z 11) (B64.of_Z 2)) (B64.of_Z 2)
  = B64.div (B64.of_Z 3) (B64.of_Z 2).
Proof. repeat split; vm_compute; reflexivity. Qed.

(** ** Further properties of the module *)

(** Rounding an exactly representable value returns it. *)
Lemma binary_round_aux_exact s m e :
  0 < m -> -1074 <= e -> e <= fexp (Zdigits2 m + e) ->
  let V := m * 2 ^ (e + 1074) in
  (grid V | V) -> V < 2 ^ 2098 ->
  exists m' e',
    binary_round_aux B64.prec B64.emax s m e loc_Exact = S754_finite s m' e' /\
    B64.wf (S754_finite s m' e') /\
    Zpos m' * 2 ^ (e' + 1074) = V.
Proof.
  intros Hm He Hle V Hg HV.
  destruct (binary_round_aux_spec s m e loc_Exact ltac:(lia) Hle)
    as (m2 & _ & Hex & Hres).
  set (k := fexp (Zdigits2 m + e) - e) in *.
  assert (Hk : 0 <= k) by (unfold k; lia).
  assert (Pk := pow2_pos k Hk).
  assert (Pz := pow2_pos (e + 1074) ltac:(lia)).
  assert (HdV : Zdigits2 V - 1074 = Zdigits2 m + e).
  { unfold V. rewrite Zdigits2_mul_pow2 by lia. lia. }
  assert (Hgrid : grid V = 2 ^ k * 2 ^ (e + 1074)).
  { unfold grid. rewrite HdV, <- Z.pow_add_r by lia. f_equal. unfold k. lia. }
  assert (Hdiv : (2 ^ k | m)).
  { rewrite Hgrid in Hg. unfold V in Hg.
    apply Z.mul_divide_cancel_r in Hg; [assumption|lia]. }
  specialize (Hex eq_refl Hdiv). subst m2.
  destruct Hdiv as [c Hc].
  assert (Hq : m / 2 ^ k = c) by (rewrite Hc; apply Z.div_mul; lia).
  rewrite Hq in Hres.
  assert (0 < c).
  { destruct (Z.lt_ge_cases 0 c); [assumption|exfalso].
    assert (c * 2 ^ k <= 0) by (apply Z.mul_nonpos_nonneg; lia). lia. }
  destruct Hres as [[H0 _]|(m' & e' & Hm' & He' & Hcan & ->)]; [lia|].
  assert (Hv' : Zpos m' * 2 ^ (e' + 1074) = V).
  { unfold V. rewrite Hc, <- Hm'.
    rewrite <- !Z.mul_assoc, <- !Z.pow_add_r by lia. do 2 f_equal. lia. }
  assert (e' <= 971) by (eapply canonical_overflow; eauto; lia).
  exists m', e'.
  destruct (Z.leb_spec e' (B64.emax - B64.prec)) as [_|Hgt];
    [|unfold B64.emax, B64.prec in Hgt; lia].
  split; [reflexivity|]. split; [|exact Hv'].
  unfold B64.wf. cbn [valid_binary]. unfold bounded.
  apply andb_true_iff. split; [exact Hcan|apply Z.leb_le].
  unfold B64.emax, B64.prec. lia.
Qed.

(** The exponent of a non-zero integer Number. *)
Lemma int_float_exponent s m e N :
  int_float (S754_finite s m e) N ->
  N <> 0 /\ N = cond_Zopp s (Z.abs N) /\
  Zpos m * 2 ^ (e + 1074) = Z.abs N * 2 ^ 1074 /\
  Zdigits2 (Zpos m) + e = Zdigits2 (Z.abs N) /\ -52 <= e.
Proof.
  intros H. pose proof (int_float_scaled _ _ H) as Sc. destruct H as [W _].
  apply wf_finite_inv in W as (C & He & Hd & _).
  assert (S : 0 < 2 ^ 1074) by (apply pow2_pos; lia).
  assert (P : 0 < Zpos m * 2 ^ (e + 1074))
    by (apply Z.mul_pos_pos; [lia|apply pow2_pos; lia]).
  cbn [scaled] in Sc.
  assert (HN : N <> 0) by (intros ->; destruct s; cbn [cond_Zopp] in Sc; lia).
  assert (Hs : N = cond_Zopp s (Z.abs N)).
  { destruct s; cbn [cond_Zopp] in *.
    - assert (N < 0) by (destruct (Z.lt_ge_cases N 0); [assumption|nia]). lia.
    - assert (0 < N) by (destruct (Z.lt_ge_cases 0 N); [assumption|nia]). lia. }
  assert (Hv : Zpos m * 2 ^ (e + 1074) = Z.abs N * 2 ^ 1074).
  { rewrite Hs in Sc at 1. destruct s; cbn [cond_Zopp] in Sc; lia. }
  assert (HD : Zdigits2 (Zpos m) + e = Zdigits2 (Z.abs N)).
  { assert (E : Zdigits2 (Zpos m * 2 ^ (e + 1074)) = Zdigits2 (Z.abs N * 2 ^ 1074))
      by (rewrite Hv; reflexivity).
    rewrite !Zdigits2_mul_pow2 in E by lia. lia. }
  repeat split; try assumption.
  apply canonical_iff in C. rewrite HD in C.
  assert (1 <= Zdigits2 (Z.abs N)).
  { pose proof (Zdigits2_bounds (Z.abs N) ltac:(lia)) as [_ Hhi].
    pose proof (Zdigits2_nonneg (Z.abs N)).
    destruct (Z.eq_dec (Zdigits2 (Z.abs N)) 0) as [E|]; [|lia].
    rewrite E in Hhi. simpl in Hhi. lia. }
  fexp_lia.
Qed.

(** Multiplication is exact whenever the exact product of two integers is
    at most 2^53 in magnitude. *)
Lemma int_float_mul x y X Y :
  int_float x X -> int_float y Y -> Z.abs (X * Y) <= 2 ^ 53 ->
  int_float (B64.mul x y) (X * Y).
Proof.
  intros Hx Hy Hb.
  pose proof (int_float_finite _ _ Hx) as Fx.
  pose proof (int_float_finite _ _ Hy) as Fy.
  assert (S : 0 < 2 ^ 1074) by (apply pow2_pos; lia).
  destruct x as [sx| | |sx mx ex]; try discriminate;
    destruct y as [sy| | |sy my ey]; try discriminate.
  - pose proof (int_float_scaled _ _ Hx) as Sx. cbn in Sx.
    assert (X = 0) as -> by lia. split; reflexivity.
  - pose proof (int_float_scaled _ _ Hx) as Sx. cbn [scaled] in Sx.
    assert (X = 0) as -> by lia. split; reflexivity.
  - pose proof (int_float_scaled _ _ Hy) as Sy. cbn [scaled] in Sy.
    assert (Y = 0) as -> by lia. rewrite Z.mul_0_r. split; reflexivity.
  - destruct (int_float_exponent _ _ _ _ Hx) as (HX & HsX & HvX & HdX & HeX).
    destruct (int_float_exponent _ _ _ _ Hy) as (HY & HsY & HvY & HdY & HeY).
    pose proof Hx as [Wx _]. pose proof Hy as [Wy _].
    apply wf_finite_inv in Wx as (_ & Hex & Hdx & _), Wy as (_ & Hey & Hdy & _).
    unfold B64.mul, SFmul.
    set (A := Z.abs X) in *. set (B := Z.abs Y) in *.
    assert (HA : 0 < A) by (unfold A; lia). assert (HB : 0 < B) by (unfold B; lia).
    assert (HAB : A * B <= 2 ^ 53) by (unfold A, B; rewrite <- Z.abs_mul; exact Hb).
    assert (Px := pow2_pos (ex + 1074) ltac:(lia)).
    assert (Py := pow2_pos (ey + 1074) ltac:(lia)).
    assert (Pe := pow2_pos (ex + ey + 1074) ltac:(lia)).
    assert (HV : Zpos (mx * my) * 2 ^ (ex + ey + 1074) = A * B * 2 ^ 1074).
    { apply (Z.mul_cancel_r _ _ (2 ^ 1074)); [lia|].
      transitivity (Zpos mx * 2 ^ (ex + 1074) * (Zpos my * 2 ^ (ey + 1074))).
      - rewrite Pos2Z.inj_mul.
        replace (2 ^ (ex + 1074) ) with (2 ^ (ex + 1074)) by reflexivity.
        assert (E : 2 ^ (ex + ey + 1074) * 2 ^ 1074
                    = 2 ^ (ex + 1074) * 2 ^ (ey + 1074)).
        { rewrite <- !Z.pow_add_r by lia. f_equal. lia. }
        rewrite <- Z.mul_assoc, E. ring.
      - rewrite HvX, HvY. ring. }
    assert (HD : Zdigits2 (Zpos (mx * my)) + (ex + ey) = Zdigits2 (A * B)).
    { assert (E : Zdigits2 (Zpos (mx * my) * 2 ^ (ex + ey + 1074))
                  = Zdigits2 (A * B * 2 ^ 1074)) by (rewrite HV; reflexivity).
      rewrite !Zdigits2_mul_pow2 in E by lia. lia. }
    assert (Hdlo : Zdigits2 A + Zdigits2 B - 1 <= Zdigits2 (A * B)).
    { pose proof (Zdigits2_bounds A HA) as [Alo _].
      pose proof (Zdigits2_bounds B HB) as [Blo _].
      pose proof (Zdigits2_bounds (A * B) ltac:(lia)) as [_ ABhi].
      pose proof (Zdigits2_nonneg (A * B)).
      assert (1 <= Zdigits2 A).
      { pose proof (Zdigits2_bounds A HA) as [_ Hhi].
        pose proof (Zdigits2_nonneg A).
        destruct (Z.eq_dec (Zdigits2 A) 0) as [E|]; [|lia].
        rewrite E in Hhi. simpl in Hhi. lia. }
      assert (1 <= Zdigits2 B).
      { pose proof (Zdigits2_bounds B HB) as [_ Hhi].
        pose proof (Zdigits2_nonneg B).
        destruct (Z.eq_dec (Zdigits2 B) 0) as [E|]; [|lia].
        rewrite E in Hhi. simpl in Hhi. lia. }
      assert (2 ^ (Zdigits2 A - 1 + (Zdigits2 B - 1)) <= A * B).
      { rewrite Z.pow_add_r by lia.
        apply Z.mul_le_mono_nonneg; try lia; apply Z.lt_le_incl, pow2_pos; lia. }
      destruct (Z.le_gt_cases (Zdigits2 A + Zdigits2 B - 1) (Zdigits2 (A * B)));
        [assumption|exfalso].
      assert (2 ^ Zdigits2 (A * B) <= 2 ^ (Zdigits2 A - 1 + (Zdigits2 B - 1)))
        by (apply Z.pow_le_mono_r; lia).
      lia. }
    assert (Hpre : ex + ey <= fexp (Zdigits2 (Zpos (mx * my)) + (ex + ey))).
    { rewrite HD. rewrite <- HdX, <- HdY in Hdlo.
      pose proof Hx as [Wx _]. pose proof Hy as [Wy _].
      apply wf_finite_inv in Wx as (Cx & _ & _ & Nx), Wy as (Cy & _ & _ & Ny).
      specialize (Nx ltac:(lia)). specialize (Ny ltac:(lia)). fexp_lia. }
    destruct (binary_round_aux_exact (xorb sx sy) (Zpos (mx * my)) (ex + ey)
                ltac:(lia) ltac:(lia) Hpre) as (m' & e' & -> & W & Hv).
    + rewrite HV. replace (A * B) with (Z.abs (X * Y)) by (rewrite Z.abs_mul; reflexivity).
      apply int_representable. exact Hb.
    + rewrite HV.
      assert (2 ^ 53 * 2 ^ 1074 < 2 ^ 2098)
        by (rewrite <- Z.pow_add_r by lia; apply Z.pow_lt_mono_r; lia).
      assert (A * B * 2 ^ 1074 <= 2 ^ 53 * 2 ^ 1074)
        by (apply Z.mul_le_mono_nonneg_r; lia).
      lia.
    + apply int_float_intro; [exact W|reflexivity|].
      cbn [scaled]. rewrite Hv, HV.
      rewrite HsX, HsY. fold A B.
      destruct sx, sy; cbn [cond_Zopp xorb]; ring.
Qed.

Lemma sub_add_negate x y : B64.sub x y = B64.add x (negate y).
Proof.
  unfold B64.sub, B64.add, negate, SFsub, SFadd, SFopp.
  destruct x as [sx|sx| |sx mx ex], y as [sy|sy| |sy my ey];
    try reflexivity; destruct sx, sy; reflexivity.
Qed.

Lemma int_float_negate x X : int_float x X -> int_float (negate x) (- X).
Proof.
  intros [W H]. destruct x as [s| | |s m e]; try discriminate.
  - injection H as <-. split; reflexivity.
  - split; [exact W|]. cbn [negate SFopp B64.to_Z] in *.
    destruct (0 <=? e).
    + injection H as <-. f_equal. destruct s; cbn [cond_Zopp negb]; lia.
    + destruct (_ =? 0); [|discriminate].
      injection H as <-. f_equal. destruct s; cbn [cond_Zopp negb]; lia.
Qed.

Lemma int_float_sub x y X Y :
  int_float x X -> int_float y Y -> Z.abs (X - Y) <= 2 ^ 53 ->
  int_float (B64.sub x y) (X - Y).
Proof.
  intros Hx Hy Hb. rewrite sub_add_negate.
  replace (X - Y) with (X + - Y) by lia.
  apply int_float_add; [exact Hx|apply int_float_negate; exact Hy|].
  replace (X + - Y) with (X - Y) by lia. exact Hb.
Qed.

(** Every finite binary64 number lies on its own grid. *)
Lemma wf_representable x :
  B64.wf x -> B64.is_finite x = true ->
  (grid (Z.abs (scaled x)) | Z.abs (scaled x)).
Proof.
  intros W F. destruct x as [s| | |s m e]; try discriminate.
  { simpl. exists 0. reflexivity. }
  apply wf_finite_inv in W as (C & He & _).
  assert (P : 0 < 2 ^ (e + 1074)) by (apply pow2_pos; lia).
  assert (E : Z.abs (scaled (S754_finite s m e)) = Zpos m * 2 ^ (e + 1074))
    by (destruct s; cbn [scaled cond_Zopp]; lia).
  rewrite E. unfold grid. rewrite Zdigits2_mul_pow2 by lia.
  replace (Zdigits2 (Zpos m) + (e + 1074) - 1074) with (Zdigits2 (Zpos m) + e) by lia.
  apply canonical_iff in C. rewrite C. exists (Zpos m). reflexivity.
Qed.

Lemma new_location_zero n : new_location n 0 = loc_Exact.
Proof.
  unfold new_location, new_location_even, new_location_odd.
  destruct (Z.even n); reflexivity.
Qed.

Lemma div_finite_unfold sx mx ex sy my ey :
  B64.div (S754_finite sx mx ex) (S754_finite sy my ey) =
  let e' := Z.min (fexp (Zdigits2 (Zpos mx) + ex - (Zdigits2 (Zpos my) + ey)))
                  (ex - ey) in
  let m' := match ex - ey - e' with
            | Zpos _ => Z.shiftl (Zpos mx) (ex - ey - e')
            | Z0 => Zpos mx
            | Zneg _ => 0
            end in
  binary_round_aux B64.prec B64.emax (xorb sx sy) (m' / Zpos my) e'
    (new_location (Zpos my) (m' mod Zpos my)).
Proof.
  unfold B64.div, SFdiv, SFdiv_core_binary. cbv zeta.
  change IntDef.Z.div_eucl with Z.div_eucl.
  unfold Z.div, Z.modulo.
  destruct (Z.div_eucl _ (Zpos my)) as [q r]. reflexivity.
Qed.

Lemma Zdigits2_pos a : 0 < a -> 1 <= Zdigits2 a.
Proof.
  intros Ha. pose proof (Zdigits2_bounds a Ha) as [_ Hhi].
  pose proof (Zdigits2_nonneg a).
  destruct (Z.eq_dec (Zdigits2 a) 0) as [E|]; [|lia].
  rewrite E in Hhi. simpl in Hhi. lia.
Qed.

Lemma Zdigits2_le a b : 0 < a -> a <= b -> Zdigits2 a <= Zdigits2 b.
Proof.
  intros Ha Hab. rewrite !Zdigits2_log2 by lia.
  pose proof (Z.log2_le_mono a b Hab). lia.
Qed.

Lemma Zdigits2_mul_le a b :
  0 < a -> 0 < b -> Zdigits2 (a * b) <= Zdigits2 a + Zdigits2 b.
Proof.
  intros Ha Hb.
  pose proof (Zdigits2_bounds a Ha) as [_ Ahi].
  pose proof (Zdigits2_bounds b Hb) as [_ Bhi].
  pose proof (Zdigits2_pos a Ha). pose proof (Zdigits2_pos b Hb).
  assert (Hab : 0 < a * b) by (apply Z.mul_pos_pos; assumption).
  pose proof (Zdigits2_bounds (a * b) Hab) as [ABlo _].
  destruct (Z.le_gt_cases (Zdigits2 (a * b)) (Zdigits2 a + Zdigits2 b));
    [assumption|exfalso].
  assert (2 ^ (Zdigits2 a + Zdigits2 b) <= 2 ^ (Zdigits2 (a * b) - 1))
    by (apply Z.pow_le_mono_r; lia).
  assert (a * b < 2 ^ Zdigits2 a * 2 ^ Zdigits2 b)
    by (apply Z.mul_lt_mono_nonneg; lia).
  rewrite <- Z.pow_add_r in * by lia. lia.
Qed.

(** Division is exact whenever the divisor divides the dividend and the
    quotient is at most 2^53 in magnitude. *)
Lemma int_float_div x y X Y :
  int_float x X -> int_float y Y -> Y <> 0 -> (Y | X) ->
  Z.abs (X / Y) <= 2 ^ 53 ->
  int_float (B64.div x y) (X / Y).
Proof.
  intros Hx Hy HY [Q HQ] Hb.
  assert (EQ : X / Y = Q) by (rewrite HQ; apply Z.div_mul; exact HY).
  rewrite EQ in *.
  pose proof (int_float_finite _ _ Hx) as Fx.
  pose proof (int_float_finite _ _ Hy) as Fy.
  assert (S : 0 < 2 ^ 1074) by (apply pow2_pos; lia).
  destruct y as [sy| | |sy my ey]; try discriminate.
  { pose proof (int_float_scaled _ _ Hy) as Sy. cbn [scaled] in Sy. lia. }
  destruct x as [sx| | |sx mx ex]; try discriminate.
  { pose proof (int_float_scaled _ _ Hx) as Sx. cbn [scaled] in Sx.
    assert (X = 0) by lia. assert (Q = 0) as -> by nia. split; reflexivity. }
  destruct (int_float_exponent _ _ _ _ Hx) as (HX & HsX & HvX & HdX & HeX).
  destruct (int_float_exponent _ _ _ _ Hy) as (_ & HsY & HvY & HdY & HeY).
  pose proof Hx as [Wx _]. pose proof Hy as [Wy _].
  apply wf_finite_inv in Wx as (_ & Hex & _), Wy as (_ & Hey & _).
  remember (Z.abs Q) as A eqn:EA. remember (Z.abs Y) as B eqn:EB.
  assert (HXA : Z.abs X = A * B) by (subst A B; rewrite HQ; apply Z.abs_mul).
  assert (HB : 0 < B) by lia.
  assert (HA : 0 < A) by (destruct (Z.eq_dec Q 0); [subst; lia|lia]).
  rewrite HXA in HvX, HdX.
  rewrite div_finite_unfold. cbv zeta.
  set (D := Zdigits2 (Zpos mx) + ex - (Zdigits2 (Zpos my) + ey)).
  assert (HD : D <= Zdigits2 A).
  { unfold D. rewrite HdX, HdY. pose proof (Zdigits2_mul_le A B HA HB). lia. }
  pose proof (Zdigits2_pos A HA) as HdA1.
  assert (HdA : Zdigits2 A <= 54).
  { destruct (Z.le_gt_cases (Zdigits2 A) 54); [assumption|exfalso].
    pose proof (Zdigits2_bounds A HA) as [Alo _].
    assert (2 ^ 54 <= 2 ^ (Zdigits2 A - 1)) by (apply Z.pow_le_mono_r; lia).
    assert (2 ^ 53 < 2 ^ 54) by (apply Z.pow_lt_mono_r; lia). lia. }
  set (e' := Z.min (fexp D) (ex - ey)).
  assert (He'lo : -1074 <= e') by (unfold e'; fexp_lia).
  assert (He'hi : e' <= fexp (Zdigits2 A)) by (unfold e'; fexp_lia).
  assert (Hs : 0 <= ex - ey - e') by (unfold e'; lia).
  set (m' := Zpos mx * 2 ^ (ex - ey - e')).
  assert (Em' : match ex - ey - e' with
                | 0 => Zpos mx
                | Zpos _ => Z.shiftl (Zpos mx) (ex - ey - e')
                | Zneg _ => 0
                end = m').
  { unfold m'. destruct (ex - ey - e') as [|p|p] eqn:E; [simpl; lia| |lia].
    rewrite Z.shiftl_mul_pow2 by lia. reflexivity. }
  rewrite Em'.
  assert (Pe := pow2_pos (e' + 1074) ltac:(lia)).
  assert (Py := pow2_pos (ey + 1074) ltac:(lia)).
  (* the quotient mantissa *)
  assert (HbQ : Z.abs Q <= 2 ^ 53) by (rewrite <- EA; exact Hb).
  destruct (int_representable Q HbQ) as [c0 Hc0]. rewrite <- EA in Hc0.
  assert (Hg : grid (A * 2 ^ 1074) = 2 ^ (fexp (Zdigits2 A) - e') * 2 ^ (e' + 1074)).
  { unfold grid. rewrite Zdigits2_mul_pow2 by lia.
    replace (Zdigits2 A + 1074 - 1074) with (Zdigits2 A) by lia.
    rewrite <- Z.pow_add_r by lia. f_equal. lia. }
  set (c := c0 * 2 ^ (fexp (Zdigits2 A) - e')).
  assert (Hc : c * 2 ^ (e' + 1074) = A * 2 ^ 1074).
  { unfold c. rewrite Hc0, Hg. ring. }
  assert (Hcpos : 0 < c).
  { destruct (Z.lt_ge_cases 0 c); [assumption|exfalso].
    assert (c * 2 ^ (e' + 1074) <= 0) by (apply Z.mul_nonpos_nonneg; lia).
    assert (0 < A * 2 ^ 1074) by (apply Z.mul_pos_pos; lia). lia. }
  assert (Hm' : m' = c * Zpos my).
  { apply (Z.mul_cancel_r _ _ (2 ^ (e' + 1074) * 2 ^ (ey + 1074))); [lia|].
    transitivity (Zpos mx * 2 ^ (ex + 1074) * 2 ^ 1074).
    - unfold m'. rewrite <- !Z.mul_assoc, <- !Z.pow_add_r by lia.
      do 2 f_equal. lia.
    - rewrite HvX.
      transitivity (c * 2 ^ (e' + 1074) * (Zpos my * 2 ^ (ey + 1074))); [|ring].
      rewrite Hc, HvY. ring. }
  rewrite Hm', Z.div_mul, Z.mod_mul, new_location_zero by lia.
  assert (Hdc : Zdigits2 c + e' = Zdigits2 A).
  { assert (E : Zdigits2 (c * 2 ^ (e' + 1074)) = Zdigits2 (A * 2 ^ 1074))
      by (rewrite Hc; reflexivity).
    rewrite !Zdigits2_mul_pow2 in E by lia. lia. }
  destruct (binary_round_aux_exact (xorb sx sy) c e' Hcpos He'lo
              ltac:(rewrite Hdc; exact He'hi)) as (mr & er & -> & W & Hv).
  - rewrite Hc, EA. apply int_representable. exact HbQ.
  - rewrite Hc.
    assert (2 ^ 53 * 2 ^ 1074 < 2 ^ 2098)
      by (rewrite <- Z.pow_add_r by lia; apply Z.pow_lt_mono_r; lia).
    assert (A * 2 ^ 1074 <= 2 ^ 53 * 2 ^ 1074)
      by (apply Z.mul_le_mono_nonneg_r; [lia|exact Hb]).
    lia.
  - apply int_float_intro; [exact W|reflexivity|].
    cbn [scaled]. rewrite Hv, Hc.
    assert (HQs : Q = cond_Zopp (xorb sx sy) A).
    { clear - HsX HsY HQ HXA HB EA. rewrite HsX, HsY, HXA in HQ.
      destruct sx, sy; cbn [cond_Zopp xorb] in *; nia. }
    rewrite HQs. destruct (xorb sx sy); cbn [cond_Zopp]; ring.
Qed.

Lemma Zdigits2_pow2 n : 0 <= n -> Zdigits2 (2 ^ n) = n + 1.
Proof.
  intros Hn. rewrite Zdigits2_log2 by (apply pow2_pos; lia).
  rewrite Z.log2_pow2 by lia. reflexivity.
Qed.

Lemma Zdigits2_square K :
  0 < K -> Z.div2 (Zdigits2 (K * K) + 1) = Zdigits2 K.
Proof.
  intros HK.
  pose proof (Zdigits2_pos K HK) as Hd.
  pose proof (Zdigits2_bounds K HK) as [Klo _].
  pose proof (Zdigits2_mul_le K K HK HK) as Hhi.
  assert (Hlo : 2 * Zdigits2 K - 1 <= Zdigits2 (K * K)).
  { assert (P : 0 < 2 ^ (Zdigits2 K - 1)) by (apply pow2_pos; lia).
    assert (H : 2 ^ (Zdigits2 K - 1) * 2 ^ (Zdigits2 K - 1) <= K * K)
      by (apply sq_le; lia).
    rewrite <- Z.pow_add_r in H by lia.
    assert (P2 : 0 < 2 ^ (Zdigits2 K - 1 + (Zdigits2 K - 1))) by (apply pow2_pos; lia).
    pose proof (Zdigits2_le _ _ P2 H) as H1.
    rewrite Zdigits2_pow2 in H1 by lia. lia. }
  rewrite Z.div2_div.
  pose proof (Z.div_mod (Zdigits2 (K * K) + 1) 2 ltac:(lia)).
  pose proof (Z.mod_pos_bound (Zdigits2 (K * K) + 1) 2 ltac:(lia)). lia.
Qed.

Lemma sqrtrem_square c : 0 <= c -> Z.sqrtrem (c * c) = (c, 0).
Proof.
  intros Hc.
  pose proof (Z.sqrtrem_spec (c * c) ltac:(apply Z.mul_nonneg_nonneg; lia)) as H.
  pose proof (Z.sqrtrem_sqrt (c * c)) as H1.
  rewrite Z.sqrt_square in H1 by lia.
  destruct (Z.sqrtrem (c * c)) as [s r]. cbn [fst] in H1. subst s.
  f_equal. lia.
Qed.

(** The square root of a perfect square is exact. *)
Lemma int_float_sqrt x K :
  int_float x (K * K) -> 0 <= K <= 2 ^ 53 -> int_float (B64.sqrt x) K.
Proof.
  intros Hx HK.
  destruct (Z.eq_dec K 0) as [->|HK0].
  { apply int_float_zero in Hx as [s ->]. split; reflexivity. }
  assert (HKpos : 0 < K) by lia.
  assert (HKK : 0 < K * K) by (apply Z.mul_pos_pos; lia).
  destruct (int_float_pos_inv x _ Hx HKK) as (mx & ex & -> & Hval).
  destruct (int_float_exponent _ _ _ _ Hx) as (_ & _ & _ & HdX & HeX).
  rewrite (Z.abs_eq (K * K)) in HdX by lia.
  assert (S : 0 < 2 ^ 1074) by (apply pow2_pos; lia).
  assert (Hx2 : 2 * Z.div2 ex <= ex <= 2 * Z.div2 ex + 1).
  { rewrite Z.div2_div.
    pose proof (Z.div_mod ex 2 ltac:(lia)).
    pose proof (Z.mod_pos_bound ex 2 ltac:(lia)). lia. }
  pose proof (Zdigits2_pos K HKpos) as HdK1.
  assert (HdK : Zdigits2 K <= 54).
  { destruct (Z.le_gt_cases (Zdigits2 K) 54); [assumption|exfalso].
    pose proof (Zdigits2_bounds K HKpos) as [Alo _].
    assert (2 ^ 54 <= 2 ^ (Zdigits2 K - 1)) by (apply Z.pow_le_mono_r; lia).
    assert (2 ^ 53 < 2 ^ 54) by (apply Z.pow_lt_mono_r; lia). lia. }
  rewrite sqrt_finite_unfold. cbv zeta.
  rewrite HdX, Zdigits2_square by exact HKpos.
  set (e' := Z.min (fexp (Zdigits2 K)) (Z.div2 ex)).
  assert (He'lo : -1074 <= e') by (unfold e'; fexp_lia).
  assert (He'hi : e' <= fexp (Zdigits2 K)) by (unfold e'; lia).
  assert (Hs : 0 <= ex - 2 * e') by (unfold e'; lia).
  set (m' := Zpos mx * 2 ^ (ex - 2 * e')).
  assert (Em' : match ex - 2 * e' with
                | 0 => Zpos mx
                | Zpos _ => Z.shiftl (Zpos mx) (ex - 2 * e')
                | Zneg _ => 0
                end = m').
  { unfold m'. destruct (ex - 2 * e') as [|p|p] eqn:E; [simpl; lia| |lia].
    rewrite Z.shiftl_mul_pow2 by lia. reflexivity. }
  rewrite Em'.
  assert (Pe := pow2_pos (e' + 1074) ltac:(lia)).
  assert (HbK : Z.abs K <= 2 ^ 53) by lia.
  destruct (int_representable K HbK) as [c0 Hc0].
  rewrite (Z.abs_eq K) in Hc0 by lia.
  assert (Hg : grid (K * 2 ^ 1074) = 2 ^ (fexp (Zdigits2 K) - e') * 2 ^ (e' + 1074)).
  { unfold grid. rewrite Zdigits2_mul_pow2 by lia.
    replace (Zdigits2 K + 1074 - 1074) with (Zdigits2 K) by lia.
    rewrite <- Z.pow_add_r by lia. f_equal. lia. }
  set (c := c0 * 2 ^ (fexp (Zdigits2 K) - e')).
  assert (Hc : c * 2 ^ (e' + 1074) = K * 2 ^ 1074).
  { unfold c. rewrite Hc0, Hg. ring. }
  assert (Hcpos : 0 < c).
  { destruct (Z.lt_ge_cases 0 c); [assumption|exfalso].
    assert (c * 2 ^ (e' + 1074) <= 0) by (apply Z.mul_nonpos_nonneg; lia).
    assert (0 < K * 2 ^ 1074) by (apply Z.mul_pos_pos; lia). lia. }
  assert (Hm' : m' = c * c).
  { apply (Z.mul_cancel_r _ _ (2 ^ (e' + 1074) * 2 ^ (e' + 1074))); [lia|].
    transitivity (Zpos mx * 2 ^ (ex + 1074) * 2 ^ 1074).
    - unfold m'. rewrite <- !Z.mul_assoc, <- !Z.pow_add_r by lia.
      do 2 f_equal. lia.
    - rewrite Hval.
      transitivity (c * 2 ^ (e' + 1074) * (c * 2 ^ (e' + 1074))); [|ring].
      rewrite Hc. ring. }
  rewrite Hm', sqrtrem_square by lia. cbn [Z.eqb].
  assert (Hdc : Zdigits2 c + e' = Zdigits2 K).
  { assert (E : Zdigits2 (c * 2 ^ (e' + 1074)) = Zdigits2 (K * 2 ^ 1074))
      by (rewrite Hc; reflexivity).
    rewrite !Zdigits2_mul_pow2 in E by lia. lia. }
  destruct (binary_round_aux_exact false c e' Hcpos He'lo
              ltac:(rewrite Hdc; exact He'hi)) as (mr & er & -> & W & Hv).
  - rewrite Hc. rewrite <- (Z.abs_eq K) by lia. apply int_representable. exact HbK.
  - rewrite Hc.
    assert (2 ^ 53 * 2 ^ 1074 < 2 ^ 2098)
      by (rewrite <- Z.pow_add_r by lia; apply Z.pow_lt_mono_r; lia).
    assert (K * 2 ^ 1074 <= 2 ^ 53 * 2 ^ 1074)
      by (apply Z.mul_le_mono_nonneg_r; lia).
    lia.
  - apply int_float_intro; [exact W|reflexivity|].
    cbn [scaled cond_Zopp]. rewrite Hv, Hc. reflexivity.
Qed.

Lemma int_float_leb x y X Y :
  int_float x X -> int_float y Y -> B64.leb x y = (X <=? Y).
Proof.
  intros Hx Hy. unfold B64.leb, SFleb. rewrite (int_float_compare x y X Y Hx Hy).
  unfold Z.leb. destruct (X ?= Y); reflexivity.
Qed.

Lemma pow2_53_pos : 0 < 2 ^ 53.
Proof. reflexivity. Qed.

(** [i++] on a loop counter: exact below 2^53, and stuck at 2^53. *)
Lemma increment_exact i I :
  int_float i I -> 0 <= I < 2 ^ 53 -> int_float (B64.add i (B64.of_Z 1)) (I + 1).
Proof.
  intros Hi HI. apply int_float_add; [exact Hi|exact int_float_of_Z_1|lia].
Qed.

Lemma increment_stuck i :
  int_float i (2 ^ 53) -> B64.add i (B64.of_Z 1) = i.
Proof.
  intros Hi.
  rewrite (int_float_is_of_Z i (2 ^ 53) Hi); [|discriminate|discriminate].
  vm_compute. reflexivity.
Qed.

Lemma fact_float_1 : fact_float 1 = B64.of_Z 1.
Proof. vm_compute. reflexivity. Qed.

Lemma factorial_loop_run n N :
  int_float n N -> N < 2 ^ 53 ->
  forall fuel i I,
    int_float i I -> 2 <= I <= N + 1 -> (Z.to_nat (N + 2 - I) <= fuel)%nat ->
    factorial_loop fuel n i (fact_float (Z.to_nat (I - 1))) =
    Some (fact_float (Z.to_nat N)).
Proof.
  intros Hn HN fuel. induction fuel as [|fuel IH]; intros i I Hi HI Hfuel; [lia|].
  cbn [factorial_loop]. rewrite (int_float_leb i n I N Hi Hn).
  destruct (Z.leb_spec I N) as [Hle|Hgt].
  - assert (Ei : i = B64.of_Z I) by (apply (int_float_is_of_Z i I Hi); lia).
    replace (B64.mul (fact_float (Z.to_nat (I - 1))) i)
      with (fact_float (Z.to_nat (I + 1 - 1))).
    + apply IH; [apply increment_exact; [exact Hi|lia]|lia|lia].
    + replace (Z.to_nat (I + 1 - 1)) with (S (Z.to_nat (I - 1))) by lia.
      cbn [fact_float]. rewrite Ei. do 2 f_equal. lia.
  - do 2 f_equal. lia.
Qed.

Lemma factorial_loop_diverges n N :
  int_float n N -> 2 ^ 53 <= N ->
  forall fuel i I result,
    int_float i I -> 0 <= I <= 2 ^ 53 ->
    factorial_loop fuel n i result = None.
Proof.
  intros Hn HN fuel. induction fuel as [|fuel IH]; intros i I result Hi HI;
    [reflexivity|].
  cbn [factorial_loop]. rewrite (int_float_leb i n I N Hi Hn).
  destruct (Z.leb_spec I N) as [_|Hgt]; [|lia].
  destruct (Z.eq_dec I (2 ^ 53)) as [->|Hne].
  - rewrite (increment_stuck i Hi). apply (IH i (2 ^ 53)); [exact Hi|lia].
  - apply (IH _ (I + 1)); [apply increment_exact; [exact Hi|lia]|lia].
Qed.

Lemma fibonacci_loop_run n N :
  int_float n N -> N < 2 ^ 53 ->
  forall fuel i I,
    int_float i I -> 2 <= I <= N + 1 -> (Z.to_nat (N + 2 - I) <= fuel)%nat ->
    fibonacci_loop fuel n i (fst (fib_float_pair (Z.to_nat (I - 2))))
                            (snd (fib_float_pair (Z.to_nat (I - 2)))) =
    Some (fib_float (Z.to_nat N)).
Proof.
  intros Hn HN fuel. induction fuel as [|fuel IH]; intros i I Hi HI Hfuel; [lia|].
  cbn [fibonacci_loop]. rewrite (int_float_leb i n I N Hi Hn).
  destruct (Z.leb_spec I N) as [Hle|Hgt].
  - specialize (IH _ (I + 1) (increment_exact i I Hi ltac:(lia)) ltac:(lia) ltac:(lia)).
    replace (Z.to_nat (I + 1 - 2)) with (S (Z.to_nat (I - 2))) in IH by lia.
    cbn [fib_float_pair] in IH.
    destruct (fib_float_pair (Z.to_nat (I - 2))) as [a b]. exact IH.
  - f_equal. unfold fib_float.
    replace (Z.to_nat N) with (S (Z.to_nat (I - 2))) by lia.
    cbn [fib_float_pair].
    destruct (fib_float_pair (Z.to_nat (I - 2))) as [a b]. reflexivity.
Qed.

Lemma fibonacci_loop_diverges n N :
  int_float n N -> 2 ^ 53 <= N ->
  forall fuel i I a b,
    int_float i I -> 0 <= I <= 2 ^ 53 ->
    fibonacci_loop fuel n i a b = None.
Proof.
  intros Hn HN fuel. induction fuel as [|fuel IH]; intros i I a b Hi HI;
    [reflexivity|].
  cbn [fibonacci_loop]. rewrite (int_float_leb i n I N Hi Hn).
  destruct (Z.leb_spec I N) as [_|Hgt]; [|lia].
  destruct (Z.eq_dec I (2 ^ 53)) as [->|Hne].
  - rewrite (increment_stuck i Hi). apply (IH i (2 ^ 53)); [exact Hi|lia].
  - apply (IH _ (I + 1)); [apply increment_exact; [exact Hi|lia]|lia].
Qed.

Lemma factorial_returns n N :
  int_float n N -> 0 <= N < 2 ^ 53 ->
  forall fuel, (Z.to_nat N <= fuel)%nat ->
  factorial fuel (VNumber n) = Some (Return (VNumber (fact_float (Z.to_nat N)))).
Proof.
  intros Hn HN fuel Hfuel. unfold factorial.
  rewrite (validateInteger_int_float n N Hn).
  rewrite (int_float_ltb n _ N 0 Hn int_float_of_Z_0).
  destruct (Z.ltb_spec N 0) as [?|_]; [lia|].
  rewrite (int_float_eqb n _ N 0 Hn int_float_of_Z_0).
  rewrite (int_float_eqb n _ N 1 Hn int_float_of_Z_1).
  destruct (Z.eqb_spec N 0) as [->|H0]; [reflexivity|].
  destruct (Z.eqb_spec N 1) as [->|H1]; [cbn [orb]; change (Z.to_nat 1) with 1%nat; rewrite fact_float_1; reflexivity|].
  cbn [orb].
  pose proof (factorial_loop_run n N Hn ltac:(lia) fuel (B64.of_Z 2) 2
                int_float_of_Z_2 ltac:(lia) ltac:(lia)) as H.
  change (Z.to_nat (2 - 1)) with 1%nat in H. rewrite fact_float_1 in H.
  rewrite H. reflexivity.
Qed.

Lemma fibonacci_returns n N :
  int_float n N -> 0 <= N < 2 ^ 53 ->
  forall fuel, (Z.to_nat N <= fuel)%nat ->
  fibonacci fuel (VNumber n) = Some (Return (VNumber (fib_float (Z.to_nat N)))).
Proof.
  intros Hn HN fuel Hfuel. unfold fibonacci.
  rewrite (validateInteger_int_float n N Hn).
  rewrite (int_float_ltb n _ N 0 Hn int_float_of_Z_0).
  destruct (Z.ltb_spec N 0) as [?|_]; [lia|].
  rewrite (int_float_eqb n _ N 0 Hn int_float_of_Z_0).
  rewrite (int_float_eqb n _ N 1 Hn int_float_of_Z_1).
  destruct (Z.eqb_spec N 0) as [->|H0]; [reflexivity|].
  destruct (Z.eqb_spec N 1) as [->|H1]; [reflexivity|].
  pose proof (fibonacci_loop_run n N Hn ltac:(lia) fuel (B64.of_Z 2) 2
                int_float_of_Z_2 ltac:(lia) ltac:(lia)) as H.
  change (Z.to_nat (2 - 2)) with 0%nat in H. cbn [fib_float_pair fst snd] in H.
  rewrite H. reflexivity.
Qed.

Lemma nonneg_float_valid x : nonneg_float x -> valid_number x.
Proof. destruct x as [|[]| |[]]; try contradiction; reflexivity. Qed.

Lemma binary_round_aux_nonneg m e l :
  0 <= m -> nonneg_float (binary_round_aux B64.prec B64.emax false m e l).
Proof.
  intros Hm. unfold binary_round_aux.
  pose proof (shr_fexp_nonneg m e l Hm) as H1.
  destruct (shr_fexp _ _ m e l) as [mrs' e1]. cbn [fst] in H1.
  assert (H2 : 0 <= round_nearest_even (shr_m mrs') (loc_of_shr_record mrs'))
    by (destruct (round_nearest_even_cases (shr_m mrs') (loc_of_shr_record mrs'))
          as [-> | ->]; lia).
  pose proof (shr_fexp_nonneg _ e1 loc_Exact H2) as H3.
  destruct (shr_fexp _ _ _ e1 loc_Exact) as [mrs'' e2]. cbn [fst] in H3.
  destruct (shr_m mrs'') as [|p|p]; [exact I| |lia].
  destruct (e2 <=? _); exact I.
Qed.

Lemma add_nonneg x y :
  nonneg_float x -> nonneg_float y -> nonneg_float (B64.add x y).
Proof.
  intros Hx Hy.
  destruct x as [sx|[]| |[] mx ex]; try contradiction;
    destruct y as [sy|[]| |[] my ey]; try contradiction;
    try exact I; try (destruct sx, sy; exact I).
  unfold B64.add, SFadd, binary_normalize, binary_round. cbn [cond_Zopp].
  destruct (shl_align mx ex _) as [m1 e1], (shl_align my ey _) as [m2 e2].
  cbn [fst]. change (Zpos m1 + Zpos m2) with (Zpos (m1 + m2)). cbv iota.
  destruct (shl_align (m1 + m2) _ _) as [mz ez].
  apply binary_round_aux_nonneg. lia.
Qed.

Lemma mul_nonneg x y :
  nonneg_float x -> nonneg_float y -> B64.is_finite y = true ->
  (forall s, y <> S754_zero s) -> nonneg_float (B64.mul x y).
Proof.
  intros Hx Hy Fy Hz.
  destruct y as [sy|[]| |[] my ey]; try contradiction; try discriminate.
  { exfalso. apply (Hz sy). reflexivity. }
  destruct x as [sx|[]| |[] mx ex]; try contradiction; try exact I.
  unfold B64.mul, SFmul. apply binary_round_aux_nonneg. lia.
Qed.

Lemma of_Z_positive k :
  0 < k <= 2 ^ 53 -> exists m e, B64.of_Z k = S754_finite false m e.
Proof.
  intros Hk.
  destruct (int_float_pos_inv (B64.of_Z k) k (int_float_of_Z k ltac:(lia)) ltac:(lia))
    as (m & e & E & _).
  eauto.
Qed.

Lemma fact_float_nonneg k : Z.of_nat k <= 2 ^ 53 -> nonneg_float (fact_float k).
Proof.
  induction k as [|k IH]; intros Hk; [exact I|].
  cbn [fact_float].
  destruct (of_Z_positive (Z.of_nat (S k)) ltac:(lia)) as (m & e & E).
  apply mul_nonneg; [apply IH; lia|rewrite E; exact I|rewrite E; reflexivity|].
  intros s. rewrite E. discriminate.
Qed.

Lemma fib_float_pair_nonneg k :
  nonneg_float (fst (fib_float_pair k)) /\ nonneg_float (snd (fib_float_pair k)).
Proof.
  induction k as [|k [IHa IHb]]; [split; exact I|].
  cbn [fib_float_pair]. destruct (fib_float_pair k) as [a b]. cbn [fst snd] in *.
  split; [exact IHb|apply add_nonneg; assumption].
Qed.

Lemma fib_float_step k :
  fib_float (S (S k)) = B64.add (fib_float k) (fib_float (S k)).
Proof.
  unfold fib_float. cbn [fib_float_pair].
  destruct (fib_float_pair k) as [a b]. reflexivity.
Qed.

(** Where the running values leave the finite range. *)
Lemma fact_float_finite_170 :
  forallb (fun k => B64.is_finite (fact_float k)) (seq 0 171) = true.
Proof. vm_compute. reflexivity. Qed.

Lemma fact_float_171 : fact_float 171 = B64.pInf.
Proof. vm_compute. reflexivity. Qed.

Lemma fact_float_overflow k :
  (171 <= k)%nat -> Z.of_nat k <= 2 ^ 53 -> fact_float k = B64.pInf.
Proof.
  induction k as [|k IH]; intros Hk Hb; [lia|].
  destruct (Nat.eq_dec (S k) 171%nat) as [E|Hne]; [rewrite E; exact fact_float_171|].
  cbn [fact_float]. rewrite IH by lia.
  destruct (of_Z_positive (Z.of_nat (S k)) ltac:(lia)) as (m & e & ->).
  reflexivity.
Qed.

Lemma nonneg_float_cases x :
  nonneg_float x -> B64.is_finite x = true \/ x = B64.pInf.
Proof. destruct x as [|[]| |[]]; try contradiction; auto. Qed.

Lemma add_pInf_r x : nonneg_float x -> B64.add x B64.pInf = B64.pInf.
Proof. destruct x as [|[]| |[]]; try contradiction; reflexivity. Qed.

Lemma fib_float_nonneg k : nonneg_float (fib_float k).
Proof. apply fib_float_pair_nonneg. Qed.

Lemma fib_float_inf_step k :
  fib_float k = B64.pInf -> fib_float (S k) = B64.pInf.
Proof.
  destruct k as [|k]; [discriminate|]. intros H.
  rewrite fib_float_step, H. apply add_pInf_r, fib_float_nonneg.
Qed.

Lemma fib_float_inf_mono k d :
  fib_float k = B64.pInf -> fib_float (d + k) = B64.pInf.
Proof.
  intros H. induction d as [|d IH]; [exact H|].
  apply fib_float_inf_step. exact IH.
Qed.

Lemma fib_float_1476 : B64.is_finite (fib_float 1476) = true.
Proof. vm_compute. reflexivity. Qed.

Lemma fib_float_finite k :
  (k <= 1476)%nat -> B64.is_finite (fib_float k) = true.
Proof.
  intros Hk. destruct (nonneg_float_cases _ (fib_float_nonneg k)) as [F|E];
    [exact F|exfalso].
  pose proof (fib_float_inf_mono k (1476 - k) E) as H.
  replace (1476 - k + k)%nat with 1476%nat in H by lia.
  pose proof fib_float_1476 as F. rewrite H in F. discriminate.
Qed.

Lemma fib_float_pair_1477 : fib_float_pair 1477 = (B64.pInf, B64.pInf).
Proof. vm_compute. reflexivity. Qed.

Lemma fib_float_pair_overflow k :
  (1477 <= k)%nat -> fib_float_pair k = (B64.pInf, B64.pInf).
Proof.
  induction k as [|k IH]; intros Hk; [lia|].
  destruct (Nat.eq_dec (S k) 1477%nat) as [E|Hne]; [rewrite E; exact fib_float_pair_1477|].
  cbn [fib_float_pair]. rewrite IH by lia. reflexivity.
Qed.

Lemma same_number_refl x : same_number x x.
Proof. left. reflexivity. Qed.

Lemma finite_scaled_bounds s m e :
  B64.wf (S754_finite s m e) -> 0 < Zpos m * 2 ^ (e + 1074) < 2 ^ 2098.
Proof.
  intros W. apply wf_finite_inv in W as (C & He & Hd & _).
  pose proof (canonical_scaled_bounds m e C ltac:(lia)) as [_ Hhi].
  assert (P := pow2_pos (e + 1074) ltac:(lia)).
  assert (2 ^ (Zdigits2 (Zpos m) + e + 1074) <= 2 ^ 2098)
    by (apply Z.pow_le_mono_r; lia).
  lia.
Qed.

Lemma scaled_same_number x y :
  number x -> number y -> scaled x = scaled y -> same_number x y.
Proof.
  intros [Wx Vx] [Wy Vy] E.
  assert (P : 0 < 2 ^ 2098) by (apply pow2_pos; lia).
  destruct x as [sx|sx| |sx mx ex]; try discriminate;
    destruct y as [sy|sy| |sy my ey]; try discriminate.
  - right. split; eexists; reflexivity.
  - exfalso. cbn [scaled] in E. destruct sy; cbn [cond_Zopp] in E; lia.
  - exfalso. pose proof (finite_scaled_bounds _ _ _ Wy).
    cbn [scaled] in E. destruct sy; cbn [cond_Zopp] in E; lia.
  - exfalso. cbn [scaled] in E. destruct sx; cbn [cond_Zopp] in E; lia.
  - left. cbn [scaled] in E. destruct sx, sy; cbn [cond_Zopp] in E;
      try reflexivity; lia.
  - exfalso. pose proof (finite_scaled_bounds _ _ _ Wy).
    cbn [scaled] in E. destruct sx, sy; cbn [cond_Zopp] in E; lia.
  - exfalso. pose proof (finite_scaled_bounds _ _ _ Wx).
    cbn [scaled] in E. destruct sx; cbn [cond_Zopp] in E; lia.
  - exfalso. pose proof (finite_scaled_bounds _ _ _ Wx).
    cbn [scaled] in E. destruct sx, sy; cbn [cond_Zopp] in E; lia.
  - left. pose proof (finite_scaled_bounds _ _ _ Wx).
    apply scaled_inj; try assumption; try reflexivity.
    cbn [scaled]. destruct sx; cbn [cond_Zopp]; lia.
Qed.

Lemma add_same_number a a' b b' :
  same_number a a' -> same_number b b' ->
  same_number (B64.add a b) (B64.add a' b').
Proof.
  intros [->|[[sa ->] [sa' ->]]] [->|[[sb ->] [sb' ->]]].
  - left. reflexivity.
  - destruct a' as [s| | |]; try (left; reflexivity).
    right. destruct s, sb, sb'; split; eexists; reflexivity.
  - destruct b' as [s| | |]; try (left; reflexivity).
    right. destruct s, sa, sa'; split; eexists; reflexivity.
  - right. destruct sa, sa', sb, sb'; split; eexists; reflexivity.
Qed.

Lemma div_same_number a a' c :
  same_number a a' -> same_number (B64.div a c) (B64.div a' c).
Proof.
  intros [->|[[sa ->] [sa' ->]]]; [left; reflexivity|].
  destruct c as [s|s| |s m e]; try (left; reflexivity);
    right; split; eexists; reflexivity.
Qed.

Lemma sorted_scaled l :
  Forall number l -> StronglySorted num_le l ->
  StronglySorted Z.le (scaled <$> l).
Proof.
  intros Hn Hs. induction Hs as [|x l Hs IH Hx]; [constructor|].
  apply Forall_cons in Hn as [Hnx Hnl].
  rewrite fmap_cons. constructor; [apply IH; exact Hnl|].
  rewrite Forall_fmap. rewrite Forall_forall in Hx, Hnl |- *.
  intros y Hy. cbn. apply num_le_scaled; auto.
Qed.

Lemma scaled_Forall2 l1 : forall l2,
  Forall number l1 -> Forall number l2 ->
  scaled <$> l1 = scaled <$> l2 -> Forall2 same_number l1 l2.
Proof.
  induction l1 as [|x l1 IH]; intros [|y l2] H1 H2 E; try discriminate;
    [constructor|].
  rewrite !fmap_cons in E. injection E as Exy E.
  apply Forall_cons in H1 as [Hx H1], H2 as [Hy H2].
  constructor; [apply scaled_same_number; assumption|apply IH; assumption].
Qed.

(** Two ascending arrangements of the same Numbers agree position by
    position. *)
Lemma sorted_unique l1 l2 :
  Forall number l1 -> StronglySorted num_le l1 -> StronglySorted num_le l2 ->
  l1 ≡ₚ l2 -> Forall2 same_number l1 l2.
Proof.
  intros H1 S1 S2 Hp.
  assert (H2 : Forall number l2) by (rewrite <- Hp; exact H1).
  apply scaled_Forall2; try assumption.
  apply (StronglySorted_unique Z.le).
  - apply sorted_scaled; assumption.
  - apply sorted_scaled; assumption.
  - apply fmap_Permutation. exact Hp.
Qed.

Lemma nth_same_number l1 l2 :
  Forall2 same_number l1 l2 ->
  forall i, same_number (nth i l1 B64.NaN) (nth i l2 B64.NaN).
Proof.
  induction 1 as [|x y l1 l2 Hxy _ IH]; intros [|i]; cbn [nth];
    try apply same_number_refl; [exact Hxy|apply IH].
Qed.

Lemma median_of_sorted_same l1 l2 :
  Forall2 same_number l1 l2 ->
  same_number (median_of_sorted l1) (median_of_sorted l2).
Proof.
  intros H. unfold median_of_sorted. rewrite <- (Forall2_length _ _ _ H).
  destruct (Nat.odd (length l1)).
  - apply nth_same_number. exact H.
  - apply div_same_number, add_same_number; apply nth_same_number; exact H.
Qed.

Lemma Forall_number_valid xs : Forall number xs -> Forall valid_number xs.
Proof.
  intros H. eapply Forall_impl; [exact H|]. intros x [_ Hx]. exact Hx.
Qed.

(** X19: [median] does not depend on the order of the elements: two
    arrays of valid Numbers that are permutations of each other have the
    same median (up to the sign of a zero). *)
Theorem median_order_independent st numbers xs st' numbers' ys :
  isArray st numbers = Some (number_array xs) ->
  isArray st' numbers' = Some (number_array ys) ->
  xs <> [] -> Forall number xs -> xs ≡ₚ ys ->
  exists r r' st1 st1',
    median st numbers = Return (VNumber r, st1) /\
    median st' numbers' = Return (VNumber r', st1') /\
    same_number r r'.
Proof.
  intros Hx Hy Hne Hn Hp.
  assert (Hn' : Forall number ys) by (rewrite <- Hp; exact Hn).
  assert (Hne' : ys <> []).
  { intros ->. apply Permutation_nil_r in Hp. congruence. }
  eexists _, _, _, _. split; [|split].
  - apply (median_dense st numbers xs Hx Hne), Forall_number_valid, Hn.
  - apply (median_dense st' numbers' ys Hy Hne'), Forall_number_valid, Hn'.
  - apply median_of_sorted_same, sorted_unique.
    + rewrite array_sort_Permutation. exact Hn.
    + apply array_sort_sorted. exact Hn.
    + apply array_sort_sorted. exact Hn'.
    + rewrite !array_sort_Permutation. exact Hp.
Qed.

Lemma median_order_independent_witness :
  exists r r' st1 st1',
    median {[ 1%positive := OArray (number_array (B64.of_Z <$> [3; 1; 2; 4])) ]}
           (VObject 1%positive ConvString) = Return (VNumber r, st1) /\
    median {[ 2%positive := OArray (number_array (B64.of_Z <$> [1; 3; 2; 4])) ]}
           (VObject 2%positive ConvString) = Return (VNumber r', st1') /\
    same_number r r'.
Proof.
  apply (median_order_independent _ _ (B64.of_Z <$> [3; 1; 2; 4])
           _ _ (B64.of_Z <$> [1; 3; 2; 4])).
  - reflexivity.
  - reflexivity.
  - discriminate.
  - repeat constructor.
  - apply perm_swap.
Defined.

Lemma int_float_valid x N : int_float x N -> valid_number x.
Proof. intros H. apply finite_not_nan, (int_float_finite x N H). Qed.

Lemma validateNumbers2_numbers x y :
  valid_number x -> valid_number y ->
  validateNumbers2 (VNumber x) (VNumber y) = Return (x, y).
Proof.
  intros Hx Hy. apply validateNumbers2_Return. auto.
Qed.

Lemma add_numbers x y :
  valid_number x -> valid_number y ->
  add (VNumber x) (VNumber y) = Return (VNumber (B64.add x y)).
Proof. intros Hx Hy. unfold add. rewrite validateNumbers2_numbers; auto. Qed.

Lemma subtract_numbers x y :
  valid_number x -> valid_number y ->
  subtract (VNumber x) (VNumber y) = Return (VNumber (B64.sub x y)).
Proof. intros Hx Hy. unfold subtract. rewrite validateNumbers2_numbers; auto. Qed.

Lemma multiply_numbers x y :
  valid_number x -> valid_number y ->
  multiply (VNumber x) (VNumber y) = Return (VNumber (B64.mul x y)).
Proof. intros Hx Hy. unfold multiply. rewrite validateNumbers2_numbers; auto. Qed.

Lemma divide_integers x y X Y :
  int_float x X -> int_float y Y -> Y <> 0 ->
  divide (VNumber x) (VNumber y) = Return (VNumber (B64.div x y)).
Proof.
  intros Hx Hy HY. unfold divide.
  rewrite validateNumbers2_numbers by eauto using int_float_valid. cbn.
  rewrite (int_float_eqb y _ Y 0 Hy int_float_of_Z_0).
  destruct (Z.eqb_spec Y 0); [contradiction|reflexivity].
Qed.

Lemma wf_scaled_lt x :
  B64.wf x -> B64.is_finite x = true -> Z.abs (scaled x) < 2 ^ 2098.
Proof.
  intros W F. destruct x as [s| | |s m e]; try discriminate.
  - cbn. apply pow2_pos. lia.
  - pose proof (finite_scaled_bounds s m e W).
    cbn [scaled]. destruct s; cbn [cond_Zopp]; lia.
Qed.

(** Adding back what was taken away: exact as soon as the outcome is the
    value of a binary64 number. *)
Lemma add_cancel s y x S Y X :
  int_float s S -> int_float y Y -> int_float x X -> S + Y = X ->
  int_float (B64.add s y) X.
Proof.
  intros Hs Hy Hx E.
  pose proof (int_float_scaled _ _ Hs) as Ss.
  pose proof (int_float_scaled _ _ Hy) as Sy.
  pose proof (int_float_scaled _ _ Hx) as Sx.
  pose proof (int_float_finite _ _ Hs) as Fs.
  pose proof (int_float_finite _ _ Hy) as Fy.
  pose proof (int_float_finite _ _ Hx) as Fx.
  assert (Esum : scaled s + scaled y = scaled x) by (rewrite Ss, Sy, Sx; lia).
  destruct (add_exact s y) as (W & F & Sc);
    try apply Hs; try apply Hy; try assumption.
  - rewrite Esum. apply wf_representable; [apply Hx|exact Fx].
  - rewrite Esum. apply wf_scaled_lt; [apply Hx|exact Fx].
  - apply int_float_intro; [exact W|exact F|]. rewrite Sc, Esum. exact Sx.
Qed.

(** X1: on Numbers that denote integers, [add], [subtract] and [multiply]
    return the Number denoting the exact sum, difference and product, as
    long as that result is at most 2^53 in magnitude. *)
Theorem integer_arithmetic_exact x y X Y :
  int_float x X -> int_float y Y ->
  (Z.abs (X + Y) <= 2 ^ 53 ->
   exists r, add (VNumber x) (VNumber y) = Return (VNumber r) /\ int_float r (X + Y)) /\
  (Z.abs (X - Y) <= 2 ^ 53 ->
   exists r, subtract (VNumber x) (VNumber y) = Return (VNumber r) /\
             int_float r (X - Y)) /\
  (Z.abs (X * Y) <= 2 ^ 53 ->
   exists r, multiply (VNumber x) (VNumber y) = Return (VNumber r) /\
             int_float r (X * Y)).
Proof.
  intros Hx Hy.
  pose proof (int_float_valid _ _ Hx) as Vx.
  pose proof (int_float_valid _ _ Hy) as Vy.
  split; [|split]; intros Hb; eexists; split.
  - apply add_numbers; assumption.
  - apply int_float_add; assumption.
  - apply subtract_numbers; assumption.
  - apply int_float_sub; assumption.
  - apply multiply_numbers; assumption.
  - apply int_float_mul; assumption.
Qed.

Lemma integer_arithmetic_exact_witness :
  (Z.abs (7 + -12) <= 2 ^ 53 ->
   exists r, add (VNumber (B64.of_Z 7)) (VNumber (B64.of_Z (-12))) = Return (VNumber r) /\
             int_float r (7 + -12)) /\
  (Z.abs (7 - -12) <= 2 ^ 53 ->
   exists r, subtract (VNumber (B64.of_Z 7)) (VNumber (B64.of_Z (-12))) =
             Return (VNumber r) /\ int_float r (7 - -12)) /\
  (Z.abs (7 * -12) <= 2 ^ 53 ->
   exists r, multiply (VNumber (B64.of_Z 7)) (VNumber (B64.of_Z (-12))) =
             Return (VNumber r) /\ int_float r (7 * -12)).
Proof.
  apply (integer_arithmetic_exact (B64.of_Z 7) (B64.of_Z (-12)) 7 (-12));
    split; reflexivity.
Defined.

(** X2: [subtract] undoes [add] and [add] undoes [subtract]: for integers
    [X], [Y] whose sum (difference) is at most 2^53 in magnitude,
    subtract(add(x, y), y) and add(subtract(x, y), y) return a Number that
    denotes [X] and is [===] to [x]. *)
Theorem add_subtract_round_trip x y X Y :
  int_float x X -> int_float y Y ->
  (Z.abs (X + Y) <= 2 ^ 53 ->
   exists s r, add (VNumber x) (VNumber y) = Return (VNumber s) /\
               subtract (VNumber s) (VNumber y) = Return (VNumber r) /\
               int_float r X /\ B64.eqb r x = true) /\
  (Z.abs (X - Y) <= 2 ^ 53 ->
   exists d r, subtract (VNumber x) (VNumber y) = Return (VNumber d) /\
               add (VNumber d) (VNumber y) = Return (VNumber r) /\
               int_float r X /\ B64.eqb r x = true).
Proof.
  intros Hx Hy.
  pose proof (int_float_valid _ _ Hx) as Vx.
  pose proof (int_float_valid _ _ Hy) as Vy.
  split; intros Hb.
  - pose proof (int_float_add x y X Y Hx Hy Hb) as Hs.
    assert (Hr : int_float (B64.sub (B64.add x y) y) X).
    { rewrite sub_add_negate.
      apply (add_cancel _ _ x (X + Y) (- Y) X); try assumption; [|lia].
      apply int_float_negate. exact Hy. }
    exists (B64.add x y), (B64.sub (B64.add x y) y).
    split; [apply add_numbers; assumption|].
    split; [apply subtract_numbers; eauto using int_float_valid|].
    split; [exact Hr|].
    rewrite (int_float_eqb _ _ X X Hr Hx). apply Z.eqb_refl.
  - pose proof (int_float_sub x y X Y Hx Hy Hb) as Hd.
    assert (Hr : int_float (B64.add (B64.sub x y) y) X)
      by (apply (add_cancel _ _ x (X - Y) Y X); try assumption; lia).
    exists (B64.sub x y), (B64.add (B64.sub x y) y).
    split; [apply subtract_numbers; assumption|].
    split; [apply add_numbers; eauto using int_float_valid|].
    split; [exact Hr|].
    rewrite (int_float_eqb _ _ X X Hr Hx). apply Z.eqb_refl.
Qed.

Lemma add_subtract_round_trip_witness :
  (Z.abs (1000 + 337) <= 2 ^ 53 ->
   exists s r,
     add (VNumber (B64.of_Z 1000)) (VNumber (B64.of_Z 337)) = Return (VNumber s) /\
     subtract (VNumber s) (VNumber (B64.of_Z 337)) = Return (VNumber r) /\
     int_float r 1000 /\ B64.eqb r (B64.of_Z 1000) = true) /\
  (Z.abs (1000 - 337) <= 2 ^ 53 ->
   exists d r,
     subtract (VNumber (B64.of_Z 1000)) (VNumber (B64.of_Z 337)) = Return (VNumber d) /\
     add (VNumber d) (VNumber (B64.of_Z 337)) = Return (VNumber r) /\
     int_float r 1000 /\ B64.eqb r (B64.of_Z 1000) = true).
Proof.
  apply (add_subtract_round_trip (B64.of_Z 1000) (B64.of_Z 337) 1000 337);
    split; reflexivity.
Defined.

(** X3: when the integer [Y <> 0] divides the integer [X] and the quotient
    is at most 2^53 in magnitude, [divide] returns the Number denoting
    exactly [X / Y]. *)
Theorem divide_exact_quotient x y X Y :
  int_float x X -> int_float y Y -> Y <> 0 -> (Y | X) ->
  Z.abs (X / Y) <= 2 ^ 53 ->
  exists r, divide (VNumber x) (VNumber y) = Return (VNumber r) /\
            int_float r (X / Y).
Proof.
  intros Hx Hy HY Hd Hb. exists (B64.div x y).
  split; [apply (divide_integers x y X Y); assumption|].
  apply int_float_div; assumption.
Qed.

Lemma divide_exact_quotient_witness :
  exists r, divide (VNumber (B64.of_Z (-84))) (VNumber (B64.of_Z 7)) =
            Return (VNumber r) /\ int_float r (-84 / 7).
Proof.
  apply (divide_exact_quotient (B64.of_Z (-84)) (B64.of_Z 7) (-84) 7).
  - split; reflexivity.
  - split; reflexivity.
  - lia.
  - exists (-12). reflexivity.
  - vm_compute. discriminate.
Defined.

Lemma abs_factor_le X Y : Y <> 0 -> Z.abs X <= Z.abs (X * Y).
Proof. intros HY. rewrite Z.abs_mul. nia. Qed.

(** X4: [divide] undoes [multiply]: for integers [X] and [Y <> 0] with
    [|X * Y| <= 2^53], divide(multiply(x, y), y) returns a Number that
    denotes [X] and is [===] to [x]. *)
Theorem multiply_divide_round_trip x y X Y :
  int_float x X -> int_float y Y -> Y <> 0 -> Z.abs (X * Y) <= 2 ^ 53 ->
  exists p r, multiply (VNumber x) (VNumber y) = Return (VNumber p) /\
              divide (VNumber p) (VNumber y) = Return (VNumber r) /\
              int_float r X /\ B64.eqb r x = true.
Proof.
  intros Hx Hy HY Hb.
  pose proof (int_float_mul x y X Y Hx Hy Hb) as Hp.
  pose proof (abs_factor_le X Y HY) as HX.
  assert (Hr : int_float (B64.div (B64.mul x y) y) X).
  { assert (H : int_float (B64.div (B64.mul x y) y) (X * Y / Y)).
    { apply int_float_div; try assumption.
      - exists X. reflexivity.
      - rewrite Z.div_mul by exact HY. lia. }
    rewrite Z.div_mul in H by exact HY. exact H. }
  exists (B64.mul x y), (B64.div (B64.mul x y) y).
  split; [apply multiply_numbers; eauto using int_float_valid|].
  split; [apply (divide_integers _ y (X * Y) Y); assumption|].
  split; [exact Hr|].
  rewrite (int_float_eqb _ _ X X Hr Hx). apply Z.eqb_refl.
Qed.

Lemma multiply_divide_round_trip_witness :
  exists p r,
    multiply (VNumber (B64.of_Z 123456789)) (VNumber (B64.of_Z (-1001))) =
    Return (VNumber p) /\
    divide (VNumber p) (VNumber (B64.of_Z (-1001))) = Return (VNumber r) /\
    int_float r 123456789 /\ B64.eqb r (B64.of_Z 123456789) = true.
Proof.
  apply (multiply_divide_round_trip (B64.of_Z 123456789) (B64.of_Z (-1001))
           123456789 (-1001)).
  - split; reflexivity.
  - split; reflexivity.
  - lia.
  - vm_compute. discriminate.
Defined.

(** X5: the [squareRoot] of a perfect square [K * K], [0 <= K <= 2^53],
    is the Number denoting exactly [K]. *)
Theorem squareRoot_perfect_square x K :
  int_float x (K * K) -> 0 <= K <= 2 ^ 53 ->
  exists r, squareRoot (VNumber x) = Return (VNumber r) /\ int_float r K.
Proof.
  intros Hx HK. exists (B64.sqrt x). split; [|apply int_float_sqrt; assumption].
  unfold squareRoot. cbn [validateNumber].
  rewrite (int_float_valid _ _ Hx). cbn.
  rewrite (int_float_ltb x _ (K * K) 0 Hx int_float_of_Z_0).
  destruct (Z.ltb_spec (K * K) 0) as [H|_]; [nia|reflexivity].
Qed.

Lemma squareRoot_perfect_square_witness :
  exists r, squareRoot (VNumber (B64.of_Z 1522756)) = Return (VNumber r) /\
            int_float r 1234.
Proof.
  apply (squareRoot_perfect_square (B64.of_Z 1522756) 1234).
  - split; reflexivity.
  - split; [lia|vm_compute; discriminate].
Defined.

Lemma square_bound K : 0 <= K -> K * K <= 2 ^ 53 -> K <= 2 ^ 53.
Proof.
  intros H0 H. destruct (Z.eq_dec K 0) as [->|]; [discriminate|]. nia.
Qed.

(** X6: [squareRoot] undoes squaring: for an integer [K >= 0] with
    [K * K <= 2^53], squareRoot(multiply(k, k)) returns a Number that
    denotes [K] and is [===] to [k]. *)
Theorem squareRoot_undoes_squaring k K :
  int_float k K -> 0 <= K -> K * K <= 2 ^ 53 ->
  exists p r, multiply (VNumber k) (VNumber k) = Return (VNumber p) /\
              squareRoot (VNumber p) = Return (VNumber r) /\
              int_float r K /\ B64.eqb r k = true.
Proof.
  intros Hk HK Hb.
  assert (Hp : int_float (B64.mul k k) (K * K)).
  { apply int_float_mul; try assumption.
    rewrite Z.abs_eq by (apply Z.mul_nonneg_nonneg; lia). exact Hb. }
  pose proof (square_bound K HK Hb) as HK2.
  assert (Hr : int_float (B64.sqrt (B64.mul k k)) K)
    by (apply int_float_sqrt; [exact Hp|lia]).
  exists (B64.mul k k), (B64.sqrt (B64.mul k k)).
  split; [apply multiply_numbers; eauto using int_float_valid|].
  split; [|split; [exact Hr|]].
  - unfold squareRoot. cbn [validateNumber].
    rewrite (int_float_valid _ _ Hp). cbn.
    rewrite (int_float_ltb _ _ (K * K) 0 Hp int_float_of_Z_0).
    destruct (Z.ltb_spec (K * K) 0) as [H|_]; [nia|reflexivity].
  - rewrite (int_float_eqb _ _ K K Hr Hk). apply Z.eqb_refl.
Qed.

Lemma squareRoot_undoes_squaring_witness :
  exists p r,
    multiply (VNumber (B64.of_Z 94906265)) (VNumber (B64.of_Z 94906265)) =
    Return (VNumber p) /\
    squareRoot (VNumber p) = Return (VNumber r) /\
    int_float r 94906265 /\ B64.eqb r (B64.of_Z 94906265) = true.
Proof.
  apply (squareRoot_undoes_squaring (B64.of_Z 94906265) 94906265).
  - split; reflexivity.
  - lia.
  - vm_compute. discriminate.
Defined.

Lemma fact_float_finite k :
  (k <= 170)%nat -> B64.is_finite (fact_float k) = true.
Proof.
  intros Hk. pose proof fact_float_finite_170 as H.
  rewrite forallb_forall in H. apply H. apply in_seq. lia.
Qed.

(** X13: for every integer [0 <= N < 2^53], [factorial] returns within [N]
    loop tests.  The result is the running product rounded at every step,
    never NaN and never negative; it is finite up to [N = 170] and
    [+Infinity] from [N = 171] on. *)
Theorem factorial_returns_below_2_53 n N :
  int_float n N -> 0 <= N < 2 ^ 53 ->
  forall fuel, (Z.to_nat N <= fuel)%nat ->
  exists r,
    factorial fuel (VNumber n) = Some (Return (VNumber r)) /\
    r = fact_float (Z.to_nat N) /\
    nonneg_float r /\
    (N <= 170 -> B64.is_finite r = true) /\
    (171 <= N -> r = B64.pInf).
Proof.
  intros Hn HN fuel Hfuel. exists (fact_float (Z.to_nat N)).
  split; [apply factorial_returns; assumption|].
  split; [reflexivity|].
  split; [apply fact_float_nonneg; lia|].
  split; intros H.
  - apply fact_float_finite. lia.
  - apply fact_float_overflow; lia.
Qed.

Lemma factorial_returns_below_2_53_witness :
  exists r,
    factorial 171 (VNumber (B64.of_Z 171)) = Some (Return (VNumber r)) /\
    r = fact_float (Z.to_nat 171) /\
    nonneg_float r /\
    (171 <= 170 -> B64.is_finite r = true) /\
    (171 <= 171 -> r = B64.pInf).
Proof.
  apply (factorial_returns_below_2_53 (B64.of_Z 171) 171).
  - split; reflexivity.
  - split; [lia|reflexivity].
  - simpl. lia.
Defined.

(** X14: for every integer [N >= 2^53], [factorial] never returns: the
    counter [i++] stops growing at 2^53, so the loop test [i <= number]
    holds for ever. *)
Theorem factorial_loops_forever_from_2_53 n N :
  int_float n N -> 2 ^ 53 <= N ->
  forall fuel, factorial fuel (VNumber n) = None.
Proof.
  intros Hn HN fuel. unfold factorial.
  rewrite (validateInteger_int_float n N Hn).
  rewrite (int_float_ltb n _ N 0 Hn int_float_of_Z_0).
  pose proof pow2_53_pos.
  destruct (Z.ltb_spec N 0) as [?|_]; [lia|].
  rewrite (int_float_eqb n _ N 0 Hn int_float_of_Z_0).
  rewrite (int_float_eqb n _ N 1 Hn int_float_of_Z_1).
  assert (1 < 2 ^ 53) by reflexivity.
  destruct (Z.eqb_spec N 0) as [?|_]; [lia|].
  destruct (Z.eqb_spec N 1) as [?|_]; [lia|].
  cbn [orb].
  rewrite (factorial_loop_diverges n N Hn HN fuel (B64.of_Z 2) 2 _ int_float_of_Z_2);
    [reflexivity|lia].
Qed.

Lemma factorial_loops_forever_from_2_53_witness :
  factorial 1000 (VNumber (B64.of_Z (2 ^ 53))) = None.
Proof.
  apply (factorial_loops_forever_from_2_53 (B64.of_Z (2 ^ 53)) (2 ^ 53)).
  - split; reflexivity.
  - lia.
Defined.

(** X15: factorial(n) is multiply(factorial(n - 1), n) for every integer
    [1 <= n < 2^53]. *)
Theorem factorial_recurrence m n N :
  int_float m (N - 1) -> int_float n N -> 1 <= N < 2 ^ 53 ->
  forall fuel, (Z.to_nat N <= fuel)%nat ->
  exists p r,
    factorial fuel (VNumber m) = Some (Return (VNumber p)) /\
    factorial fuel (VNumber n) = Some (Return (VNumber r)) /\
    multiply (VNumber p) (VNumber n) = Return (VNumber r).
Proof.
  intros Hm Hn HN fuel Hfuel.
  exists (fact_float (Z.to_nat (N - 1))), (fact_float (Z.to_nat N)).
  split; [apply factorial_returns; [exact Hm|lia|lia]|].
  split; [apply factorial_returns; [exact Hn|lia|lia]|].
  rewrite multiply_numbers.
  - replace (Z.to_nat N) with (S (Z.to_nat (N - 1))) by lia.
    cbn [fact_float].
    rewrite (int_float_is_of_Z n N Hn) by lia.
    do 4 f_equal. lia.
  - apply nonneg_float_valid, fact_float_nonneg. lia.
  - apply (int_float_valid n N Hn).
Qed.

Lemma factorial_recurrence_witness :
  exists p r,
    factorial 25 (VNumber (B64.of_Z 24)) = Some (Return (VNumber p)) /\
    factorial 25 (VNumber (B64.of_Z 25)) = Some (Return (VNumber r)) /\
    multiply (VNumber p) (VNumber (B64.of_Z 25)) = Return (VNumber r).
Proof.
  apply (factorial_recurrence (B64.of_Z 24) (B64.of_Z 25) 25).
  - split; reflexivity.
  - split; reflexivity.
  - split; [lia|reflexivity].
  - simpl. lia.
Defined.

(** X16: for every integer [0 <= N < 2^53], [fibonacci] returns within [N]
    loop tests.  The result is the running sum rounded at every step, never
    NaN and never negative; it is finite up to [N = 1476] and [+Infinity]
    from [N = 1477] on. *)
Theorem fibonacci_returns_below_2_53 n N :
  int_float n N -> 0 <= N < 2 ^ 53 ->
  forall fuel, (Z.to_nat N <= fuel)%nat ->
  exists r,
    fibonacci fuel (VNumber n) = Some (Return (VNumber r)) /\
    r = fib_float (Z.to_nat N) /\
    nonneg_float r /\
    (N <= 1476 -> B64.is_finite r = true) /\
    (1477 <= N -> r = B64.pInf).
Proof.
  intros Hn HN fuel Hfuel. exists (fib_float (Z.to_nat N)).
  split; [apply fibonacci_returns; assumption|].
  split; [reflexivity|].
  split; [apply fib_float_nonneg|].
  split; intros H.
  - apply fib_float_finite. lia.
  - unfold fib_float. rewrite fib_float_pair_overflow by lia. reflexivity.
Qed.

Lemma fibonacci_returns_below_2_53_witness :
  exists r,
    fibonacci 100 (VNumber (B64.of_Z 100)) = Some (Return (VNumber r)) /\
    r = fib_float (Z.to_nat 100) /\
    nonneg_float r /\
    (100 <= 1476 -> B64.is_finite r = true) /\
    (1477 <= 100 -> r = B64.pInf).
Proof.
  apply (fibonacci_returns_below_2_53 (B64.of_Z 100) 100).
  - split; reflexivity.
  - split; [lia|reflexivity].
  - simpl. lia.
Defined.

(** X17: for every integer [N >= 2^53], [fibonacci] never returns: the
    counter [i++] stops growing at 2^53. *)
Theorem fibonacci_loops_forever_from_2_53 n N :
  int_float n N -> 2 ^ 53 <= N ->
  forall fuel, fibonacci fuel (VNumber n) = None.
Proof.
  intros Hn HN fuel. unfold fibonacci.
  rewrite (validateInteger_int_float n N Hn).
  rewrite (int_float_ltb n _ N 0 Hn int_float_of_Z_0).
  pose proof pow2_53_pos.
  destruct (Z.ltb_spec N 0) as [?|_]; [lia|].
  rewrite (int_float_eqb n _ N 0 Hn int_float_of_Z_0).
  rewrite (int_float_eqb n _ N 1 Hn int_float_of_Z_1).
  assert (1 < 2 ^ 53) by reflexivity.
  destruct (Z.eqb_spec N 0) as [?|_]; [lia|].
  destruct (Z.eqb_spec N 1) as [?|_]; [lia|].
  rewrite (fibonacci_loop_diverges n N Hn HN fuel (B64.of_Z 2) 2 _ _ int_float_of_Z_2);
    [reflexivity|lia].
Qed.

Lemma fibonacci_loops_forever_from_2_53_witness :
  fibonacci 1000 (VNumber (B64.of_Z (2 ^ 60))) = None.
Proof.
  apply (fibonacci_loops_forever_from_2_53 (B64.of_Z (2 ^ 60)) (2 ^ 60)).
  - split; reflexivity.
  - vm_compute. discriminate.
Defined.

(** X18: fibonacci(n) is add(fibonacci(n - 2), fibonacci(n - 1)) for every
    integer [2 <= n < 2^53]. *)
Theorem fibonacci_recurrence l m n N :
  int_float l (N - 2) -> int_float m (N - 1) -> int_float n N ->
  2 <= N < 2 ^ 53 ->
  forall fuel, (Z.to_nat N <= fuel)%nat ->
  exists a b r,
    fibonacci fuel (VNumber l) = Some (Return (VNumber a)) /\
    fibonacci fuel (VNumber m) = Some (Return (VNumber b)) /\
    fibonacci fuel (VNumber n) = Some (Return (VNumber r)) /\
    add (VNumber a) (VNumber b) = Return (VNumber r).
Proof.
  intros Hl Hm Hn HN fuel Hfuel.
  exists (fib_float (Z.to_nat (N - 2))), (fib_float (Z.to_nat (N - 1))),
         (fib_float (Z.to_nat N)).
  split; [apply fibonacci_returns; [exact Hl|lia|lia]|].
  split; [apply fibonacci_returns; [exact Hm|lia|lia]|].
  split; [apply fibonacci_returns; [exact Hn|lia|lia]|].
  rewrite add_numbers by (apply nonneg_float_valid, fib_float_nonneg).
  replace (Z.to_nat N) with (S (S (Z.to_nat (N - 2)))) by lia.
  replace (Z.to_nat (N - 1)) with (S (Z.to_nat (N - 2))) by lia.
  rewrite fib_float_step. reflexivity.
Qed.

Lemma fibonacci_recurrence_witness :
  exists a b r,
    fibonacci 90 (VNumber (B64.of_Z 88)) = Some (Return (VNumber a)) /\
    fibonacci 90 (VNumber (B64.of_Z 89)) = Some (Return (VNumber b)) /\
    fibonacci 90 (VNumber (B64.of_Z 90)) = Some (Return (VNumber r)) /\
    add (VNumber a) (VNumber b) = Return (VNumber r).
Proof.
  apply (fibonacci_recurrence (B64.of_Z 88) (B64.of_Z 89) (B64.of_Z 90) 90).
  - split; reflexivity.
  - split; reflexivity.
  - split; reflexivity.
  - split; [lia|reflexivity].
  - simpl. lia.
Defined.

Lemma isInteger_int_float x :
  B64.wf x -> B64.isInteger x = true -> exists N, int_float x N.
Proof.
  intros W H. unfold B64.isInteger in H.
  destruct (B64.to_Z x) as [N|] eqn:E; [|discriminate].
  exists N. split; assumption.
Qed.

Lemma validateInteger_cases v :
  (forall x, v = VNumber x -> B64.wf x) ->
  (~ accepted v /\ validateInteger v = rejection v) \/
  (accepted v /\ validateInteger v = Throw NotAnInteger) \/
  exists x N, v = VNumber x /\ int_float x N /\ validateInteger v = Return x.
Proof.
  intros W. unfold validateInteger.
  destruct (validateNumber_cases v) as [(x & -> & Vx & Hx)|[Hv Hx]].
  - rewrite Hx. cbn. right.
    destruct (B64.isInteger x) eqn:E.
    + right. destruct (isInteger_int_float x (W x eq_refl) E) as [N HN].
      exists x, N. auto.
    + left. split; [apply accepted_number; exact Vx|reflexivity].
  - left. split; [exact Hv|]. rewrite Hx. apply rejection_bind.
Qed.

(** X11: [validateInteger] accepts exactly the finite Numbers whose value is
    a whole number; NaN is [InvalidNumber], and every other Number, the
    infinities included, is [NotAnInteger].  An argument it rejects makes
    [factorial], [isPrime] and [fibonacci] throw that same error, without
    entering their loop. *)
Theorem validateInteger_accepts_whole_numbers x :
  B64.wf x ->
  (validateInteger (VNumber x) = Return x <->
   B64.is_finite x = true /\ (2 ^ 1074 | scaled x)) /\
  (validateInteger (VNumber x) = Throw InvalidNumber <-> x = B64.NaN) /\
  (validateInteger (VNumber x) = Throw NotAnInteger <->
   x <> B64.NaN /\ ~ (B64.is_finite x = true /\ (2 ^ 1074 | scaled x))) /\
  (forall e, validateInteger (VNumber x) = Throw e ->
   forall fuel, factorial fuel (VNumber x) = Some (Throw e) /\
                isPrime fuel (VNumber x) = Some (Throw e) /\
                fibonacci fuel (VNumber x) = Some (Throw e)).
Proof.
  intros W.
  assert (Hint : B64.isInteger x = true <->
                 B64.is_finite x = true /\ (2 ^ 1074 | scaled x)).
  { unfold B64.isInteger. split.
    - destruct (B64.to_Z x) as [N|] eqn:E; [intros _|discriminate].
      pose proof (int_float_finite x N (conj W E)) as F. split; [exact F|].
      exists N. apply (int_float_scaled x N). split; assumption.
    - intros [F [N HN]].
      apply (to_Z_scaled x N W F) in HN. rewrite HN. reflexivity. }
  assert (Hnan : B64.is_nan x = true <-> x = B64.NaN)
    by (unfold B64.NaN; destruct x; split; (discriminate || reflexivity)).
  assert (HV : validateInteger (VNumber x) =
               if B64.is_nan x then Throw InvalidNumber
               else if B64.isInteger x then Return x else Throw NotAnInteger)
    by (unfold validateInteger; cbn [validateNumber];
        destruct (B64.is_nan x); reflexivity).
  assert (Hfin : B64.is_finite x = true -> B64.is_nan x = false)
    by apply finite_not_nan.
  assert (Hii : B64.isInteger x = true -> B64.is_nan x = false)
    by (intros H; apply Hfin, Hint, H).
  unfold factorial, isPrime, fibonacci. rewrite HV.
  rewrite <- Hint, <- Hnan.
  destruct (B64.is_nan x), (B64.isInteger x);
    try (specialize (Hii eq_refl); discriminate);
    (split; [|split; [|split]]);
    try (split; congruence); try (split; intros [? ?]; congruence);
    try (intros e [= <-] fuel; auto).
  - split; [discriminate|]. intros [H _]. congruence.
  - split; [discriminate|]. intros [_ H]. congruence.
  - split; [intros _; split; congruence|reflexivity].
Qed.

Lemma validateInteger_accepts_whole_numbers_witness :
  (validateInteger (VNumber B64.pInf) = Return B64.pInf <->
   B64.is_finite B64.pInf = true /\ (2 ^ 1074 | scaled B64.pInf)) /\
  (validateInteger (VNumber B64.pInf) = Throw InvalidNumber <-> B64.pInf = B64.NaN) /\
  (validateInteger (VNumber B64.pInf) = Throw NotAnInteger <->
   B64.pInf <> B64.NaN /\
   ~ (B64.is_finite B64.pInf = true /\ (2 ^ 1074 | scaled B64.pInf))) /\
  (forall e, validateInteger (VNumber B64.pInf) = Throw e ->
   forall fuel, factorial fuel (VNumber B64.pInf) = Some (Throw e) /\
                isPrime fuel (VNumber B64.pInf) = Some (Throw e) /\
                fibonacci fuel (VNumber B64.pInf) = Some (Throw e)).
Proof.
  apply (validateInteger_accepts_whole_numbers B64.pInf). reflexivity.
Defined.

(** X12: [isPrime] returns on every argument, unless the argument is an
    object whose own string conversion never returns: there is a number
    of loop tests within which the call finishes, with one and the same
    outcome.  The outcome is the failure of the validation
    ([NotAnInteger] for an accepted Number that is not whole; for a value
    that is not accepted, [InvalidNumber] or the failure of its string
    conversion), or a boolean that is [true] exactly when the integer is
    prime; negative integers give [false]. *)
Theorem isPrime_returns_unless_conversion_hangs v :
  (forall x, v = VNumber x -> B64.wf x) ->
  (to_string v = Diverge -> forall fuel, isPrime fuel v = None) /\
  (to_string v <> Diverge ->
   exists fuel0 r,
     (forall fuel, (fuel0 <= fuel)%nat -> isPrime fuel v = Some r) /\
     match r with
     | Throw e =>
         (accepted v /\ e = NotAnInteger) \/
         (~ accepted v /\
          (to_string v = Return tt -> e = InvalidNumber) /\
          (forall e', to_string v = Throw e' -> e = e'))
     | Return b =>
         exists x N, v = VNumber x /\ int_float x N /\
                     (b = VBool true <-> Z.prime N) /\
                     (b = VBool false <-> ~ Z.prime N)
     | Diverge => False
     end).
Proof.
  intros W. split.
  - intros Hd fuel. unfold isPrime, validateInteger.
    destruct v as [| | |x| | | |l []]; try discriminate. reflexivity.
  - intros Hd.
    destruct (validateInteger_cases v W) as [[Hv E]|[[Hv E]|(x & N & -> & Hx & E)]].
    + unfold rejection in E. destruct (to_string v) as [[]|e|] eqn:Es;
        [| |congruence].
      * exists 0%nat, (Throw InvalidNumber). split.
        -- intros fuel _. unfold isPrime. rewrite E. reflexivity.
        -- right. split; [exact Hv|]. split; [reflexivity|discriminate].
      * exists 0%nat, (Throw e). split.
        -- intros fuel _. unfold isPrime. rewrite E. reflexivity.
        -- right. split; [exact Hv|]. split; [discriminate|].
           intros e' [= ->]. reflexivity.
    + exists 0%nat, (Throw NotAnInteger). split; [|left; auto].
      intros fuel _. unfold isPrime. rewrite E. reflexivity.
    + destruct (Z.lt_ge_cases N 0) as [Hneg|Hpos].
      * exists 0%nat, (Return (VBool false)). split.
        -- intros fuel _. unfold isPrime. rewrite E.
           rewrite (int_float_ltb x _ N 2 Hx int_float_of_Z_2).
           destruct (Z.ltb_spec N 2); [reflexivity|lia].
        -- exists x, N. split; [reflexivity|]. split; [exact Hx|].
           assert (Hnp : ~ Z.prime N) by (intros [H _]; lia).
           split; split; try discriminate; try tauto.
      * assert (Hdec : Z.prime N \/ ~ Z.prime N).
        { destruct (isPrime_decides x N Hx Hpos (Z.to_nat N) ltac:(lia))
            as ([] & _ & Hb).
          - left. apply Hb. reflexivity.
          - right. intros H. apply Hb in H. discriminate. }
        exists (Z.to_nat N).
        destruct Hdec as [Hp|Hnp].
        -- exists (Return (VBool true)). split.
           ++ intros fuel Hfuel.
              destruct (isPrime_decides x N Hx Hpos fuel Hfuel) as (b & -> & Hb).
              apply Hb in Hp. rewrite Hp. reflexivity.
           ++ exists x, N. split; [reflexivity|]. split; [exact Hx|].
              split; split; try discriminate; try tauto.
        -- exists (Return (VBool false)). split.
           ++ intros fuel Hfuel.
              destruct (isPrime_decides x N Hx Hpos fuel Hfuel) as ([] & -> & Hb);
                [exfalso; apply Hnp, Hb; reflexivity|reflexivity].
           ++ exists x, N. split; [reflexivity|]. split; [exact Hx|].
              split; split; try discriminate; try tauto.
Qed.

Lemma isPrime_returns_unless_conversion_hangs_witness :
  (to_string (VObject 1%positive ConvTypeError) = Diverge ->
   forall fuel, isPrime fuel (VObject 1%positive ConvTypeError) = None) /\
  (to_string (VObject 1%positive ConvTypeError) <> Diverge ->
   exists fuel0 r,
     (forall fuel, (fuel0 <= fuel)%nat ->
                   isPrime fuel (VObject 1%positive ConvTypeError) = Some r) /\
     match r with
     | Throw e =>
         (accepted (VObject 1%positive ConvTypeError) /\ e = NotAnInteger) \/
         (~ accepted (VObject 1%positive ConvTypeError) /\
          (to_string (VObject 1%positive ConvTypeError) = Return tt ->
           e = InvalidNumber) /\
          (forall e', to_string (VObject 1%positive ConvTypeError) = Throw e' ->
                      e = e'))
     | Return b =>
         exists x N, VObject 1%positive ConvTypeError = VNumber x /\
                     int_float x N /\
                     (b = VBool true <-> Z.prime N) /\
                     (b = VBool false <-> ~ Z.prime N)
     | Diverge => False
     end).
Proof.
  apply (isPrime_returns_unless_conversion_hangs (VObject 1%positive ConvTypeError)).
  intros x H. discriminate H.
Defined.

(** The operations on two operands have one shape: both operands are
    validated, then the binary64 operation is applied. *)
Lemma binary_operation_cases (f : float -> float -> float) a b :
  let r := '(x, y) ← validateNumbers2 a b; Return (VNumber (f x y)) in
  (~ accepted a -> r = rejection a) /\
  (accepted a -> ~ accepted b -> r = rejection b) /\
  (forall x y, a = VNumber x -> b = VNumber y ->
     valid_number x -> valid_number y -> r = Return (VNumber (f x y))).
Proof.
  cbv zeta. split; [|split].
  - intros Ha. rewrite (validateNumbers2_first a b Ha). apply rejection_bind.
  - intros (x & -> & Hx) Hb. rewrite (validateNumbers2_second x b Hx Hb).
    apply rejection_bind.
  - intros x y -> -> Hx Hy.
    rewrite (proj2 (validateNumbers2_Return _ _ x y)) by auto. reflexivity.
Qed.

Lemma binary_operations_fail_alike (f g : float -> float -> float) a b :
  let r1 := '(x, y) ← validateNumbers2 a b; Return (VNumber (f x y)) in
  let r2 := '(x, y) ← validateNumbers2 a b; Return (VNumber (g x y)) in
  (forall e, r1 = Throw e <-> r2 = Throw e) /\ (r1 = Diverge <-> r2 = Diverge).
Proof.
  cbv zeta. destruct (validateNumbers2 a b) as [[x y]|e0|]; cbn.
  - split; [intros e|]; split; discriminate.
  - split; [intros e|]; reflexivity.
  - split; [intros e|]; reflexivity.
Qed.

(** X9: [add], [subtract] and [multiply] reject the same operands in the
    same way.  The operands are validated from left to right, and the
    first one that is not accepted decides how each of the three ends:
    with [InvalidNumber] when it is NaN or converts to a string, and as
    its string conversion ends otherwise.  On two accepted Numbers each
    returns the result of its binary64 operation. *)
Theorem binary_operations_reject_alike a b :
  (~ accepted a ->
   add a b = rejection a /\ subtract a b = rejection a /\
   multiply a b = rejection a) /\
  (accepted a -> ~ accepted b ->
   add a b = rejection b /\ subtract a b = rejection b /\
   multiply a b = rejection b) /\
  (forall x y, a = VNumber x -> b = VNumber y ->
     valid_number x -> valid_number y ->
     add a b = Return (VNumber (B64.add x y)) /\
     subtract a b = Return (VNumber (B64.sub x y)) /\
     multiply a b = Return (VNumber (B64.mul x y))) /\
  (forall e, (add a b = Throw e <-> subtract a b = Throw e) /\
             (add a b = Throw e <-> multiply a b = Throw e)) /\
  (add a b = Diverge <-> subtract a b = Diverge) /\
  (add a b = Diverge <-> multiply a b = Diverge) /\
  (forall e, add a b = Throw e ->
     e = InvalidNumber \/ e = TypeError \/ exists w, e = Thrown w).
Proof.
  destruct (binary_operation_cases B64.add a b) as (A1 & A2 & A3).
  destruct (binary_operation_cases B64.sub a b) as (S1 & S2 & S3).
  destruct (binary_operation_cases B64.mul a b) as (M1 & M2 & M3).
  destruct (binary_operations_fail_alike B64.add B64.sub a b) as [AS1 AS2].
  destruct (binary_operations_fail_alike B64.add B64.mul a b) as [AM1 AM2].
  split; [intros Ha; repeat split; [apply A1|apply S1|apply M1]; exact Ha|].
  split; [intros Ha Hb; repeat split; [apply A2|apply S2|apply M2]; assumption|].
  split; [intros x y Ha Hb Hx Hy; repeat split;
          [apply A3|apply S3|apply M3]; assumption|].
  split; [intros e; split; [apply AS1|apply AM1]|].
  split; [exact AS2|]. split; [exact AM2|].
  intros e He. unfold add in He.
  destruct (validateNumbers2_cases a b)
    as [(x & y & Ea & Eb & Hx & Hy & _)|[[Ha _]|(x & Ea & Hx & Hb & _)]].
  - rewrite (A3 x y Ea Eb Hx Hy) in He. discriminate.
  - rewrite (A1 Ha) in He. apply (rejection_errors a e He).
  - rewrite (A2 ltac:(subst a; apply accepted_number; exact Hx) Hb) in He.
    apply (rejection_errors b e He).
Qed.

(** X10: [validateNumbers] returns exactly when every value is a Number
    other than NaN.  Otherwise the first value that is not accepted
    decides how the call ends: with [InvalidNumber] when it is NaN or
    converts to a string, and as its string conversion ends otherwise. *)
Theorem validateNumbers_all_or_nothing values :
  (forall xs, validateNumbers values = Return xs <->
              values = VNumber <$> xs /\ Forall valid_number xs) /\
  (forall xs v rest,
      values = (VNumber <$> xs) ++ v :: rest ->
      Forall valid_number xs -> ~ accepted v ->
      validateNumbers values = rejection v /\
      (to_string v = Return tt -> validateNumbers values = Throw InvalidNumber) /\
      (forall e, to_string v = Throw e -> validateNumbers values = Throw e) /\
      (to_string v = Diverge -> validateNumbers values = Diverge)) /\
  ((exists xs, values = VNumber <$> xs /\ Forall valid_number xs) \/
   (exists xs v rest, values = (VNumber <$> xs) ++ v :: rest /\
                      Forall valid_number xs /\ ~ accepted v)).
Proof.
  split; [|split; [|apply accepted_prefix]].
  - intros xs. split.
    + destruct (accepted_prefix values)
        as [(ys & -> & Hys)|(ys & v & rest & -> & Hys & Hv)].
      * rewrite (validateNumbers_numbers ys Hys). intros [= <-]. auto.
      * rewrite (validateNumbers_first_invalid ys v rest Hys Hv).
        intros H. destruct (rejection_not_Return _ _ H).
    + intros [-> Hxs]. apply validateNumbers_numbers. exact Hxs.
  - intros xs v rest -> Hxs Hv.
    rewrite (validateNumbers_first_invalid xs v rest Hxs Hv).
    unfold rejection. split; [reflexivity|].
    split; [intros ->; reflexivity|].
    split; [intros e ->; reflexivity|intros ->; reflexivity].
Qed.

(** X7: [subtract] is [add] of the opposite Number: subtract(a, y) and
    add(a, -y) are the same outcome, the same Number or the same error,
    for every first argument. *)
Theorem subtract_is_add_opposite a y :
  subtract a (VNumber y) = add a (VNumber (negate y)).
Proof.
  unfold subtract, add, validateNumbers2.
  destruct (validateNumber a) as [x| |]; [|reflexivity|reflexivity]. cbn.
  destruct y as [s|s| |s m e]; cbn; try reflexivity;
    rewrite sub_add_negate; reflexivity.
Qed.

Lemma sub_diag x :
  B64.is_finite x = true -> B64.sub x x = S754_zero false.
Proof.
  destruct x as [s| | |s m e]; try discriminate; intros _.
  - destruct s; reflexivity.
  - unfold B64.sub, SFsub. rewrite Z.sub_diag. reflexivity.
Qed.

(** X8: a valid Number minus itself.  For a finite Number the result is
    [+0]; for an infinity it is NaN, a result that [add] (like every other
    function of the module) then rejects as an argument. *)
Theorem subtract_self x :
  valid_number x ->
  exists r, subtract (VNumber x) (VNumber x) = Return (VNumber r) /\
            (B64.is_finite x = true -> r = S754_zero false) /\
            (B64.is_finite x = false -> r = B64.NaN /\
               forall c, add (VNumber r) c = Throw InvalidNumber) /\
            (r = B64.NaN \/ r = S754_zero false).
Proof.
  intros Vx. exists (B64.sub x x).
  split; [apply subtract_numbers; assumption|].
  destruct x as [s|s| |s m e]; try discriminate.
  - split; [intros _; apply sub_diag; reflexivity|].
    split; [discriminate|]. right. apply sub_diag. reflexivity.
  - assert (E : B64.sub (S754_infinity s) (S754_infinity s) = B64.NaN)
      by (destruct s; reflexivity).
    rewrite E. split; [discriminate|]. split; [|left; reflexivity].
    intros _. split; [reflexivity|]. intros c. reflexivity.
  - split; [intros _; apply sub_diag; reflexivity|].
    split; [discriminate|]. right. apply sub_diag. reflexivity.
Qed.

Lemma subtract_self_witness :
  exists r, subtract (VNumber B64.pInf) (VNumber B64.pInf) = Return (VNumber r) /\
            (B64.is_finite B64.pInf = true -> r = S754_zero false) /\
            (B64.is_finite B64.pInf = false -> r = B64.NaN /\
               forall c, add (VNumber r) c = Throw InvalidNumber) /\
            (r = B64.NaN \/ r = S754_zero false).
Proof.
  apply (subtract_self B64.pInf). reflexivity.
Defined.

Lemma rejection_Throw_any {A B} v e :
  @rejection A v = Throw e <-> @rejection B v = Throw e.
Proof.
  unfold rejection. destruct (to_string v); split; intros H;
    try discriminate; injection H as <-; reflexivity.
Qed.

Lemma rejection_Diverge_any {A B} v :
  @rejection A v = Diverge <-> @rejection B v = Diverge.
Proof.
  unfold rejection. destruct (to_string v); split; intros H;
    try discriminate; reflexivity.
Qed.

(** [average] and [median] begin in the same way: the test of the
    argument, then the validation of the elements. *)
Lemma average_cases st numbers :
  ((isArray st numbers = None \/ isArray st numbers = Some []) /\
   average st numbers = Throw EmptyOrInvalidInput) \/
  (exists elems xs v rest,
      isArray st numbers = Some elems /\ elems <> [] /\
      present elems = (VNumber <$> xs) ++ v :: rest /\
      Forall valid_number xs /\ ~ accepted v /\
      average st numbers = rejection v) \/
  (exists elems xs,
      isArray st numbers = Some elems /\ elems <> [] /\
      present elems = VNumber <$> xs /\ Forall valid_number xs /\
      average st numbers =
      Return (VNumber (B64.div (float_sum xs) (B64.of_Z (Z.of_nat (length elems)))))).
Proof.
  unfold average. destruct (isArray st numbers) as [elems|]; [|left; auto].
  destruct elems as [|o elems]; [left; auto|]. right.
  set (es := o :: elems). cbn [length Nat.eqb].
  destruct (accepted_prefix (present es))
    as [(xs & E & Hxs)|(xs & v & rest & E & Hxs & Hv)].
  - right. exists es, xs. repeat split; try assumption; [discriminate|].
    rewrite E, (validateNumbers_numbers xs Hxs). cbn.
    rewrite reduce_sum_float_sum. reflexivity.
  - left. exists es, xs, v, rest.
    split; [reflexivity|]. split; [discriminate|]. split; [exact E|].
    split; [exact Hxs|]. split; [exact Hv|].
    rewrite E, (validateNumbers_first_invalid xs v rest Hxs Hv).
    apply rejection_bind.
Qed.

Lemma median_cases st numbers :
  ((isArray st numbers = None \/ isArray st numbers = Some []) /\
   median st numbers = Throw EmptyOrInvalidInput) \/
  (exists elems xs v rest,
      isArray st numbers = Some elems /\ elems <> [] /\
      present elems = (VNumber <$> xs) ++ v :: rest /\
      Forall valid_number xs /\ ~ accepted v /\
      median st numbers = rejection v) \/
  (exists elems xs r st',
      isArray st numbers = Some elems /\ elems <> [] /\
      present elems = VNumber <$> xs /\ Forall valid_number xs /\
      median st numbers = Return (r, st')).
Proof.
  unfold median. destruct (isArray st numbers) as [elems|]; [|left; auto].
  destruct elems as [|o elems]; [left; auto|]. right.
  set (es := o :: elems). cbn [length Nat.eqb].
  destruct (accepted_prefix (present es))
    as [(xs & E & Hxs)|(xs & v & rest & E & Hxs & Hv)].
  - right. rewrite E, (validateNumbers_numbers xs Hxs).
    cbn [mbind completion_bind]. cbv zeta.
    destruct (_ =? 0); eexists es, xs, _, _;
      repeat split; first [assumption|discriminate|reflexivity].
  - left. exists es, xs, v, rest.
    split; [reflexivity|]. split; [discriminate|]. split; [exact E|].
    split; [exact Hxs|]. split; [exact Hv|].
    rewrite E, (validateNumbers_first_invalid xs v rest Hxs Hv).
    apply rejection_bind.
Qed.

(** X21: [median] and [average] reject the same arguments in the same
    way: [EmptyOrInvalidInput] for a value that is not an array and for
    an empty array; on any other array the first element that is not an
    accepted Number decides (holes are skipped), with [InvalidNumber] when
    it is NaN or converts to a string, and as its string conversion ends
    otherwise.  One returns exactly when the other does. *)
Theorem median_average_fail_alike st numbers :
  (forall e, average st numbers = Throw e <-> median st numbers = Throw e) /\
  (average st numbers = Diverge <-> median st numbers = Diverge) /\
  ((exists r, average st numbers = Return r) <->
   (exists r st', median st numbers = Return (r, st'))) /\
  (forall e, average st numbers = Throw e ->
     (e = EmptyOrInvalidInput /\
      (isArray st numbers = None \/ isArray st numbers = Some [])) \/
     (exists elems xs v rest,
         isArray st numbers = Some elems /\
         present elems = (VNumber <$> xs) ++ v :: rest /\
         Forall valid_number xs /\ ~ accepted v /\
         (to_string v = Return tt -> e = InvalidNumber) /\
         (forall e', to_string v = Throw e' -> e = e'))).
Proof.
  assert (Hinj : forall (xs ys : list float) (v w : value) rest rest',
             (VNumber <$> xs) ++ v :: rest = (VNumber <$> ys) ++ w :: rest' ->
             Forall valid_number xs -> Forall valid_number ys ->
             ~ accepted v -> ~ accepted w -> v = w).
  { induction xs as [|x xs IH]; intros [|y ys] v w rest rest' E Hx Hy Hv Hw;
      cbn in E.
    - congruence.
    - injection E as -> _. exfalso. apply Hv. apply accepted_number.
      apply Forall_cons in Hy as [Hy _]. exact Hy.
    - injection E as <- _. exfalso. apply Hw. apply accepted_number.
      apply Forall_cons in Hx as [Hx _]. exact Hx.
    - injection E as _ E. apply Forall_cons in Hx as [_ Hx], Hy as [_ Hy].
      apply (IH ys v w rest rest' E Hx Hy Hv Hw). }
  assert (Hno : forall (xs ys : list float) (v : value) rest,
             (VNumber <$> xs) ++ v :: rest = VNumber <$> ys ->
             Forall valid_number ys -> ~ accepted v -> False).
  { induction xs as [|x xs IH]; intros [|y ys] v rest E Hy Hv; cbn in E;
      try discriminate.
    - injection E as -> _. apply Hv, accepted_number.
      apply Forall_cons in Hy as [Hy _]. exact Hy.
    - injection E as _ E. apply Forall_cons in Hy as [_ Hy].
      apply (IH ys v rest E Hy Hv). }
  destruct (average_cases st numbers)
    as [[Ha Ea]|[(elems & xs & v & rest & Harr & Hne & Ep & Hxs & Hv & Ea)
                |(elems & xs & Harr & Hne & Ep & Hxs & Ea)]];
  destruct (median_cases st numbers)
    as [[Hm Em]|[(elems' & xs' & v' & rest' & Harr' & Hne' & Ep' & Hxs' & Hv' & Em)
                |(elems' & xs' & r' & st' & Harr' & Hne' & Ep' & Hxs' & Em)]];
  try (destruct Ha as [Ha|Ha]; rewrite Ha in *; congruence);
  try (destruct Hm as [Hm|Hm]; rewrite Hm in *; congruence).
  - rewrite Ea, Em.
    split; [intros e; split; intros [= <-]; reflexivity|].
    split; [split; discriminate|].
    split; [split; [intros [r H]|intros (r & s' & H)]; discriminate|].
    intros e [= <-]. left. auto.
  - assert (Ee : elems' = elems) by congruence. subst elems'.
    assert (Ev : v' = v).
    { rewrite Ep in Ep'. symmetry. apply (Hinj _ _ _ _ _ _ Ep'); assumption. }
    subst v'.
    rewrite Ea, Em.
    split; [intros e; apply rejection_Throw_any|].
    split; [apply rejection_Diverge_any|].
    split.
    { split; [intros [r H]|intros (r & s' & H)];
        destruct (rejection_not_Return _ _ H). }
    intros e He. right. exists elems, xs, v, rest.
    repeat split; try assumption.
    + intros Hs. unfold rejection in He. rewrite Hs in He. congruence.
    + intros e' Hs. unfold rejection in He. rewrite Hs in He. congruence.
  - exfalso. assert (Ee : elems' = elems) by congruence. subst elems'.
    rewrite Ep' in Ep. apply (Hno _ _ _ _ (eq_sym Ep)); assumption.
  - exfalso. assert (Ee : elems' = elems) by congruence. subst elems'.
    rewrite Ep in Ep'. apply (Hno _ _ _ _ (eq_sym Ep')); assumption.
  - rewrite Ea, Em.
    split; [intros e; split; discriminate|]. split; [split; discriminate|].
    split; [split; intros _; eauto|]. intros e. discriminate.
Qed.

Lemma nth_elem_of (l : list float) i :
  (i < length l)%nat -> nth i l B64.NaN ∈ l.
Proof.
  intros Hi. destruct (lookup_lt_is_Some_2 l i Hi) as [x Hx].
  rewrite nth_lookup, Hx. cbn. eapply list_elem_of_lookup_2. exact Hx.
Qed.

Lemma StronglySorted_nth (l : list float) i j :
  StronglySorted num_le l -> (i < j)%nat -> (j < length l)%nat ->
  num_le (nth i l B64.NaN) (nth j l B64.NaN).
Proof.
  intros Hs. revert i j. induction Hs as [|x l Hs IH Hx]; intros i j Hij Hj.
  - cbn in Hj. lia.
  - destruct j as [|j]; [lia|]. cbn [length] in Hj. destruct i as [|i]; cbn [nth].
    + rewrite Forall_forall in Hx. apply Hx, nth_elem_of. lia.
    + apply IH; lia.
Qed.

Lemma half_bounds n :
  (0 < n)%nat ->
  (n / 2 < n)%nat /\ (Nat.odd n = false -> (1 <= n / 2)%nat).
Proof.
  intros Hn. split; [apply Nat.div_lt; lia|].
  intros Hodd. rewrite <- Nat.negb_even in Hodd. apply negb_false_iff in Hodd.
  apply Nat.even_spec in Hodd as [k ->].
  rewrite Nat.mul_comm, Nat.div_mul by lia. lia.
Qed.

(** X20: the median of an array of odd length is one of its elements; for
    an even length it is divide(add(a, b), 2) of two elements [a <= b]. *)
Theorem median_from_elements st numbers xs :
  isArray st numbers = Some (number_array xs) -> xs <> [] -> Forall number xs ->
  exists r st',
    median st numbers = Return (VNumber r, st') /\
    (Nat.odd (length xs) = true -> r ∈ xs) /\
    (Nat.odd (length xs) = false ->
     exists a b, a ∈ xs /\ b ∈ xs /\ num_le a b /\
                 r = B64.div (B64.add a b) (B64.of_Z 2)).
Proof.
  intros Harr Hne Hn.
  pose proof (array_sort_Permutation xs) as Hp.
  pose proof (array_sort_sorted xs Hn) as Hs.
  set (sorted := array_sort (fun a b => B64.sub a b) xs) in *.
  assert (Hlen : length sorted = length xs) by (rewrite Hp; reflexivity).
  assert (Hpos : (0 < length xs)%nat) by (destruct xs; [congruence|cbn; lia]).
  destruct (half_bounds (length xs) Hpos) as [Hhalf Heven].
  assert (Hin : forall x, x ∈ sorted -> x ∈ xs)
    by (intros x Hx; rewrite <- Hp; exact Hx).
  eexists (median_of_sorted sorted), _.
  split; [apply (median_dense st numbers xs Harr Hne), Forall_number_valid, Hn|].
  unfold median_of_sorted. rewrite Hlen. split; intros Hodd; rewrite Hodd.
  - apply Hin, nth_elem_of. lia.
  - specialize (Heven Hodd).
    exists (nth (length xs / 2 - 1) sorted B64.NaN), (nth (length xs / 2) sorted B64.NaN).
    split; [apply Hin, nth_elem_of; lia|].
    split; [apply Hin, nth_elem_of; lia|].
    split; [apply StronglySorted_nth; [exact Hs|lia|lia]|reflexivity].
Qed.

Lemma median_from_elements_witness :
  exists r st',
    median {[ 1%positive := OArray (number_array (B64.of_Z <$> [9; 2; 7; 4])) ]}
           (VObject 1%positive ConvString) = Return (VNumber r, st') /\
    (Nat.odd (length (B64.of_Z <$> [9; 2; 7; 4])) = true ->
     r ∈ B64.of_Z <$> [9; 2; 7; 4]) /\
    (Nat.odd (length (B64.of_Z <$> [9; 2; 7; 4])) = false ->
     exists a b, a ∈ B64.of_Z <$> [9; 2; 7; 4] /\ b ∈ B64.of_Z <$> [9; 2; 7; 4] /\
                 num_le a b /\ r = B64.div (B64.add a b) (B64.of_Z 2)).
Proof.
  apply (median_from_elements _ _ (B64.of_Z <$> [9; 2; 7; 4])).
  - reflexivity.
  - discriminate.
  - repeat constructor.
Defined.

Lemma Zsum_abs Xs : Z.abs (Zsum Xs) <= Zsum (Z.abs <$> Xs).
Proof.
  induction Xs as [|X Xs IH]; [reflexivity|].
  rewrite fmap_cons. cbn [Zsum foldr] in *. fold (Zsum Xs). fold (Zsum (Z.abs <$> Xs)).
  lia.
Qed.

Lemma Forall2_int_float_valid xs Xs :
  Forall2 int_float xs Xs -> Forall valid_number xs.
Proof.
  induction 1 as [|x X xs Xs Hx _ IH]; constructor; [|exact IH].
  apply (int_float_valid x X Hx).
Qed.

Lemma abs_quotient_le a b : b <> 0 -> (b | a) -> Z.abs (a / b) <= Z.abs a.
Proof.
  intros Hb [q ->]. rewrite Z.div_mul by exact Hb. apply abs_factor_le. exact Hb.
Qed.

(** X22: the [average] of integers is exact when their count divides their
    sum (and the absolute values add up to at most 2^53): the result
    denotes [sum / count]. *)
Theorem average_exact_mean st numbers xs Xs :
  isArray st numbers = Some (number_array xs) -> xs <> [] ->
  Forall2 int_float xs Xs ->
  Zsum (Z.abs <$> Xs) <= 2 ^ 53 -> Z.of_nat (length xs) <= 2 ^ 53 ->
  (Z.of_nat (length xs) | Zsum Xs) ->
  exists r, average st numbers = Return (VNumber r) /\
            int_float r (Zsum Xs / Z.of_nat (length xs)).
Proof.
  intros Harr Hne HX Hb Hl Hd.
  assert (Hpos : Z.of_nat (length xs) <> 0) by (destruct xs; [congruence|cbn; lia]).
  exists (B64.div (reduce_sum xs) (B64.of_Z (Z.of_nat (length xs)))). split.
  - unfold average. rewrite Harr.
    assert (Hlen : (length (number_array xs) =? 0)%nat = false)
      by (destruct xs; [congruence|reflexivity]).
    rewrite Hlen, present_number_array,
      (validateNumbers_numbers xs (Forall2_int_float_valid xs Xs HX)).
    cbn. unfold length_number. rewrite length_number_array. reflexivity.
  - pose proof (Zsum_abs Xs) as Ha.
    apply int_float_div; try assumption.
    + rewrite reduce_sum_float_sum. apply float_sum_exact; assumption.
    + apply int_float_of_Z. lia.
    + pose proof (abs_quotient_le _ _ Hpos Hd). lia.
Qed.

Lemma average_exact_mean_witness :
  exists r,
    average {[ 1%positive := OArray (number_array (B64.of_Z <$> [10; -4; 7; 3])) ]}
            (VObject 1%positive ConvString) = Return (VNumber r) /\
    int_float r (Zsum [10; -4; 7; 3] / Z.of_nat (length (B64.of_Z <$> [10; -4; 7; 3]))).
Proof.
  apply (average_exact_mean _ _ (B64.of_Z <$> [10; -4; 7; 3]) [10; -4; 7; 3]).
  - reflexivity.
  - discriminate.
  - repeat constructor.
  - vm_compute. discriminate.
  - vm_compute. discriminate.
  - exists 4. reflexivity.
Defined.

(** X23: whatever [Math.pow] computes, [power] ends as [add] does on
    operands that are not both accepted: the first operand that is not
    accepted decides, with [InvalidNumber] when it is NaN or converts to a
    string, and as its string conversion ends otherwise.  On two accepted
    Numbers it returns the value of [Math.pow] unchanged: there is no
    check of a zero base or a negative exponent. *)
Theorem power_validates_like_add pow a b :
  (forall e, power pow a b = Throw e <-> add a b = Throw e) /\
  (power pow a b = Diverge <-> add a b = Diverge) /\
  (~ accepted a -> power pow a b = rejection a) /\
  (accepted a -> ~ accepted b -> power pow a b = rejection b) /\
  (forall r, power pow a b = Return r <->
             exists x y, a = VNumber x /\ b = VNumber y /\
                         valid_number x /\ valid_number y /\
                         r = VNumber (pow x y)).
Proof.
  destruct (binary_operation_cases pow a b) as (P1 & P2 & P3).
  destruct (binary_operations_fail_alike pow B64.add a b) as [PA1 PA2].
  split; [exact PA1|]. split; [exact PA2|]. split; [exact P1|]. split; [exact P2|].
  intros r. split.
  - intros H. unfold power in H.
    destruct (validateNumbers2_cases a b)
      as [(x & y & Ea & Eb & Hx & Hy & _)|[[Ha _]|(x & Ea & Hx & Hb & _)]].
    + rewrite (P3 x y Ea Eb Hx Hy) in H. injection H as <-.
      exists x, y. auto.
    + rewrite (P1 Ha) in H. destruct (rejection_not_Return _ _ H).
    + rewrite (P2 ltac:(subst a; apply accepted_number; exact Hx) Hb) in H.
      destruct (rejection_not_Return _ _ H).
  - intros (x & y & Ea & Eb & Hx & Hy & ->). apply P3; assumption.
Qed.

(** ** The mean and the median *)










